(** * tc-arch-extract: the save-file codec of the archive packager
      ([tc_extract_arch.py]) and of the field patcher ([tc_fix_rams.py])

    The two Python tools are embedded as Rocq functions: Python [int] is [Z],
    [bytes]/[bytearray] is [list byte], [str] is a list of code points,
    a raised exception is the [Raise] branch of [result], dataclasses are
    records, a [dict] is a [gmap] and a [set] a [gset].  Definitions come
    first (one module per source file, after the Python built-ins they
    call); the lemmas and the theorems about them follow. *)

From Stdlib Require Import ZArith Lia List.
From Stdlib Require Import Strings.Byte.
From stdpp Require Import base tactics option list gmap strings.

Local Open Scope Z_scope.

(* ===================================================================== *)
(** * Python built-ins used by the two tools                              *)
(* ===================================================================== *)

Module Py.

(** The exceptions the tools can raise, by class. *)
Inductive exn : Set :=
| IndexError
| ValueError
| AssertionError
| OverflowError
| UnicodeDecodeError
| UnicodeEncodeError
| TypeError
| FileNotFoundError.

(** The outcome of a call: a value, or a raised exception. *)
Inductive result (A : Type) : Type :=
| OK (a : A)
| Raise (e : exn).
Arguments OK {A} a.
Arguments Raise {A} e.

Definition bind {A B} (m : result A) (k : A -> result B) : result B :=
  match m with
  | OK a => k a
  | Raise e => Raise e
  end.

(** [x ← m; k] runs [m] and, unless it raised, continues with [k]. *)
#[export] Instance result_bind : MBind result := fun A B k m => bind m k.
#[export] Instance result_ret : MRet result := @OK.

Definition is_ok {A} (m : result A) : bool :=
  match m with OK _ => true | Raise _ => false end.

Abbreviation bytes := (list byte).

#[export] Instance byte_eq_dec : EqDecision byte.
Proof.
  intros a b. destruct (N.eq_dec (Byte.to_N a) (Byte.to_N b)) as [E|E].
  - left. apply (f_equal Byte.of_N) in E. rewrite !Byte.of_to_N in E. congruence.
  - right. congruence.
Defined.

(** A byte read as an [int] ([data[i]] on a [bytes] object). *)
Definition b2z (b : byte) : Z := Z.of_N (Byte.to_N b).

(** The byte of an integer known to lie in [range(256)]. *)
Definition z2b (z : Z) : byte :=
  match Byte.of_N (Z.to_N (z mod 256)) with
  | Some b => b
  | None => x00
  end.

(** [bytearray.append(n)] and [bytes([n])]: [ValueError] outside
    [range(256)]. *)
Definition byte_of_int (n : Z) : result byte :=
  if (0 <=? n) && (n <? 256) then OK (z2b n) else Raise ValueError.

Definition len {A} (l : list A) : Z := Z.of_nat (length l).

(** How a slice bound is brought into [0 .. n]: a negative bound counts
    from the end, and everything is clamped. *)
Definition clamp (n i : Z) : Z :=
  if i <? 0 then Z.max (i + n) 0 else Z.min i n.

(** [l[i:j]] *)
Definition slice {A} (l : list A) (i j : Z) : list A :=
  let lo := clamp (len l) i in
  let hi := clamp (len l) j in
  take (Z.to_nat (hi - lo)) (drop (Z.to_nat lo) l).

(** [l[i:]] *)
Definition slice_from {A} (l : list A) (i : Z) : list A :=
  drop (Z.to_nat (clamp (len l) i)) l.

(** [l[i]]: a negative index counts from the end; [IndexError] outside
    [-len(l) .. len(l)-1]. *)
Definition getitem {A} (l : list A) (i : Z) : result A :=
  let k := if i <? 0 then i + len l else i in
  if k <? 0 then Raise IndexError
  else match l !! Z.to_nat k with
       | Some x => OK x
       | None => Raise IndexError
       end.

(** [int.from_bytes(bs, 'little', signed=False)] *)
Fixpoint from_le (bs : bytes) : Z :=
  match bs with
  | [] => 0
  | b :: bs' => b2z b + 256 * from_le bs'
  end.

(** [int.from_bytes(bs, 'little', signed=signed)] *)
Definition int_from_bytes (bs : bytes) (signed : bool) : Z :=
  let u := from_le bs in
  if signed && (2 ^ (8 * len bs) <=? 2 * u) then u - 2 ^ (8 * len bs) else u.

(** The [n] low bytes of [x], least significant first. *)
Fixpoint to_le (n : nat) (x : Z) : bytes :=
  match n with
  | O => []
  | S n' => z2b (x mod 256) :: to_le n' (x / 256)
  end.

(** [x.to_bytes(n, 'little', signed=signed)]: [OverflowError] when [x]
    does not fit in [n] bytes. *)
Definition int_to_bytes (x : Z) (n : Z) (signed : bool) : result bytes :=
  if n <? 0 then Raise ValueError
  else if signed then
    if (- 2 ^ (8 * n) <=? 2 * x) && (2 * x <? 2 ^ (8 * n))
    then OK (to_le (Z.to_nat n) (x mod 2 ^ (8 * n)))
    else Raise OverflowError
  else
    if (0 <=? x) && (x <? 2 ^ (8 * n))
    then OK (to_le (Z.to_nat n) x)
    else Raise OverflowError.

(** Python [str]: the sequence of its code points. *)
Abbreviation str := (list Z).

Definition is_cont (c : Z) : bool := (128 <=? c) && (c <=? 191).

(** [bs.decode('utf-8')], the strict decoder: shortest forms only, no
    surrogates, nothing above U+10FFFF. *)
Fixpoint utf8_decode (bs : bytes) : result str :=
  match bs with
  | [] => OK []
  | b0 :: r0 =>
      let c0 := b2z b0 in
      if c0 <? 128 then
        s ← utf8_decode r0; OK (c0 :: s)
      else if (194 <=? c0) && (c0 <=? 223) then
        match r0 with
        | b1 :: r1 =>
            let c1 := b2z b1 in
            if is_cont c1 then
              s ← utf8_decode r1; OK ((c0 - 192) * 64 + (c1 - 128) :: s)
            else Raise UnicodeDecodeError
        | _ => Raise UnicodeDecodeError
        end
      else if (224 <=? c0) && (c0 <=? 239) then
        match r0 with
        | b1 :: b2 :: r2 =>
            let c1 := b2z b1 in
            let c2 := b2z b2 in
            let lo := if c0 =? 224 then 160 else 128 in
            let hi := if c0 =? 237 then 159 else 191 in
            if (lo <=? c1) && (c1 <=? hi) && is_cont c2 then
              s ← utf8_decode r2;
              OK ((c0 - 224) * 4096 + (c1 - 128) * 64 + (c2 - 128) :: s)
            else Raise UnicodeDecodeError
        | _ => Raise UnicodeDecodeError
        end
      else if (240 <=? c0) && (c0 <=? 244) then
        match r0 with
        | b1 :: b2 :: b3 :: r3 =>
            let c1 := b2z b1 in
            let c2 := b2z b2 in
            let c3 := b2z b3 in
            let lo := if c0 =? 240 then 144 else 128 in
            let hi := if c0 =? 244 then 143 else 191 in
            if (lo <=? c1) && (c1 <=? hi) && is_cont c2 && is_cont c3 then
              s ← utf8_decode r3;
              OK ((c0 - 240) * 262144 + (c1 - 128) * 4096 + (c2 - 128) * 64
                  + (c3 - 128) :: s)
            else Raise UnicodeDecodeError
        | _ => Raise UnicodeDecodeError
        end
      else Raise UnicodeDecodeError
  end.

(** The UTF-8 bytes of one code point; a surrogate cannot be encoded. *)
Definition utf8_encode_cp (c : Z) : result bytes :=
  if c <? 0 then Raise ValueError
  else if c <? 128 then OK [z2b c]
  else if c <? 2048 then OK [z2b (192 + c / 64); z2b (128 + c mod 64)]
  else if c <? 65536 then
    if (55296 <=? c) && (c <=? 57343) then Raise UnicodeEncodeError
    else OK [z2b (224 + c / 4096); z2b (128 + (c / 64) mod 64);
             z2b (128 + c mod 64)]
  else if c <? 1114112 then
    OK [z2b (240 + c / 262144); z2b (128 + (c / 4096) mod 64);
        z2b (128 + (c / 64) mod 64); z2b (128 + c mod 64)]
  else Raise ValueError.

(** [s.encode('utf-8')] *)
Fixpoint utf8_encode (s : str) : result bytes :=
  match s with
  | [] => OK []
  | c :: s' => b ← utf8_encode_cp c; r ← utf8_encode s'; OK (b ++ r)
  end.

(** [b''.join(f(e) for e in x)]: the first failing [f(e)] raises. *)
Fixpoint join_map {A} (f : A → result bytes) (x : list A) : result bytes :=
  match x with
  | [] => OK []
  | e :: x' => b ← f e; r ← join_map f x'; OK (b ++ r)
  end.

(** A Python [slice] object: each of start, stop and step is an [int] or
    [None]. *)
Record pyslice : Set := Slice { start : option Z; stop : option Z; step : option Z }.

(** One bound of [slice.indices]: [None] takes the default; a negative
    bound counts from the end; the result is clamped to [lower .. upper]. *)
Definition adjust_bound (b : option Z) (default lower upper length : Z) : Z :=
  match b with
  | None => default
  | Some v =>
      if v <? 0 then (if v + length <? lower then lower else v + length)
      else (if upper <? v then upper else v)
  end.

(** [s.indices(length)]: the [(start, stop, step)] that [s] denotes on a
    sequence of [length] items; [ValueError] when the step is 0 or the
    length negative. *)
Definition slice_indices (s : pyslice) (length : Z) : result (Z * Z * Z) :=
  let st := default 1 (step s) in
  if st =? 0 then Raise ValueError
  else if length <? 0 then Raise ValueError
  else
    let lower := if st <? 0 then -1 else 0 in
    let upper := if st <? 0 then length - 1 else length in
    let a := adjust_bound (start s) (if st <? 0 then upper else lower) lower upper length in
    let b := adjust_bound (stop s) (if st <? 0 then lower else upper) lower upper length in
    OK (a, b, st).

(** The number of items [range(a, b, st)] visits. *)
Definition slice_length (a b st : Z) : Z :=
  if st <? 0 then (if b <? a then (a - b - 1) / (- st) + 1 else 0)
  else (if a <? b then (b - a - 1) / st + 1 else 0).

(** [l[s]] for a slice object [s]. *)
Definition getslice {A} (l : list A) (s : pyslice) : result (list A) :=
  '(a, b, st) ← slice_indices s (len l);
  OK (omap (fun k : nat => l !! Z.to_nat (a + Z.of_nat k * st))
           (seq 0 (Z.to_nat (slice_length a b st)))).

(** The subscript of [obj[item]]: an [int] or a [slice]. *)
Inductive subscript : Set :=
| Int (i : Z)
| Sl (s : pyslice).

End Py.

Export Py.

(* ===================================================================== *)
(** * The lazy decompressor, [class SnappyDecompress]                     *)
(* ===================================================================== *)

(** The body of the class is the same text in both tools; only the
    [read_varint] that [__init__] calls differs, so the methods are given
    once and each tool's module adds its own constructor. *)
Module Snappy.

Record SnappyDecompress : Set := mkSnappy {
  compressed_data : bytes;
  uncompressed_data : bytes;
  uncompressed_length : Z;
  index : Z
}.

(** A method: it may update [self], and may raise after having done so. *)
Definition M (A : Type) : Type := SnappyDecompress → result A * SnappyDecompress.

#[export] Instance M_ret : MRet M := fun A a self => (OK a, self).
#[export] Instance M_bind : MBind M := fun A B k m self =>
  match m self with
  | (OK a, self') => k a self'
  | (Raise e, self') => (Raise e, self')
  end.

Definition lift {A} (r : result A) : M A := fun self => (r, self).
Definition get {A} (f : SnappyDecompress → A) : M A := fun self => (OK (f self), self).
Definition set_index (i : Z) : M unit := fun self =>
  (OK tt, mkSnappy (compressed_data self) (uncompressed_data self) (uncompressed_length self) i).
Definition set_uncompressed_data (d : bytes) : M unit := fun self =>
  (OK tt, mkSnappy (compressed_data self) d (uncompressed_length self) (index self)).

Definition _uncompress_literal : M unit :=
  data ← get compressed_data;
  i ← get index;
  c ← lift (getitem data i);
  let length := Z.shiftr (b2z c) 2 in
  set_index (i + 1);;
  length ← (if 60 <=? length then
              let bc := length - 59 in
              i ← get index;
              set_index (i + bc);;
              mret (int_from_bytes (slice data i (i + bc)) false)
            else mret length);
  let length := length + 1 in
  i ← get index;
  out ← get uncompressed_data;
  set_uncompressed_data (out ++ slice data i (i + length));;
  set_index (i + length).

(** [for i in range(length): out.append(out[k + i])], [n] rounds to go. *)
Fixpoint copy_bytes (n : nat) (k i : Z) : M unit :=
  match n with
  | O => mret tt
  | S n' =>
      out ← get uncompressed_data;
      b ← lift (getitem out (k + i));
      set_uncompressed_data (out ++ [b]);;
      copy_bytes n' k (i + 1)
  end.

Definition _uncompress_copy : M unit :=
  data ← get compressed_data;
  i ← get index;
  c ← lift (getitem data i);
  let tag := b2z c in
  set_index (i + 1);;
  i ← get index;
  '(length, offset) ←
    (if Z.land tag 3 =? 1 then
       let length := Z.shiftr (Z.land tag 28) 2 + 4 in
       let offset := Z.shiftl (Z.land tag 224) 3 in
       c1 ← lift (getitem data i);
       set_index (i + 1);;
       mret (length, Z.lor offset (b2z c1))
     else if Z.land tag 3 =? 2 then
       set_index (i + 2);;
       mret (Z.shiftr tag 2 + 1, int_from_bytes (slice data i (i + 2)) false)
     else if Z.land tag 3 =? 3 then
       set_index (i + 4);;
       mret (Z.shiftr tag 2 + 1, int_from_bytes (slice data i (i + 4)) false)
     else lift (Raise ValueError));
  out ← get uncompressed_data;
  let k := len out - offset in
  copy_bytes (Z.to_nat length) k 0.

(** One round of the [while] of [_uncompress_till]. *)
Definition chunk : M unit :=
  data ← get compressed_data;
  i ← get index;
  c ← lift (getitem data i);
  if Z.land (b2z c) 3 =? 0 then _uncompress_literal else _uncompress_copy.

(** The loop condition of [_uncompress_till]. *)
Definition more (upto : Z) (self : SnappyDecompress) : bool :=
  (index self <? len (compressed_data self)) && (len (uncompressed_data self) <? upto).

(** The [while] loop, at most [fuel] rounds. *)
Fixpoint till_loop (fuel : nat) (upto : Z) : M unit :=
  match fuel with
  | O => mret tt
  | S fuel' =>
      go ← get (more upto);
      if go : bool then chunk;; till_loop fuel' upto else mret tt
  end.

(** Every round moves [index] forward by at least one byte and the loop
    needs [index < len(compressed_data)], so that many rounds are enough
    ([till_loop_fuel] below). *)
Definition _uncompress_till (upto : Z) : M unit := fun self =>
  till_loop (Z.to_nat (len (compressed_data self) - index self)) upto self.

(** What [self[item]] returns: one byte as an [int], or a [bytearray]. *)
Inductive item : Set :=
| Elem (v : Z)
| Bytes (bs : bytes).

Definition __getitem__ (it : subscript) : M item :=
  match it with
  | Int i =>
      _uncompress_till i;;
      out ← get uncompressed_data;
      b ← lift (getitem out i);
      mret (Elem (b2z b))
  | Sl s =>
      n ← get uncompressed_length;
      '(a, b, st) ← lift (slice_indices s n);
      _uncompress_till (Z.max a b);;
      out ← get uncompressed_data;
      bs ← lift (getslice out (Slice (Some a) (Some b) (Some st)));
      mret (Bytes bs)
  end.

(** [self[a:b]] *)
Definition getrange (a b : Z) : M item :=
  __getitem__ (Sl (Slice (Some a) (Some b) None)).

(** [self[:]] *)
Definition getall : M item :=
  __getitem__ (Sl (Slice None None None)).

End Snappy.

Export Snappy.

(** The bytes [data[start]], [data[start+1]], ... in the order in which a
    loop that indexes upwards from [start] reads them, until the index
    runs off the end: a negative [start] counts from the end and the walk
    then goes on through index 0. *)
Definition bytes_from (data : bytes) (start : Z) : bytes :=
  if start <? - len data then []
  else if start <? 0 then drop (Z.to_nat (start + len data)) data ++ data
  else drop (Z.to_nat start) data.

(* ===================================================================== *)
(** * The archive packager, [tc_extract_arch.py]                          *)
(* ===================================================================== *)

Module Packager.

(** The [while] of [read_varint] over the bytes still ahead:
    [out <<= 7; out |= data[i] & 0x7f]. *)
Fixpoint read_varint_loop (ahead : bytes) (out i : Z) : result (Z * Z) :=
  match ahead with
  | [] => Raise IndexError
  | b :: ahead' =>
      let out := Z.shiftl out 7 in
      let out := Z.lor out (Z.land (b2z b) 127) in
      let last := b2z b in
      let i := i + 1 in
      if Z.land last 128 =? 0 then OK (out, i)
      else read_varint_loop ahead' out i
  end.

Definition read_varint (data : bytes) (start : Z) : result (Z * Z) :=
  read_varint_loop (bytes_from data start) 0 start.

(** [SnappyDecompress(compressed, base)] *)
Definition __init__ (compressed : bytes) (base : Z) : result SnappyDecompress :=
  '(n, i) ← read_varint compressed base;
  OK (mkSnappy compressed [] n i).

(** [content[a:b]], which is a [bytearray]. *)
Definition content_slice (a b : Z) : M bytes :=
  it ← getrange a b;
  match it with
  | Bytes bs => mret bs
  | Elem _ => lift (Raise TypeError)
  end.

(** [version in {6, 7, 8, 9, 10}] *)
Definition version_ok (version : Z) : bool :=
  bool_decide (version ∈ [6; 7; 8; 9; 10]).

Definition get_sch_id (version : Z) : M Z :=
  if negb (version_ok version) then lift (Raise AssertionError)
  else
    b ← content_slice 0 8;
    mret (int_from_bytes b false).

(** The list comprehension of [extract_info]:
    [[int.from_bytes(content[i + j * 8:i + (j + 1) * 8], 'little')
      for j in range(dependency_count)]], from [j] on, [n] items to go. *)
Fixpoint read_dependencies (n : nat) (i j : Z) : M (list Z) :=
  match n with
  | O => mret []
  | S n' =>
      b ← content_slice (i + j * 8) (i + (j + 1) * 8);
      r ← read_dependencies n' i (j + 1);
      mret (int_from_bytes b false :: r)
  end.

Definition extract_info (version : Z) : M (Z * (Z * Z) * list Z) :=
  if negb (version_ok version) then lift (Raise AssertionError)
  else
    let i := 0 in
    b ← content_slice i (i + 8);
    let schematic_id := int_from_bytes b false in
    let i := i + 8 in
    let i := i + 4 in
    b ← content_slice i (i + 8);
    let gate := int_from_bytes b false in
    let i := i + 8 in
    b ← content_slice i (i + 8);
    let delay := int_from_bytes b false in
    let i := i + 8 in
    let i := i + 1 in
    let i := if bool_decide (version ∈ [6]) then i + 4 else i + 8 in
    b ← content_slice i (i + 2);
    let dependency_count := int_from_bytes b false in
    let i := i + 2 in
    dependencies ← read_dependencies (Z.to_nat dependency_count) i 0;
    mret (schematic_id, (gate, delay), dependencies).

(** The catalog [ccs]: id to [(cc_name, path, (version, decompressor))].
    The decompressor is the object that [get_sch_id] has already read
    from; [extract_info] goes on from where it stopped. *)
Abbreviation catalog := (gmap Z (string * string * (Z * SnappyDecompress))).

(** [scan_component_factory], over the [circuit.data] files that [rglob]
    yields, each with its [cc_name], its path and its content. *)
Fixpoint scan_component_factory (found : list (string * string * bytes))
    (out : catalog) : result catalog :=
  match found with
  | [] => OK out
  | (cc_name, e, c) :: found' =>
      v ← getitem c 0;
      let v := b2z v in
      dc ← __init__ c 1;
      ccid ← fst (get_sch_id v dc);
      let dc := snd (get_sch_id v dc) in
      scan_component_factory found' (<[ccid := (cc_name, e, (v, dc))]> out)
  end.

(** [queue.pop()]: the last item, and the list without it. *)
Definition pop (queue : list Z) : option (list Z * Z) :=
  match last queue with
  | Some x => Some (take (length queue - 1)%nat queue, x)
  | None => None
  end.

(** The [while queue:] loop of [collect_files], at most [fuel] rounds. *)
Fixpoint closure (fuel : nat) (ccs : catalog) (queue : list Z)
    (to_extract : gset Z) : result (catalog * gset Z) :=
  match fuel with
  | O => OK (ccs, to_extract)
  | S fuel' =>
      match pop queue with
      | None => OK (ccs, to_extract)
      | Some (queue, ccid) =>
          if bool_decide (ccid ∈ to_extract) then closure fuel' ccs queue to_extract
          else
            let to_extract := {[ccid]} ∪ to_extract in
            match ccs !! ccid with
            | None => Raise ValueError
            | Some (cc_name, e, (v, dc)) =>
                let r := extract_info v dc in
                (* [dc] is an object of the catalog: it keeps what was read *)
                let ccs := <[ccid := (cc_name, e, (v, snd r))]> ccs in
                '(_, _, dependencies) ← fst r;
                if bool_decide (0 ∈ dependencies) then Raise AssertionError
                else closure fuel' ccs (queue ++ dependencies) to_extract
            end
      end
  end.

(** A new id is visited at most once per catalog entry and brings fewer
    than 65536 dependencies (the count is two bytes wide); every other
    round shortens the queue. *)
Definition closure_fuel (ccs : catalog) (queue : list Z) : nat :=
  Z.to_nat (65536 * Z.of_nat (size ccs) + len queue).

(** [for ccid in to_extract: name, path, _ = ccs[ccid]; out[name] = path] *)
Definition add_paths (ccs : catalog) (to_extract : gset Z)
    (out : gmap string string) : gmap string string :=
  foldr (fun ccid out =>
           match ccs !! ccid with
           | Some (cc_name, e, _) => <[cc_name := e]> out
           | None => out
           end) out (elements to_extract).

(** [collect_files(arch_name)]: [main] is the content of the
    architecture's [circuit.data] when that file exists, [found] what
    [rglob] yields under [component_factory]. *)
Definition collect_files (arch_name : string) (main : option bytes)
    (found : list (string * string * bytes))
  : result (gmap string string * Z * Z) :=
  match main with
  | None => Raise AssertionError
  | Some content =>
      let main_path :=
        ("schematics/architecture/" +:+ arch_name +:+ "/circuit.data")%string in
      let out : gmap string string := {[arch_name := main_path]} in
      ccs ← scan_component_factory found ∅;
      v ← getitem content 0;
      dc ← __init__ content 1;
      '(main_id, (gate, delay), dependencies) ← fst (extract_info (b2z v) dc);
      let queue := dependencies in
      '(ccs, to_extract) ← closure (closure_fuel ccs queue) ccs queue ∅;
      OK (add_paths ccs to_extract out, gate, delay)
  end.

End Packager.

(* ===================================================================== *)
(** * The field patcher, [tc_fix_rams.py]                                 *)
(* ===================================================================== *)

Module Patcher.

(** The [while] of [read_varint] over the bytes still ahead:
    [out |= (data[i] & 0x7f) << j; j += 7]. *)
Fixpoint read_varint_loop (ahead : bytes) (out j i : Z) : result (Z * Z) :=
  match ahead with
  | [] => Raise IndexError
  | b :: ahead' =>
      let out := Z.lor out (Z.shiftl (Z.land (b2z b) 127) j) in
      let j := j + 7 in
      let last := b2z b in
      let i := i + 1 in
      if Z.land last 128 =? 0 then OK (out, i)
      else read_varint_loop ahead' out j i
  end.

Definition read_varint (data : bytes) (start : Z) : result (Z * Z) :=
  read_varint_loop (bytes_from data start) 0 0 start.

(** The [while n > 0x7f] of [make_varint], at most [fuel] rounds, then the
    final [out.append(n)]. *)
Fixpoint make_varint_loop (fuel : nat) (n : Z) (out : bytes) : result bytes :=
  match fuel with
  | O => b ← byte_of_int n; OK (out ++ [b])
  | S fuel' =>
      if 127 <? n then
        b ← byte_of_int (Z.lor (Z.land n 127) 128);
        make_varint_loop fuel' (Z.shiftr n 7) (out ++ [b])
      else
        b ← byte_of_int n; OK (out ++ [b])
  end.

(** A round takes seven bits off [n], so [log2 n] rounds are more than
    enough ([make_varint_ok] below). *)
Definition make_varint (n : Z) : result bytes :=
  make_varint_loop (Z.to_nat (Z.log2 n)) n [].

(** [SnappyDecompress(compressed, base)] *)
Definition __init__ (compressed : bytes) (base : Z) : result SnappyDecompress :=
  '(n, i) ← read_varint compressed base;
  OK (mkSnappy compressed [] n i).

Definition snappy_encode (data : bytes) : result bytes :=
  if decide (data = []) then OK []
  else
    v ← make_varint (len data);
    t ← byte_of_int (Z.shiftl 63 2);
    l ← int_to_bytes (len data - 1) 4 false;
    OK (v ++ [t] ++ l ++ data).



(** ** The schema combinators *)

(** A field parser is a Python function [inner(data, i)] returning
    [(value, next_i)], with its inverse stored in the attribute
    [inner.unparse]; for a [Parser] class the pair is the classmethod
    [cls.parse] and the method [cls.unparse]. *)
Record codec (A : Type) : Type := Codec {
  inner : bytes → Z → result (A * Z);
  unparser : A → result bytes
}.
Arguments Codec {A} inner unparser.
Arguments inner {A} c data i.
Arguments unparser {A} c x.

(** [get_unparser(parser)] picks [parser.unparse] or
    [parser.__self__.unparse]: the second component here. *)
Definition get_unparser {A} (parser : codec A) : A → result bytes := unparser parser.

(** [with_note(f, data, i, note=...)] returns what [f(data, i)] returns (its
    [assert isinstance(i, int)] always holds) and re-raises what it raises
    after attaching the note; the notes are not modelled. *)
Definition with_note {A} (f : bytes → Z → result (A * Z)) (data : bytes) (i : Z)
  : result (A * Z) := f data i.

Definition U (n : Z) : codec Z :=
  Codec (fun data i => OK (int_from_bytes (slice data i (i + n)) false, i + n))
        (fun x => int_to_bytes x n false).

(** The loop of [seq]: [for j in range(length): e, i = f(data, i);
    out.append(e)], [n] rounds to go. *)
Fixpoint seq_loop {A} (f : bytes → Z → result (A * Z)) (data : bytes)
    (n : nat) (i : Z) (out : list A) : result (list A * Z) :=
  match n with
  | O => OK (out, i)
  | Datatypes.S n' =>
      '(e, i) ← with_note f data i;
      seq_loop f data n' i (out ++ [e])
  end.

Definition S (n : Z) : codec Z :=
  Codec (fun data i => OK (int_from_bytes (slice data i (i + n)) true, i + n))
        (fun x => int_to_bytes x n true).

Definition seq {A} (f : codec A) (l : codec Z) : codec (list A) :=
  Codec (fun data i =>
           '(length, i) ← with_note (inner l) data i;
           if length <? len data
           then seq_loop (inner f) data (Z.to_nat length) i []
           else Raise AssertionError)
        (fun x =>
           let f_un := get_unparser f in
           let l_un := get_unparser l in
           h ← l_un (len x);
           b ← join_map f_un x;
           OK (h ++ b)).

Definition pair {A B} (f : codec A) (g : codec B) : codec (A * B) :=
  Codec (fun data i =>
           '(a, i) ← with_note (inner f) data i;
           '(b, i) ← with_note (inner g) data i;
           OK ((a, b), i))
        (fun x =>
           a ← get_unparser f (fst x);
           b ← get_unparser g (snd x);
           OK (a ++ b)).

Definition string (l : codec Z) : codec str :=
  Codec (fun data i =>
           '(length, i) ← inner l data i;
           s ← utf8_decode (slice data i (i + length));
           OK (s, i + length))
        (fun x =>
           data ← utf8_encode x;
           h ← get_unparser l (len data);
           OK (h ++ data)).

Definition remainder : codec bytes :=
  Codec (fun data i => OK (slice_from data i, len data))
        (fun x => OK x).

(** ** The record classes

    [Parser.parse] walks [fields(cls)] in declaration order, skipping
    [raw] and any field whose ['if'] predicate is false on the fields
    parsed so far, and [Parser.unparse] walks them again; for each
    dataclass the walk is written out field by field. *)

Module Point.
Record t : Set := mk { raw : bytes; x : Z; y : Z }.

Definition parse (data : bytes) (i : Z) : result (t * Z) :=
  if len data <=? i then Raise ValueError
  else
    let start := i in
    '(x, i) ← with_note (inner (S 2)) data i;
    '(y, i) ← with_note (inner (S 2)) data i;
    OK (mk (slice data start i) x y, i).

Definition unparse (self : t) : result bytes :=
  b1 ← get_unparser (S 2) (x self);
  b2 ← get_unparser (S 2) (y self);
  OK (b1 ++ b2).

Definition codec : codec t := Codec parse unparse.

(** The [__eq__] of the dataclass compares all fields, [raw] included. *)
#[global] Instance eq_dec : EqDecision t.
Proof. solve_decision. Defined.
End Point.

Module LinkedComponent.
Record t : Set := mk {
  raw : bytes;
  permanent_id : Z;
  inner_id : Z;
  name : str;
  offset : Z
}.

Definition parse (data : bytes) (i : Z) : result (t * Z) :=
  if len data <=? i then Raise ValueError
  else
    let start := i in
    '(permanent_id, i) ← with_note (inner (S 8)) data i;
    '(inner_id, i) ← with_note (inner (S 8)) data i;
    '(name, i) ← with_note (inner (string (U 2))) data i;
    '(offset, i) ← with_note (inner (S 8)) data i;
    OK (mk (slice data start i) permanent_id inner_id name offset, i).

Definition unparse (self : t) : result bytes :=
  b1 ← get_unparser (S 8) (permanent_id self);
  b2 ← get_unparser (S 8) (inner_id self);
  b3 ← get_unparser (string (U 2)) (name self);
  b4 ← get_unparser (S 8) (offset self);
  OK (b1 ++ b2 ++ b3 ++ b4).

Definition codec : codec t := Codec parse unparse.

#[global] Instance eq_dec : EqDecision t.
Proof. solve_decision. Defined.
End LinkedComponent.

Module CustomCompData.
Record t : Set := mk {
  raw : bytes;
  custom_id : Z;
  static_states : list (Z * Z)
}.

Definition parse (data : bytes) (i : Z) : result (t * Z) :=
  if len data <=? i then Raise ValueError
  else
    let start := i in
    '(custom_id, i) ← with_note (inner (S 8)) data i;
    '(static_states, i) ← with_note (inner (seq (pair (S 8) (S 8)) (U 2))) data i;
    OK (mk (slice data start i) custom_id static_states, i).

Definition unparse (self : t) : result bytes :=
  b1 ← get_unparser (S 8) (custom_id self);
  b2 ← get_unparser (seq (pair (S 8) (S 8)) (U 2)) (static_states self);
  OK (b1 ++ b2).

Definition codec : codec t := Codec parse unparse.

#[global] Instance eq_dec : EqDecision t.
Proof. solve_decision. Defined.
End CustomCompData.

Module Component.
Record t : Set := mk {
  raw : bytes;
  component_kind : Z;
  position : Point.t;
  rotation : Z;
  permanent_id : Z;
  custom_string : str;
  settings : list Z;
  buffer_size : Z;
  ui_order : Z;
  word_size : Z;
  linked_components : list LinkedComponent.t;
  selected_programs : list (str * str);
  custom_data : option CustomCompData.t
}.

(** The ['if'] of [custom_data]: [lambda component_kind, **_:
    component_kind == 78]. *)
Definition custom_data_if (component_kind : Z) : bool := component_kind =? 78.

Definition parse (data : bytes) (i : Z) : result (t * Z) :=
  if len data <=? i then Raise ValueError
  else
    let start := i in
    '(component_kind, i) ← with_note (inner (U 2)) data i;
    '(position, i) ← with_note Point.parse data i;
    '(rotation, i) ← with_note (inner (U 1)) data i;
    '(permanent_id, i) ← with_note (inner (U 8)) data i;
    '(custom_string, i) ← with_note (inner (string (U 2))) data i;
    '(settings, i) ← with_note (inner (seq (U 8) (U 2))) data i;
    '(buffer_size, i) ← with_note (inner (S 8)) data i;
    '(ui_order, i) ← with_note (inner (S 2)) data i;
    '(word_size, i) ← with_note (inner (S 8)) data i;
    '(linked_components, i) ←
       with_note (inner (seq LinkedComponent.codec (U 2))) data i;
    '(selected_programs, i) ←
       with_note (inner (seq (pair (string (U 2)) (string (U 2))) (U 2))) data i;
    '(custom_data, i) ←
       (if custom_data_if component_kind
        then '(c, i) ← with_note CustomCompData.parse data i; OK (Some c, i)
        else OK (None, i));
    OK (mk (slice data start i) component_kind position rotation permanent_id
           custom_string settings buffer_size ui_order word_size
           linked_components selected_programs custom_data, i).

Definition unparse (self : t) : result bytes :=
  b1 ← get_unparser (U 2) (component_kind self);
  b2 ← get_unparser Point.codec (position self);
  b3 ← get_unparser (U 1) (rotation self);
  b4 ← get_unparser (U 8) (permanent_id self);
  b5 ← get_unparser (string (U 2)) (custom_string self);
  b6 ← get_unparser (seq (U 8) (U 2)) (settings self);
  b7 ← get_unparser (S 8) (buffer_size self);
  b8 ← get_unparser (S 2) (ui_order self);
  b9 ← get_unparser (S 8) (word_size self);
  b10 ← get_unparser (seq LinkedComponent.codec (U 2)) (linked_components self);
  b11 ← get_unparser (seq (pair (string (U 2)) (string (U 2))) (U 2))
          (selected_programs self);
  b12 ← (if custom_data_if (component_kind self)
         then match custom_data self with
              | Some c => get_unparser CustomCompData.codec c
              | None => Raise TypeError
              end
         else OK []);
  OK (b1 ++ b2 ++ b3 ++ b4 ++ b5 ++ b6 ++ b7 ++ b8 ++ b9 ++ b10 ++ b11 ++ b12).

Definition codec : codec t := Codec parse unparse.

(** [self.word_size = v] *)
Definition set_word_size (v : Z) (self : t) : t :=
  mk (raw self) (component_kind self) (position self) (rotation self)
     (permanent_id self) (custom_string self) (settings self)
     (buffer_size self) (ui_order self) v (linked_components self)
     (selected_programs self) (custom_data self).

#[global] Instance eq_dec : EqDecision t.
Proof. solve_decision. Defined.

#[global] Instance inhabited : Inhabited t :=
  populate (mk [] 0 (Point.mk [] 0 0) 0 0 [] [] 0 0 0 [] [] None).
End Component.

Module Schematic.
Record t : Set := mk {
  raw : bytes;
  custom_id : Z;
  hub_id : Z;
  gate : Z;
  delay : Z;
  menu_visible : Z;
  clock_speed : Z;
  dependencies : list Z;
  description : str;
  camera_position : Point.t;
  synced : Z;
  _dummy : Z;
  player_data : list Z;
  hub_description : str;
  components : list Component.t;
  wires : bytes
}.

Definition parse (data : bytes) (i : Z) : result (t * Z) :=
  if len data <=? i then Raise ValueError
  else
    let start := i in
    '(custom_id, i) ← with_note (inner (S 8)) data i;
    '(hub_id, i) ← with_note (inner (U 4)) data i;
    '(gate, i) ← with_note (inner (S 8)) data i;
    '(delay, i) ← with_note (inner (S 8)) data i;
    '(menu_visible, i) ← with_note (inner (U 1)) data i;
    '(clock_speed, i) ← with_note (inner (U 8)) data i;
    '(dependencies, i) ← with_note (inner (seq (S 8) (U 2))) data i;
    '(description, i) ← with_note (inner (string (U 2))) data i;
    '(camera_position, i) ← with_note Point.parse data i;
    '(synced, i) ← with_note (inner (U 1)) data i;
    '(_dummy, i) ← with_note (inner (U 2)) data i;
    '(player_data, i) ← with_note (inner (seq (U 8) (U 2))) data i;
    '(hub_description, i) ← with_note (inner (string (U 2))) data i;
    '(components, i) ← with_note (inner (seq Component.codec (S 8))) data i;
    '(wires, i) ← with_note (inner remainder) data i;
    OK (mk (slice data start i) custom_id hub_id gate delay menu_visible
           clock_speed dependencies description camera_position synced
           _dummy player_data hub_description components wires, i).

Definition unparse (self : t) : result bytes :=
  b1 ← get_unparser (S 8) (custom_id self);
  b2 ← get_unparser (U 4) (hub_id self);
  b3 ← get_unparser (S 8) (gate self);
  b4 ← get_unparser (S 8) (delay self);
  b5 ← get_unparser (U 1) (menu_visible self);
  b6 ← get_unparser (U 8) (clock_speed self);
  b7 ← get_unparser (seq (S 8) (U 2)) (dependencies self);
  b8 ← get_unparser (string (U 2)) (description self);
  b9 ← get_unparser Point.codec (camera_position self);
  b10 ← get_unparser (U 1) (synced self);
  b11 ← get_unparser (U 2) (_dummy self);
  b12 ← get_unparser (seq (U 8) (U 2)) (player_data self);
  b13 ← get_unparser (string (U 2)) (hub_description self);
  b14 ← get_unparser (seq Component.codec (S 8)) (components self);
  b15 ← get_unparser remainder (wires self);
  OK (b1 ++ b2 ++ b3 ++ b4 ++ b5 ++ b6 ++ b7 ++ b8 ++ b9 ++ b10 ++ b11 ++ b12
      ++ b13 ++ b14 ++ b15).

Definition codec : codec t := Codec parse unparse.

(** The list [self.components] after it has been changed in place. *)
Definition set_components (cs : list Component.t) (self : t) : t :=
  mk (raw self) (custom_id self) (hub_id self) (gate self) (delay self)
     (menu_visible self) (clock_speed self) (dependencies self)
     (description self) (camera_position self) (synced self) (_dummy self)
     (player_data self) (hub_description self) cs (wires self).
End Schematic.


(** ** [main] *)

(** Lines 285-288: the version byte and the decompression of the whole
    body, [SnappyDecompress(content, 1)[:]]. *)
Definition decompress (content : bytes) : result bytes :=
  v ← getitem content 0;
  if negb (b2z v =? 10) then Raise ValueError
  else
    self ← __init__ content 1;
    it ← fst (getall self);
    match it with
    | Bytes dc => OK dc
    | Elem _ => Raise TypeError
    end.

(** Lines 283-290: the file content, decompressed and decoded. *)
Definition load (content : bytes) : result Schematic.t :=
  dc ← decompress content;
  '(res, _) ← Schematic.parse dc 0;
  OK res.

(** The [Component] objects that [Schematic.parse] created, by address.
    [res.components] and [ram_components] are lists of references to the
    same objects: an assignment to [reg_file.word_size] is seen through
    [res.components] too, and [list.remove] compares objects. *)
Abbreviation heap := (list Component.t).

(** [l.sort(key=key)], stable: one insertion, then the sort. *)
Fixpoint insert_by (key : nat → Z) (a : nat) (l : list nat) : list nat :=
  match l with
  | [] => [a]
  | b :: l' => if key a <=? key b then a :: b :: l' else b :: insert_by key a l'
  end.

Definition sort_by (key : nat → Z) (l : list nat) : list nat :=
  foldr (insert_by key) [] l.

(** [l.remove(x)]: drops the first item that is [x] or equals it
    ([__eq__] of the dataclass); [ValueError] when there is none. *)
Fixpoint list_remove (h : heap) (l : list nat) (x : nat) : result (list nat) :=
  match l with
  | [] => Raise ValueError
  | a :: l' =>
      if bool_decide (a = x) || bool_decide (h !!! a = h !!! x) then OK l'
      else r ← list_remove h l' x; OK (a :: r)
  end.

(** Lines 292-310, on the decoded tree. *)
Definition patch (res : Schematic.t) : result Schematic.t :=
  let h : heap := Schematic.components res in
  let components := List.seq 0 (length h) in
  let ram_components :=
    filter (fun a => Component.component_kind (h !!! a) = 118) components in
  if negb (len ram_components =? 2) then Raise ValueError
  else
    let ram_components :=
      sort_by (fun a => Component.buffer_size (h !!! a)) ram_components in
    match ram_components with
    | [reg_file; program] =>
        if negb (Component.buffer_size (h !!! reg_file) =? 256) then Raise ValueError
        else if negb (Component.buffer_size (h !!! program) =? 65536) then Raise ValueError
        else
          let h := <[reg_file := Component.set_word_size 16 (h !!! reg_file)]> h in
          let h := <[program := Component.set_word_size 32 (h !!! program)]> h in
          components ← list_remove h components reg_file;
          components ← list_remove h components program;
          let components := components ++ [reg_file] in
          let components := components ++ [program] in
          OK (Schematic.set_components ((fun a => h !!! a) <$> components) res)
    | _ => Raise ValueError
    end.

(** The files, by path. *)
Abbreviation files := (gmap String.string bytes).

(** [main]: [circuit_file] is the parsed command-line argument.  It
    returns the exception raised, if any, and the files as they are left. *)
Definition main (circuit_file : String.string) (fs : files) : result unit * files :=
  match fs !! circuit_file with
  | None => (Raise FileNotFoundError, fs)
  | Some content =>
      match res ← load content; patch res with
      | Raise e => (Raise e, fs)
      | OK res =>
          (* shutil.move(circuit_file, circuit_file + ".bak") *)
          let fs := <[(circuit_file +:+ ".bak")%string := content]> (delete circuit_file fs) in
          (* open(circuit_file, "wb"); f.write(b'\x0A') *)
          let fs := <[circuit_file := [x0a]]> fs in
          match b ← Schematic.unparse res; snappy_encode b with
          | Raise e => (Raise e, fs)
          | OK out => (OK tt, <[circuit_file := [x0a] ++ out]> fs)
          end
      end
  end.

End Patcher.

(* ===================================================================== *)
(** * Vocabulary of the statements                                        *)
(* ===================================================================== *)

(** The bytes of a list of integers of [range(256)]. *)
Definition bs (l : list Z) : bytes := map z2b l.

(** ** Varints *)

(** One varint: every byte but the last has its high bit set. *)
Fixpoint is_varint (e : bytes) : bool :=
  match e with
  | [] => false
  | [b] => b2z b <? 128
  | b :: e' => (128 <=? b2z b) && is_varint e'
  end.

(** The 7-bit groups of the bytes of a varint, in stream order. *)
Definition groups (e : bytes) : list Z := map (fun b => b2z b mod 128) e.

(** The number whose base-128 digits, least significant first, are [gs]. *)
Fixpoint le_value (gs : list Z) : Z :=
  match gs with
  | [] => 0
  | g :: gs' => g + 128 * le_value gs'
  end.

(** ** Compressed streams *)

(** The literal chunk that carries the payload [p]: with no length bytes
    the tag holds [len(p) - 1] (at most 59); with [lenbytes] (one to four
    bytes) the tag holds [59 + len(lenbytes)] and the bytes hold
    [len(p) - 1], least significant first. *)
Definition literal (lenbytes p : bytes) : bytes :=
  match lenbytes with
  | [] => z2b (4 * (len p - 1)) :: p
  | _ => z2b (4 * (59 + len lenbytes)) :: lenbytes ++ p
  end.

Definition literal_ok (lenbytes p : bytes) : bool :=
  match lenbytes with
  | [] => (1 <=? len p) && (len p <=? 60)
  | _ => (len lenbytes <=? 4) && (len p =? from_le lenbytes + 1)
  end.

(** A run of literal chunks, each given by its length bytes and payload,
    and the payload they carry together. *)
Definition literals (cs : list (bytes * bytes)) : bytes :=
  concat (map (fun c => literal c.1 c.2) cs).

Definition payload (cs : list (bytes * bytes)) : bytes := concat (map snd cs).




(** ** Requests to a decompressor *)

(** [s'] is a later state of the decompressor [s]: same stream and same
    declared length, the read position not before, the output extended. *)
Definition extends (s s' : SnappyDecompress) : Prop :=
  compressed_data s' = compressed_data s ∧
  uncompressed_length s' = uncompressed_length s ∧
  index s <= index s' ∧
  uncompressed_data s `prefix_of` uncompressed_data s'.

(** The decompressor after the requests [its], made one after another,
    whether they returned or raised. *)
Definition after (its : list subscript) (self : SnappyDecompress) : SnappyDecompress :=
  foldl (fun s it => snd (__getitem__ it s)) self its.

(** The decompressor after [n] more chunks have been decoded (or have
    failed to decode), as long as compressed input is left. *)
Fixpoint decoded (n : nat) (self : SnappyDecompress) : SnappyDecompress :=
  match n with
  | O => self
  | S n' =>
      if index self <? len (compressed_data self)
      then decoded n' (snd (chunk self))
      else self
  end.

(** The header does not under-declare: however many chunks are decoded,
    the output stays within the declared uncompressed length. *)
Definition consistent (self : SnappyDecompress) : Prop :=
  ∀ n, len (uncompressed_data (decoded n self)) <= uncompressed_length self.

(** ** Where a schematic buffer is delimited *)

(** The component count that a buffer declares and the offset at which
    its wire blob starts: the fields that precede [components] are walked
    as [Schematic.parse] walks them, then the count is read and the
    components are parsed. *)
Definition Schematic_layout (data : bytes) : result (Z * Z) :=
  let i := 0 in
  '(_, i) ← Patcher.inner (Patcher.S 8) data i;
  '(_, i) ← Patcher.inner (Patcher.U 4) data i;
  '(_, i) ← Patcher.inner (Patcher.S 8) data i;
  '(_, i) ← Patcher.inner (Patcher.S 8) data i;
  '(_, i) ← Patcher.inner (Patcher.U 1) data i;
  '(_, i) ← Patcher.inner (Patcher.U 8) data i;
  '(_, i) ← Patcher.inner (Patcher.seq (Patcher.S 8) (Patcher.U 2)) data i;
  '(_, i) ← Patcher.inner (Patcher.string (Patcher.U 2)) data i;
  '(_, i) ← Patcher.Point.parse data i;
  '(_, i) ← Patcher.inner (Patcher.U 1) data i;
  '(_, i) ← Patcher.inner (Patcher.U 2) data i;
  '(_, i) ← Patcher.inner (Patcher.seq (Patcher.U 8) (Patcher.U 2)) data i;
  '(_, i) ← Patcher.inner (Patcher.string (Patcher.U 2)) data i;
  '(count, _) ← Patcher.inner (Patcher.S 8) data i;
  '(_, k) ← Patcher.inner (Patcher.seq Patcher.Component.codec (Patcher.S 8)) data i;
  OK (count, k).

(** The buffer holds all it declares: the component count is not
    negative and the wire blob starts inside the buffer (or at its end),
    so that no field was read past the end. *)
Definition well_delimited (data : bytes) : bool :=
  match Schematic_layout data with
  | OK (count, k) => (0 <=? count) && (k <=? len data)
  | Raise _ => false
  end.

(** ** The RAM-like components of a schematic *)

Definition is_ram (c : Patcher.Component.t) : Prop :=
  Patcher.Component.component_kind c = 118.

#[global] Instance is_ram_dec c : Decision (is_ram c).
Proof. unfold is_ram. apply _. Defined.

Definition ram_components (res : Patcher.Schematic.t) : list Patcher.Component.t :=
  filter is_ram (Patcher.Schematic.components res).

Definition other_components (res : Patcher.Schematic.t) : list Patcher.Component.t :=
  filter (fun c => ¬ is_ram c) (Patcher.Schematic.components res).

(** The schematic has exactly two RAM-like components, one with a buffer
    of 256 and one with a buffer of 65536: [r] and [p], in either order. *)
Definition two_rams (res : Patcher.Schematic.t) (r p : Patcher.Component.t) : Prop :=
  (ram_components res = [r; p] ∨ ram_components res = [p; r]) ∧
  Patcher.Component.buffer_size r = 256 ∧
  Patcher.Component.buffer_size p = 65536.

(** The shape that [main] refuses: not exactly two RAM-like components, or
    two whose buffer sizes are not 256 and 65536. *)
Definition unexpected_shape (res : Patcher.Schematic.t) : Prop :=
  length (ram_components res) ≠ 2%nat ∨
  ∃ c1 c2, ram_components res = [c1; c2] ∧
    ¬ ((Patcher.Component.buffer_size c1 = 256 ∧ Patcher.Component.buffer_size c2 = 65536) ∨
       (Patcher.Component.buffer_size c1 = 65536 ∧ Patcher.Component.buffer_size c2 = 256)).

(** [c] is a component that [Component.parse] decoded from [data]
    without reading past its end. *)
Definition parsed_in (data : bytes) (c : Patcher.Component.t) : Prop :=
  ∃ i j, 0 <= i ∧ j <= len data ∧ Patcher.Component.parse data i = OK (c, j).

(** ** Example files *)

(** A component of kind 118 with the given buffer size and the word size
    8, everything else zero or empty; [size] is the eight bytes of the
    buffer size. *)
Definition ram_bytes (size : list Z) : list Z :=
  [118; 0] ++ repeat 0 4 ++ [0] ++ repeat 0 8 ++ [0; 0] ++ [0; 0] ++ size
  ++ [0; 0] ++ [8; 0; 0; 0; 0; 0; 0; 0] ++ [0; 0] ++ [0; 0].

(** A schematic with no dependency, empty strings, no player data, one
    component of kind 5 (so without [custom_data]) and three bytes of
    wires. *)
Definition one_component_schematic : bytes :=
  bs (repeat 0 52 ++ [1; 0; 0; 0; 0; 0; 0; 0] ++ [5; 0] ++ repeat 0 39 ++ [1; 2; 3]).

(** The same with two components of kind 118: the first with a buffer of
    65536, the second with a buffer of 256. *)
Definition two_ram_schematic : bytes :=
  bs (repeat 0 52 ++ [2; 0; 0; 0; 0; 0; 0; 0]
      ++ ram_bytes [0; 0; 1; 0; 0; 0; 0; 0] ++ ram_bytes [0; 1; 0; 0; 0; 0; 0; 0]
      ++ [1; 2; 3]).

(** A version-10 file: the version byte, the length varint and one
    literal chunk with one length byte (for a body of 61 to 127 bytes, or
    with the two-byte varint given). *)
Definition one_component_file : bytes :=
  bs [10; 104] ++ literal (bs [103]) one_component_schematic.

Definition two_ram_file : bytes :=
  bs [10; 145; 1] ++ literal (bs [144]) two_ram_schematic.

(** The start of a decompressed schematic as [extract_info] reads it: the
    id, the hub id, gate 7, delay 9, the visibility flag, the clock speed
    and the dependency ids (each id here fits one byte). *)
Definition schematic_prefix (id : Z) (deps : list Z) : list Z :=
  [id; 0; 0; 0; 0; 0; 0; 0] ++ repeat 0 4 ++ [7; 0; 0; 0; 0; 0; 0; 0]
  ++ [9; 0; 0; 0; 0; 0; 0; 0] ++ [1] ++ repeat 0 8
  ++ [Z.of_nat (length deps); 0]
  ++ concat (map (fun d => [d; 0; 0; 0; 0; 0; 0; 0]) deps).

(** A version-10 file holding that prefix in one literal chunk. *)
Definition prefix_file (id : Z) (deps : list Z) : bytes :=
  bs [10; Z.of_nat (length (schematic_prefix id deps))]
  ++ literal [] (bs (schematic_prefix id deps)).

(** ** Proof vocabulary *)

(** The value of the six high bits of a literal's tag byte. *)
Definition literal_field (lenbytes p : bytes) : Z :=
  match lenbytes with [] => len p - 1 | _ => 59 + len lenbytes end.

(** A codec is sound when every successful parse moves forward and, if it
    stayed inside the buffer, unparsing the value gives back the very
    bytes it was parsed from. *)
Class CodecOk {A} (c : Patcher.codec A) : Prop :=
  codec_ok : ∀ data i v j,
    0 <= i → Patcher.inner c data i = OK (v, j) →
    i <= j ∧ (j <= len data → Patcher.unparser c v = OK (slice data i j)).

(** The address list of the RAM-like components. *)
Definition ram_addrs (h : Patcher.heap) : list nat :=
  filter (fun a => Patcher.Component.component_kind (h !!! a) = 118)
    (List.seq 0 (length h)).

(** What is left to do in the closure loop: an id of the catalog not yet
    visited counts for 65536, an item of the queue for 1. *)
Definition closure_measure (ccs : Packager.catalog)
    (queue : list Z) (to_extract : gset Z) : Z :=
  65536 * Z.of_nat (size (dom ccs ∖ to_extract)) + len queue.

(** ** The history of a decompressor *)

(** Every request of [its], made one after another on [self], returned
    (none raised). *)
Fixpoint returned (its : list subscript) (self : SnappyDecompress) : Prop :=
  match its with
  | [] => True
  | it :: its' =>
      is_ok (fst (__getitem__ it self)) = true ∧ returned its' (snd (__getitem__ it self))
  end.

(** The next [n] chunks of [self] (those that [decoded n self] goes
    through) decode without raising. *)
Fixpoint clean (n : nat) (self : SnappyDecompress) : Prop :=
  match n with
  | O => True
  | S n' =>
      if index self <? len (compressed_data self)
      then fst (chunk self) = OK tt ∧ clean n' (snd (chunk self))
      else True
  end.

(** A slice request once [slice.indices] has given its bounds [a], [b]
    (and the step 1): the rest of [__getitem__]. *)
Definition ranged (a b : Z) : M item :=
  _uncompress_till (Z.max a b);;
  out ← get uncompressed_data;
  bs ← lift (getslice out (Slice (Some a) (Some b) (Some 1)));
  mret (Bytes bs).

(** Two states of one decompressor: both are reached from a state [o] by
    decoding chunks that did not raise. *)
Definition same_origin (s s' : SnappyDecompress) : Prop :=
  ∃ o n m, s = decoded n o ∧ clean n o ∧ s' = decoded m o ∧ clean m o.

(** ** The dependency closure *)

(** The id [id] has been visited as the loop of [collect_files] visits a
    component: the catalog [ccs] has a definition for it, [extract_info]
    reads a dependency list from that definition, 0 is not in the list,
    and every id of the list is in [te']. *)
Definition visited_ok (ccs : Packager.catalog) (te' : gset Z) (id : Z) : Prop :=
  ∃ name e v dc i gd deps,
    ccs !! id = Some (name, e, (v, dc)) ∧
    fst (Packager.extract_info v dc) = OK (i, gd, deps) ∧
    0 ∉ deps ∧ (∀ d, d ∈ deps → d ∈ te').

(** The ids that the dependency lists lead to from [queue], through
    definitions of the catalog [ccs] whose id is not in [te]. *)
Inductive reached (ccs : Packager.catalog) (te : gset Z) (queue : list Z) : Z → Prop :=
| reached_queue x : x ∈ queue → reached ccs te queue x
| reached_dep p name e v dc i gd deps d :
    reached ccs te queue p → p ∉ te →
    ccs !! p = Some (name, e, (v, dc)) →
    fst (Packager.extract_info v dc) = OK (i, gd, deps) →
    d ∈ deps →
    reached ccs te queue d.

(** ** One stream under two declared lengths *)

(** The decompressor [s] with the declared length [n] instead of its
    own: the two [read_varint] give the same stream different declared
    lengths. *)
Definition with_length (n : Z) (s : SnappyDecompress) : SnappyDecompress :=
  mkSnappy (compressed_data s) (uncompressed_data s) n (index s).

(** What [extract_info] returns, for a version other than 6, read off the
    decompressed bytes [d]: every field as an unsigned integer. *)
Definition header_fields (d : bytes) : Z * (Z * Z) * list Z :=
  (int_from_bytes (slice d 0 8) false,
   (int_from_bytes (slice d 12 20) false, int_from_bytes (slice d 20 28) false),
   (fun k : nat => int_from_bytes (slice d (39 + Z.of_nat k * 8) (39 + (Z.of_nat k + 1) * 8)) false)
     <$> seq 0 (Z.to_nat (int_from_bytes (slice d 37 39) false))).

(** ** A decoded tree and its re-encoding *)

(** [data] holds the bytes [b] at the offset [i]. *)
Definition placed (data : bytes) (i : Z) (b : bytes) : Prop :=
  ∃ pre rest, data = pre ++ b ++ rest ∧ i = len pre.

(** The bytes that [unparse] returns, or [raw] when it raises. *)
Definition refreshed (raw : bytes) (r : result bytes) : bytes :=
  match r with OK b => b | Raise _ => raw end.

(** A record with its [raw] field (and those of the records inside it)
    brought up to date with its other fields: what a parse of its
    encoding stores there. *)
Definition Point_refresh (p : Patcher.Point.t) : Patcher.Point.t :=
  Patcher.Point.mk (refreshed (Patcher.Point.raw p) (Patcher.Point.unparse p))
    (Patcher.Point.x p) (Patcher.Point.y p).

Definition LinkedComponent_refresh (c : Patcher.LinkedComponent.t)
  : Patcher.LinkedComponent.t :=
  Patcher.LinkedComponent.mk
    (refreshed (Patcher.LinkedComponent.raw c) (Patcher.LinkedComponent.unparse c))
    (Patcher.LinkedComponent.permanent_id c) (Patcher.LinkedComponent.inner_id c)
    (Patcher.LinkedComponent.name c) (Patcher.LinkedComponent.offset c).

Definition CustomCompData_refresh (c : Patcher.CustomCompData.t)
  : Patcher.CustomCompData.t :=
  Patcher.CustomCompData.mk
    (refreshed (Patcher.CustomCompData.raw c) (Patcher.CustomCompData.unparse c))
    (Patcher.CustomCompData.custom_id c) (Patcher.CustomCompData.static_states c).

(** A [custom_data] that the ['if'] of the field leaves out is not
    encoded, so it is not there after a parse. *)
Definition Component_refresh (c : Patcher.Component.t) : Patcher.Component.t :=
  Patcher.Component.mk
    (refreshed (Patcher.Component.raw c) (Patcher.Component.unparse c))
    (Patcher.Component.component_kind c)
    (Point_refresh (Patcher.Component.position c))
    (Patcher.Component.rotation c) (Patcher.Component.permanent_id c)
    (Patcher.Component.custom_string c) (Patcher.Component.settings c)
    (Patcher.Component.buffer_size c) (Patcher.Component.ui_order c)
    (Patcher.Component.word_size c)
    (LinkedComponent_refresh <$> Patcher.Component.linked_components c)
    (Patcher.Component.selected_programs c)
    (if Patcher.Component.custom_data_if (Patcher.Component.component_kind c)
     then CustomCompData_refresh <$> Patcher.Component.custom_data c
     else None).

Definition Schematic_refresh (s : Patcher.Schematic.t) : Patcher.Schematic.t :=
  Patcher.Schematic.mk
    (refreshed (Patcher.Schematic.raw s) (Patcher.Schematic.unparse s))
    (Patcher.Schematic.custom_id s) (Patcher.Schematic.hub_id s)
    (Patcher.Schematic.gate s) (Patcher.Schematic.delay s)
    (Patcher.Schematic.menu_visible s) (Patcher.Schematic.clock_speed s)
    (Patcher.Schematic.dependencies s) (Patcher.Schematic.description s)
    (Point_refresh (Patcher.Schematic.camera_position s))
    (Patcher.Schematic.synced s) (Patcher.Schematic._dummy s)
    (Patcher.Schematic.player_data s) (Patcher.Schematic.hub_description s)
    (Component_refresh <$> Patcher.Schematic.components s)
    (Patcher.Schematic.wires s).

(** A codec reads back what it has written: the bytes that [unparser]
    returns for [v] are not empty and, wherever they stand in a buffer,
    [inner] returns [norm v] from them and the offset after them. *)
Class CodecInv {A} (c : Patcher.codec A) (norm : A → A) : Prop :=
  codec_inv : ∀ v b data i,
    Patcher.unparser c v = OK b → placed data i b →
    1 <= len b ∧ Patcher.inner c data i = OK (norm v, i + len b).

(* ===================================================================== *)
(** * Facts about the Python built-ins                                    *)
(* ===================================================================== *)

Section bytes_facts.

Lemma bind_OK {A B} (a : A) (k : A → result B) : (OK a ≫= k) = k a.
Proof. done. Qed.

Lemma bind_Raise {A B} (e : exn) (k : A → result B) : (Raise e ≫= k) = Raise e.
Proof. done. Qed.

Lemma bind_OK_inv {A B} (m : result A) (k : A → result B) (b : B) :
  (m ≫= k) = OK b → ∃ a, m = OK a ∧ k a = OK b.
Proof. destruct m as [a|e]; [by exists a|done]. Qed.

Lemma b2z_range b : 0 <= b2z b < 256.
Proof. unfold b2z. pose proof (Byte.to_N_bounded b). lia. Qed.

Lemma z2b_b2z b : z2b (b2z b) = b.
Proof.
  unfold z2b. rewrite Z.mod_small by apply b2z_range.
  unfold b2z. by rewrite N2Z.id, Byte.of_to_N.
Qed.

Lemma b2z_z2b z : 0 <= z < 256 → b2z (z2b z) = z.
Proof.
  intros Hz. unfold z2b. rewrite Z.mod_small by done.
  destruct (Byte.of_N (Z.to_N z)) as [b|] eqn:E.
  - apply Byte.to_of_N in E. unfold b2z. rewrite E. lia.
  - apply Byte.of_N_None_iff in E. lia.
Qed.

Lemma b2z_inj a b : b2z a = b2z b → a = b.
Proof. intros E. rewrite <- (z2b_b2z a), <- (z2b_b2z b). by rewrite E. Qed.

Lemma len_nonneg {A} (l : list A) : 0 <= len l.
Proof. unfold len. lia. Qed.

Lemma len_app {A} (l k : list A) : len (l ++ k) = len l + len k.
Proof. unfold len. rewrite length_app. lia. Qed.

Lemma len_nil {A} : len (@nil A) = 0.
Proof. done. Qed.

Lemma len_cons {A} (a : A) l : len (a :: l) = 1 + len l.
Proof. unfold len. simpl. lia. Qed.

Lemma len_0_nil {A} (l : list A) : len l = 0 → l = [].
Proof. destruct l; [done|]. rewrite len_cons. pose proof (len_nonneg l). lia. Qed.

(** ** Slices *)

Lemma clamp_in n i : 0 <= i <= n → clamp n i = i.
Proof. intros. unfold clamp. destruct (Z.ltb_spec i 0); lia. Qed.

Lemma clamp_over n i : 0 <= n <= i → clamp n i = n.
Proof. intros. unfold clamp. destruct (Z.ltb_spec i 0); lia. Qed.

Lemma clamp_range n i : 0 <= n → 0 <= clamp n i <= n.
Proof. intros. unfold clamp. destruct (Z.ltb_spec i 0); lia. Qed.

Lemma slice_eq {A} (l : list A) i j :
  0 <= i → i <= j → j <= len l →
  slice l i j = take (Z.to_nat (j - i)) (drop (Z.to_nat i) l).
Proof. intros. unfold slice. by rewrite !clamp_in by lia. Qed.

Lemma len_slice {A} (l : list A) i j :
  0 <= i → i <= j → j <= len l → len (slice l i j) = j - i.
Proof.
  intros. rewrite slice_eq by done. unfold len in *.
  rewrite length_take, length_drop. lia.
Qed.

Lemma len_slice_le {A} (l : list A) i j :
  0 <= i → i <= j → len (slice l i j) <= j - i.
Proof.
  intros. unfold slice, len. rewrite length_take, length_drop.
  unfold clamp. fold (len l). pose proof (len_nonneg l).
  destruct (Z.ltb_spec i 0), (Z.ltb_spec j 0); lia.
Qed.

Lemma slice_app {A} (l : list A) i j k :
  0 <= i → i <= j → j <= k → k <= len l →
  slice l i j ++ slice l j k = slice l i k.
Proof.
  intros. rewrite !slice_eq by lia.
  replace (drop (Z.to_nat j) l)
    with (drop (Z.to_nat (j - i)) (drop (Z.to_nat i) l))
    by (rewrite drop_drop; f_equal; lia).
  rewrite take_take_drop. f_equal. lia.
Qed.

Lemma slice_app_tail {A} (l rest : list A) i j k :
  0 <= i → i <= j → j <= k → k <= len l →
  slice l i j ++ slice l j k ++ rest = slice l i k ++ rest.
Proof. intros. by rewrite app_assoc, slice_app. Qed.

Lemma slice_nil {A} (l : list A) i : slice l i i = [].
Proof. unfold slice. by rewrite Z.sub_diag. Qed.

Lemma slice_all {A} (l : list A) : slice l 0 (len l) = l.
Proof.
  rewrite slice_eq by (pose proof (len_nonneg l); lia).
  simpl. rewrite Z.sub_0_r. unfold len. rewrite Nat2Z.id. apply firstn_all.
Qed.

Lemma slice_from_eq {A} (l : list A) i :
  0 <= i <= len l → slice_from l i = drop (Z.to_nat i) l.
Proof. intros. unfold slice_from. by rewrite clamp_in. Qed.

Lemma slice_slice_from {A} (l : list A) i j :
  0 <= i → i <= j → j <= len l → slice l i j ++ slice_from l j = slice_from l i.
Proof.
  intros. rewrite slice_eq, !slice_from_eq by lia.
  replace (drop (Z.to_nat j) l) with (drop (Z.to_nat (j - i)) (drop (Z.to_nat i) l)).
  - apply take_drop.
  - rewrite drop_drop. f_equal. lia.
Qed.

Lemma slice_from_0 {A} (l : list A) : slice_from l 0 = l.
Proof. rewrite slice_from_eq; [done|]. pose proof (len_nonneg l). lia. Qed.

Lemma slice_app_l {A} (l k : list A) i j :
  0 <= i → i <= j → j <= len l → slice (l ++ k) i j = slice l i j.
Proof.
  intros. rewrite !slice_eq by (rewrite ?len_app; pose proof (len_nonneg k); lia).
  rewrite drop_app_le by (unfold len in *; lia).
  rewrite take_app_le; [done|]. rewrite length_drop. unfold len in *. lia.
Qed.

Lemma slice_app_r {A} (l k : list A) i j :
  len l <= i → i <= j →
  slice (l ++ k) i j = slice k (i - len l) (j - len l).
Proof.
  intros. pose proof (len_nonneg l). pose proof (len_nonneg k).
  unfold slice. rewrite len_app.
  unfold clamp.
  destruct (Z.ltb_spec i 0), (Z.ltb_spec j 0), (Z.ltb_spec (i - len l) 0),
    (Z.ltb_spec (j - len l) 0); try lia.
  rewrite drop_app_ge by (unfold len in *; lia).
  f_equal; [lia|]. f_equal. unfold len in *. lia.
Qed.

Lemma getitem_lookup {A} (l : list A) i x :
  0 <= i → l !! Z.to_nat i = Some x → getitem l i = OK x.
Proof.
  intros Hi Hx. unfold getitem.
  destruct (Z.ltb_spec i 0); [lia|]. destruct (Z.ltb_spec i 0); [lia|].
  by rewrite Hx.
Qed.


Lemma getitem_app_mid {A} (l k : list A) x : getitem (l ++ x :: k) (len l) = OK x.
Proof.
  apply getitem_lookup; [apply len_nonneg|].
  unfold len. rewrite Nat2Z.id. by rewrite list_lookup_middle.
Qed.

Lemma getitem_ok_inv {A} (l : list A) i x :
  getitem l i = OK x → - len l <= i < len l.
Proof.
  unfold getitem. intros H.
  destruct (Z.ltb_spec i 0) as [Hi|Hi];
    (match type of H with context [?a <? 0] => destruct (Z.ltb_spec a 0) end;
     [done|]);
    (match type of H with context [l !! ?k] => destruct (l !! k) eqn:E end;
     [|done]);
    apply lookup_lt_Some in E; unfold len in *; lia.
Qed.

Lemma getitem_out {A} (l : list A) i :
  i < - len l ∨ len l <= i → getitem l i = Raise IndexError.
Proof.
  intros H. unfold getitem. pose proof (len_nonneg l).
  destruct (Z.ltb_spec i 0) as [Hi|Hi];
    (match goal with |- context [?a <? 0] => destruct (Z.ltb_spec a 0) end;
     [done|]).
  - lia.
  - rewrite lookup_ge_None_2; [done|]. unfold len in *. lia.
Qed.

Lemma slice_middle {A} (pre mid post : list A) :
  slice (pre ++ mid ++ post) (len pre) (len pre + len mid) = mid.
Proof.
  pose proof (len_nonneg pre). pose proof (len_nonneg mid).
  rewrite slice_app_r by lia.
  replace (len pre - len pre) with 0 by lia.
  replace (len pre + len mid - len pre) with (len mid) by lia.
  rewrite slice_app_l by lia. apply slice_all.
Qed.

(** ** Integers and bytes *)

Lemma from_le_nonneg bs : 0 <= from_le bs.
Proof. induction bs as [|b bs IH]; simpl; [done|]. pose proof (b2z_range b). lia. Qed.

Lemma from_le_bound bs : from_le bs < 2 ^ (8 * len bs).
Proof.
  induction bs as [|b bs IH]; [done|]. cbn [from_le].
  pose proof (b2z_range b). pose proof (len_nonneg bs).
  rewrite len_cons. replace (8 * (1 + len bs)) with (8 + 8 * len bs) by lia.
  rewrite Z.pow_add_r by lia. change (2 ^ 8) with 256. lia.
Qed.

Lemma length_to_le n : ∀ x, length (to_le n x) = n.
Proof. induction n as [|n IH]; intros x; [done|]. cbn. by rewrite IH. Qed.

Lemma len_to_le n x : len (to_le n x) = Z.of_nat n.
Proof. unfold len. by rewrite length_to_le. Qed.

Lemma from_le_to_le n : ∀ x,
  0 <= x < 2 ^ (8 * Z.of_nat n) → from_le (to_le n x) = x.
Proof.
  induction n as [|n IH]; intros x Hx.
  - cbn in *. lia.
  - cbn [to_le from_le].
    replace (8 * Z.of_nat (S n)) with (8 + 8 * Z.of_nat n) in Hx by lia.
    rewrite Z.pow_add_r in Hx by lia. change (2 ^ 8) with 256 in Hx.
    rewrite b2z_z2b by (apply Z.mod_pos_bound; lia).
    rewrite IH.
    + pose proof (Z.div_mod x 256). lia.
    + split; [apply Z.div_pos; lia|]. apply Z.div_lt_upper_bound; lia.
Qed.

Lemma to_le_from_le bs : to_le (length bs) (from_le bs) = bs.
Proof.
  induction bs as [|b bs IH]; [done|]. cbn [length to_le from_le].
  pose proof (b2z_range b).
  replace ((b2z b + 256 * from_le bs) mod 256) with (b2z b).
  - replace ((b2z b + 256 * from_le bs) / 256) with (from_le bs).
    + by rewrite IH, z2b_b2z.
    + symmetry. rewrite Z.mul_comm, Z.div_add by lia. rewrite Z.div_small; lia.
  - symmetry. rewrite Z.mul_comm, Z.mod_add by lia. apply Z.mod_small. lia.
Qed.

End bytes_facts.

(* ===================================================================== *)
(** * The two varint readers                                              *)
(* ===================================================================== *)

Section varint.

Lemma lor_disjoint a g j :
  0 <= j → 0 <= a < 2 ^ j → 0 <= g → Z.lor a (Z.shiftl g j) = a + g * 2 ^ j.
Proof.
  intros Hj Ha Hg. rewrite Z.shiftl_mul_pow2 by done.
  rewrite <- Z.add_lor_land.
  assert (Z.land a (g * 2 ^ j) = 0) as ->; [|lia].
  apply Z.bits_inj'. intros n Hn. rewrite Z.land_spec, Z.bits_0.
  destruct (Z.lt_ge_cases n j).
  - rewrite Z.mul_pow2_bits_low by done. apply andb_false_r.
  - destruct (Z.eq_dec a 0) as [->|]; [by rewrite Z.bits_0|].
    rewrite Z.bits_above_log2; [done|lia|].
    apply Z.log2_lt_pow2; [lia|].
    eapply Z.lt_le_trans; [apply Ha|]. apply Z.pow_le_mono_r; lia.
Qed.

Lemma lor_shift7 a g : 0 <= a → 0 <= g < 128 → Z.lor (Z.shiftl a 7) g = a * 128 + g.
Proof.
  intros. rewrite Z.lor_comm, (lor_disjoint g a 7); lia.
Qed.

Lemma low7 b : Z.land (b2z b) 127 = b2z b mod 128.
Proof. by destruct b. Qed.

Lemma high_bit b : (Z.land (b2z b) 128 =? 0) = (b2z b <? 128).
Proof. by destruct b. Qed.

Lemma groups_range e : Forall (fun g => 0 <= g < 128) (groups e).
Proof.
  unfold groups. induction e as [|b e IH]; constructor; [|done].
  apply Z.mod_pos_bound. lia.
Qed.

Lemma le_value_nonneg gs : Forall (fun g => 0 <= g < 128) gs → 0 <= le_value gs.
Proof. induction 1; simpl; lia. Qed.

Lemma le_value_bound gs :
  Forall (fun g => 0 <= g < 128) gs → le_value gs < 128 ^ len gs.
Proof.
  induction 1 as [|g gs Hg _ IH]; simpl; [done|].
  pose proof (len_nonneg gs).
  rewrite len_cons. rewrite Z.pow_add_r by lia. lia.
Qed.

Lemma le_value_app gs hs :
  le_value (gs ++ hs) = le_value gs + 128 ^ len gs * le_value hs.
Proof.
  induction gs as [|g gs IH]; simpl; [change (len (@nil Z)) with 0; lia|].
  pose proof (len_nonneg gs).
  rewrite IH, len_cons. rewrite Z.pow_add_r by lia. lia.
Qed.

(** Base-128 digits determine the list of digits. *)
Lemma le_value_inj gs hs :
  Forall (fun g => 0 <= g < 128) gs → Forall (fun g => 0 <= g < 128) hs →
  length gs = length hs → le_value gs = le_value hs → gs = hs.
Proof.
  intros Hgs. revert hs. induction Hgs as [|g gs Hg _ IH]; intros hs Hhs Hl E.
  - by destruct hs.
  - destruct Hhs as [|h hs Hh Hhs]; [done|]. simpl in *.
    assert (g = h) as -> by lia. f_equal. apply IH; [done|lia|lia].
Qed.

(** What the patcher's loop computes on a varint: the groups weigh
    [128 ^ k] in stream order. *)
Lemma patcher_loop e : ∀ rest out j i,
  is_varint e = true → 0 <= j → 0 <= out < 2 ^ j →
  Patcher.read_varint_loop (e ++ rest) out j i
  = OK (out + 2 ^ j * le_value (groups e), i + len e).
Proof.
  induction e as [|b e IH]; intros rest out j i He Hj Hout; [done|].
  pose proof (b2z_range b) as Hb.
  assert (0 <= b2z b mod 128 < 128) as Hg by (apply Z.mod_pos_bound; lia).
  simpl app. simpl Patcher.read_varint_loop. rewrite high_bit, low7.
  rewrite lor_disjoint by lia.
  destruct e as [|b' e].
  - simpl in He. rewrite He. unfold len. simpl. do 2 f_equal; lia.
  - remember (b' :: e) as e'. simpl in He. subst e'.
    apply andb_true_iff in He as [Hhi He]. apply Z.leb_le in Hhi.
    destruct (Z.ltb_spec (b2z b) 128); [lia|].
    rewrite IH; [|done|lia|].
    + cbn [groups map le_value]. fold (groups (b' :: e)).
      rewrite Z.pow_add_r by lia. change (2 ^ 7) with 128.
      rewrite (len_cons b). do 2 f_equal; [ring|lia].
    + rewrite Z.pow_add_r by lia. change (2 ^ 7) with 128. nia.
Qed.

(** What the packager's loop computes: every new group pushes the
    earlier ones up, so the groups weigh [128 ^ k] in reverse order. *)
Lemma packager_loop e : ∀ rest out i,
  is_varint e = true → 0 <= out →
  Packager.read_varint_loop (e ++ rest) out i
  = OK (out * 128 ^ len e + le_value (rev (groups e)), i + len e).
Proof.
  induction e as [|b e IH]; intros rest out i He Hout; [done|].
  pose proof (b2z_range b) as Hb.
  assert (0 <= b2z b mod 128 < 128) as Hg by (apply Z.mod_pos_bound; lia).
  simpl app. simpl Packager.read_varint_loop. rewrite high_bit, low7.
  rewrite lor_shift7 by lia.
  destruct e as [|b' e].
  - simpl in He. rewrite He. unfold len. simpl. do 2 f_equal; lia.
  - remember (b' :: e) as e'. simpl in He. subst e'.
    apply andb_true_iff in He as [Hhi He]. apply Z.leb_le in Hhi.
    destruct (Z.ltb_spec (b2z b) 128); [lia|].
    rewrite IH by (done || lia).
    pose proof (len_nonneg (b' :: e)).
    assert (len (rev (groups (b' :: e))) = len (b' :: e)) as Hl.
    { unfold len, groups. by rewrite length_rev, length_map. }
    rewrite (len_cons b).
    change (groups (b :: b' :: e)) with (b2z b mod 128 :: groups (b' :: e)).
    change (rev (?x :: ?l)) with (rev l ++ [x]).
    rewrite le_value_app, Hl. cbn [le_value].
    rewrite (Z.add_comm 1), Z.pow_add_r by lia. change (128 ^ 1) with 128.
    do 2 f_equal; [ring|lia].
Qed.

Lemma bytes_from_0 data : bytes_from data 0 = data.
Proof.
  unfold bytes_from. pose proof (len_nonneg data).
  destruct (Z.ltb_spec 0 (- len data)); [lia|]. done.
Qed.

End varint.

(** C5 (amended).  On a multi-byte varint (two or more bytes, all but the
    last with the high bit set) both readers succeed and consume the same
    bytes; the packager's reader (shift the total left, OR the new group in
    at the low end) and the patcher's reader (OR the new group in at an
    increasing shift) return different values exactly when the sequence
    of 7-bit groups is not a palindrome, and the same value when it is. *)
Theorem varint_readers_differ_iff_not_palindrome (e rest : bytes) :
  is_varint e = true → (2 <= length e)%nat →
  ∃ v_packager v_patcher,
    Packager.read_varint (e ++ rest) 0 = OK (v_packager, len e) ∧
    Patcher.read_varint (e ++ rest) 0 = OK (v_patcher, len e) ∧
    (v_packager ≠ v_patcher ↔ groups e ≠ rev (groups e)).
Proof.
  intros He _.
  exists (le_value (rev (groups e))), (le_value (groups e)).
  unfold Packager.read_varint, Patcher.read_varint. rewrite bytes_from_0.
  rewrite packager_loop, patcher_loop by (done || lia).
  repeat split; try (do 2 f_equal; lia).
  - intros Hne E. apply Hne. by rewrite <- E.
  - intros Hne E. apply Hne. symmetry.
    apply le_value_inj; [| |by rewrite length_rev|done].
    + apply Forall_rev, groups_range.
    + apply groups_range.
Qed.

Lemma varint_readers_differ_witness :
  ∃ v_packager v_patcher,
    Packager.read_varint (bs [128; 1] ++ []) 0 = OK (v_packager, len (bs [128; 1])) ∧
    Patcher.read_varint (bs [128; 1] ++ []) 0 = OK (v_patcher, len (bs [128; 1])) ∧
    (v_packager ≠ v_patcher ↔ groups (bs [128; 1]) ≠ rev (groups (bs [128; 1]))).
Proof.
  apply (varint_readers_differ_iff_not_palindrome (bs [128; 1]) []);
    [reflexivity | simpl; lia].
Defined.

(** The two-byte varint [81 01] has the groups 1, 1: both readers return
    129 on it. *)
Lemma varint_readers_agree_on_81_01 :
  is_varint (bs [129; 1]) = true ∧ length (bs [129; 1]) = 2%nat ∧
  Packager.read_varint (bs [129; 1]) 0 = OK (129, 2) ∧
  Patcher.read_varint (bs [129; 1]) 0 = OK (129, 2).
Proof. repeat split. Qed.

(* ===================================================================== *)
(** * The lazy decompressor                                               *)
(* ===================================================================== *)

Ltac unfold_M :=
  unfold mbind, M_bind, mret, M_ret, lift, get, set_index,
    set_uncompressed_data in *; cbn [fst snd] in *.

Section decompressor_invariants.

#[local] Instance extends_refl : Reflexive extends.
Proof. intros s. by repeat split. Qed.

#[local] Instance extends_trans : Transitive extends.
Proof.
  intros s1 s2 s3 (?&?&?&?) (?&?&?&?). repeat split; try congruence; try lia.
  by etrans.
Qed.

Lemma extends_len s s' :
  extends s s' → len (uncompressed_data s) <= len (uncompressed_data s').
Proof. intros (_&_&_&H). apply prefix_length in H. unfold len. lia. Qed.

Lemma shiftr2 b : Z.shiftr (b2z b) 2 = b2z b / 4.
Proof. by rewrite Z.shiftr_div_pow2. Qed.

(** [_uncompress_literal] keeps the stream, extends the output and, when
    it returns, has moved the read position forward. *)
Lemma literal_extends self :
  extends self (snd (_uncompress_literal self)) ∧
  (fst (_uncompress_literal self) = OK tt →
   index self < index (snd (_uncompress_literal self))).
Proof.
  unfold _uncompress_literal. unfold_M.
  destruct (getitem _ _) as [c|e]; cbn; [|split; [reflexivity|done]].
  pose proof (b2z_range c). rewrite shiftr2.
  destruct (Z.leb_spec 60 (b2z c / 4)); cbn.
  - match goal with |- context [from_le ?b] =>
      pose proof (from_le_nonneg b) as Hn end.
    repeat split; cbn; try lia. by apply prefix_app_r.
  - assert (0 <= b2z c / 4) by (apply Z.div_pos; lia).
    repeat split; cbn; try lia. by apply prefix_app_r.
Qed.

Lemma copy_bytes_extends n : ∀ k i self,
  extends self (snd (copy_bytes n k i self)) ∧
  index (snd (copy_bytes n k i self)) = index self.
Proof.
  induction n as [|n IH]; intros k i self; [by split|].
  cbn [copy_bytes]. unfold_M.
  destruct (getitem _ _) as [b|e]; cbn; [|by split].
  match goal with |- context [copy_bytes n k ?i' ?s] =>
    destruct (IH k i' s) as [(E1&E2&E3&E4) E5] end.
  cbn in *. repeat split; try congruence; try lia.
  etrans; [|exact E4]. by apply prefix_app_r.
Qed.

Lemma copy_extends self :
  extends self (snd (_uncompress_copy self)) ∧
  (fst (_uncompress_copy self) = OK tt →
   index self < index (snd (_uncompress_copy self))).
Proof.
  unfold _uncompress_copy. unfold_M.
  destruct (getitem _ _) as [c|e]; cbn; [|split; [reflexivity|done]].
  destruct (Z.land (b2z c) 3 =? 1); [|destruct (Z.land (b2z c) 3 =? 2);
    [|destruct (Z.land (b2z c) 3 =? 3)]]; cbn.
  - destruct (getitem _ _) as [c1|e]; cbn.
    + match goal with |- context [copy_bytes ?n ?k ?i ?s] =>
        destruct (copy_bytes_extends n k i s) as [(E1&E2&E3&E4) E5] end.
      cbn in *. repeat split; try congruence; lia.
    + repeat split; cbn; try done; lia.
  - match goal with |- context [copy_bytes ?n ?k ?i ?s] =>
      destruct (copy_bytes_extends n k i s) as [(E1&E2&E3&E4) E5] end.
    cbn in *. repeat split; try congruence; lia.
  - match goal with |- context [copy_bytes ?n ?k ?i ?s] =>
      destruct (copy_bytes_extends n k i s) as [(E1&E2&E3&E4) E5] end.
    cbn in *. repeat split; try congruence; lia.
  - repeat split; cbn; try done; lia.
Qed.

Lemma chunk_extends self :
  extends self (snd (chunk self)) ∧
  (fst (chunk self) = OK tt → index self < index (snd (chunk self))).
Proof.
  unfold chunk. unfold_M.
  destruct (getitem _ _) as [c|e]; cbn; [|split; [reflexivity|done]].
  destruct (Z.land (b2z c) 3 =? 0); [apply literal_extends|apply copy_extends].
Qed.

Lemma till_loop_extends fuel : ∀ upto self,
  extends self (snd (till_loop fuel upto self)).
Proof.
  induction fuel as [|fuel IH]; intros upto self; [reflexivity|].
  cbn [till_loop]. unfold_M.
  destruct (more upto self); [|reflexivity].
  destruct (chunk_extends self) as [E _].
  destruct (chunk self) as [[[]|e] self']; cbn in *; [|done].
  etrans; [exact E|apply IH].
Qed.

(** The loop of [_uncompress_till] is over before its fuel is: more fuel
    changes nothing. *)
Lemma till_loop_fuel fuel : ∀ upto self extra,
  (Z.to_nat (len (compressed_data self) - index self) <= fuel)%nat →
  till_loop (fuel + extra) upto self = till_loop fuel upto self.
Proof.
  induction fuel as [|fuel IH]; intros upto self extra Hf.
  - destruct extra as [|extra]; [done|]. cbn [Nat.add till_loop]. unfold_M.
    unfold more. destruct (Z.ltb_spec (index self) (len (compressed_data self))); [lia|done].
  - cbn [Nat.add till_loop]. unfold_M.
    destruct (more upto self) eqn:Hm; [|done].
    destruct (chunk_extends self) as [(E1&_) E2].
    destruct (chunk self) as [[[]|e] self']; cbn in *; [|done].
    apply IH. rewrite E1. specialize (E2 eq_refl). lia.
Qed.

Lemma till_extends upto self : extends self (snd (_uncompress_till upto self)).
Proof. apply till_loop_extends. Qed.

Lemma getitem_extends it self : extends self (snd (__getitem__ it self)).
Proof.
  destruct it as [i|s]; cbn [__getitem__]; unfold_M.
  - pose proof (till_extends i self) as E.
    destruct (_uncompress_till i self) as [[[]|e] self']; cbn in *; [|done].
    by destruct (getitem _ _).
  - destruct (slice_indices _ _) as [[[a b] st]|e]; cbn; [|reflexivity].
    pose proof (till_extends (Z.max a b) self) as E.
    destruct (_uncompress_till _ self) as [[[]|e] self']; cbn in *; [|done].
    by destruct (getslice _ _).
Qed.

Lemma after_app its1 its2 self : after (its1 ++ its2) self = after its2 (after its1 self).
Proof. apply foldl_app. Qed.

Lemma after_extends its : ∀ self, extends self (after its self).
Proof.
  induction its as [|it its IH]; intros self; [reflexivity|].
  change (after (it :: its) self) with (after its (snd (__getitem__ it self))).
  etrans; [apply getitem_extends|apply IH].
Qed.

(** Decoding resumes where it stopped: whatever was requested, the
    decompressor is in the state that decoding some number of chunks from
    the start leaves it in. *)
Lemma decoded_add n : ∀ m self, decoded m (decoded n self) = decoded (n + m) self.
Proof.
  induction n as [|n IH]; intros m self; [done|]. cbn [Nat.add decoded].
  destruct (Z.ltb_spec (index self) (len (compressed_data self))) as [H|H]; [apply IH|].
  destruct m as [|m]; [done|]. cbn [decoded].
  destruct (Z.ltb_spec (index self) (len (compressed_data self))); [lia|done].
Qed.

Lemma till_loop_decoded fuel : ∀ upto self,
  ∃ n, snd (till_loop fuel upto self) = decoded n self.
Proof.
  induction fuel as [|fuel IH]; intros upto self; [by exists O|].
  cbn [till_loop]. unfold_M.
  destruct (more upto self) eqn:Hm; [|by exists O].
  apply andb_true_iff in Hm as [Hi _].
  destruct (chunk self) as [[[]|e] self'] eqn:Hc; cbn.
  - destruct (IH upto self') as [n Hn]. exists (S n). cbn [decoded].
    by rewrite Hi, Hc.
  - exists 1%nat. cbn [decoded]. by rewrite Hi, Hc.
Qed.

Lemma getitem_decoded it self : ∃ n, snd (__getitem__ it self) = decoded n self.
Proof.
  destruct it as [i|s]; cbn [__getitem__]; unfold_M.
  - destruct (till_loop_decoded (Z.to_nat (len (compressed_data self) - index self)) i self)
      as [n Hn].
    unfold _uncompress_till.
    destruct (till_loop _ i self) as [[[]|e] self']; cbn in *; exists n; [|done].
    by destruct (getitem _ _).
  - destruct (slice_indices _ _) as [[[a b] st]|e]; cbn; [|by exists O].
    destruct (till_loop_decoded (Z.to_nat (len (compressed_data self) - index self))
                (Z.max a b) self) as [n Hn].
    unfold _uncompress_till.
    destruct (till_loop _ _ self) as [[[]|e] self']; cbn in *; exists n; [|done].
    by destruct (getslice _ _).
Qed.

Lemma after_decoded its : ∀ self, ∃ n, after its self = decoded n self.
Proof.
  induction its as [|it its IH]; intros self; [by exists O|].
  change (after (it :: its) self) with (after its (snd (__getitem__ it self))).
  destruct (getitem_decoded it self) as [n ->].
  destruct (IH (decoded n self)) as [m ->]. exists (n + m)%nat. apply decoded_add.
Qed.

End decompressor_invariants.

Section chunks.

Lemma land3 b : Z.land (b2z b) 3 = b2z b mod 4.
Proof. by destruct b. Qed.



(** ** A literal chunk *)

Lemma literal_eq lenbytes p :
  literal lenbytes p = z2b (4 * literal_field lenbytes p) :: lenbytes ++ p.
Proof. by destruct lenbytes. Qed.

Lemma literal_field_range lenbytes p :
  literal_ok lenbytes p = true → 0 <= literal_field lenbytes p <= 63.
Proof.
  unfold literal_ok, literal_field. destruct lenbytes as [|b l].
  - intros [?%Z.leb_le ?%Z.leb_le]%andb_true_iff. lia.
  - intros [?%Z.leb_le _]%andb_true_iff. pose proof (len_nonneg (b :: l)). lia.
Qed.

Lemma len_literal lenbytes p : len (literal lenbytes p) = 1 + len lenbytes + len p.
Proof. rewrite literal_eq, len_cons, len_app. lia. Qed.

Lemma slice_at {A} (pre mid post : list A) i j :
  i = len pre → j = i + len mid → slice (pre ++ mid ++ post) i j = mid.
Proof. intros -> ->. apply slice_middle. Qed.

(** On a well-formed literal chunk [_uncompress_literal] appends the
    payload and moves the read position past the chunk. *)
Lemma literal_step pre lenbytes p post out n :
  literal_ok lenbytes p = true →
  _uncompress_literal (mkSnappy (pre ++ literal lenbytes p ++ post) out n (len pre))
  = (OK tt, mkSnappy (pre ++ literal lenbytes p ++ post) (out ++ p) n
              (len pre + len (literal lenbytes p))).
Proof.
  intros Hok. pose proof (literal_field_range _ _ Hok) as Hf.
  rewrite len_literal, literal_eq.
  set (tag := z2b (4 * literal_field lenbytes p)).
  assert (b2z tag / 4 = literal_field lenbytes p) as Htag.
  { unfold tag. rewrite b2z_z2b by lia. rewrite Z.mul_comm. apply Z.div_mul. lia. }
  unfold _uncompress_literal. unfold_M. cbn [compressed_data index uncompressed_data].
  change ((tag :: lenbytes ++ p) ++ post) with (tag :: (lenbytes ++ p) ++ post).
  rewrite getitem_app_mid. cbn. rewrite shiftr2, Htag.
  set (data := pre ++ tag :: (lenbytes ++ p) ++ post).
  assert (len (pre ++ [tag]) = len pre + 1) as Hl1
    by (rewrite len_app, len_cons; done).
  destruct lenbytes as [|b l].
  - cbn [literal_field literal_ok] in *.
    apply andb_true_iff in Hok as [?%Z.leb_le ?%Z.leb_le].
    destruct (Z.leb_spec 60 (len p - 1)); [lia|]. cbn.
    replace (slice data (len pre + 1) (len pre + 1 + (len p - 1 + 1))) with p.
    + do 2 f_equal. unfold len. cbn [length]. lia.
    + symmetry. unfold data.
      replace (pre ++ tag :: ([] ++ p) ++ post) with ((pre ++ [tag]) ++ p ++ post)
        by (by rewrite <- app_assoc).
      apply slice_at; lia.
  - cbn [literal_field literal_ok] in *.
    assert (1 <= len (b :: l))
      by (rewrite len_cons; pose proof (len_nonneg l); lia).
    apply andb_true_iff in Hok as [? Hp%Z.eqb_eq].
    destruct (Z.leb_spec 60 (59 + len (b :: l))); [|lia]. cbn.
    replace (59 + len (b :: l) - 59) with (len (b :: l)) by lia.
    replace (slice data (len pre + 1) (len pre + 1 + len (b :: l))) with (b :: l).
    + unfold int_from_bytes. cbn [andb]. rewrite <- Hp.
      replace (slice data _ _) with p; [do 2 f_equal; lia|].
      symmetry. unfold data.
      replace (pre ++ tag :: ((b :: l) ++ p) ++ post)
        with ((pre ++ [tag] ++ b :: l) ++ p ++ post)
        by (by rewrite <- !app_assoc).
      apply slice_at; [|lia]. rewrite !len_app. unfold len. cbn [length]. lia.
    + symmetry. unfold data.
      replace (pre ++ tag :: ((b :: l) ++ p) ++ post)
        with ((pre ++ [tag]) ++ (b :: l) ++ p ++ post)
        by (by rewrite <- !app_assoc).
      apply slice_at; lia.
Qed.

Lemma chunk_literal pre lenbytes p post out n :
  literal_ok lenbytes p = true →
  chunk (mkSnappy (pre ++ literal lenbytes p ++ post) out n (len pre))
  = (OK tt, mkSnappy (pre ++ literal lenbytes p ++ post) (out ++ p) n
              (len pre + len (literal lenbytes p))).
Proof.
  intros Hok. rewrite <- literal_step by done.
  pose proof (literal_field_range _ _ Hok) as Hf.
  unfold chunk. unfold_M. cbn [compressed_data index].
  rewrite literal_eq.
  change ((?t :: lenbytes ++ p) ++ post) with (t :: (lenbytes ++ p) ++ post).
  rewrite getitem_app_mid. cbn. rewrite land3, b2z_z2b by lia.
  by rewrite Z.mul_comm, Z.mod_mul.
Qed.

Lemma literal_payload_pos lenbytes p : literal_ok lenbytes p = true → 1 <= len p.
Proof.
  unfold literal_ok. destruct lenbytes as [|b l].
  - intros [?%Z.leb_le _]%andb_true_iff. lia.
  - intros [_ ?%Z.eqb_eq]%andb_true_iff. pose proof (from_le_nonneg (b :: l)). lia.
Qed.

Lemma literals_cons c cs : literals (c :: cs) = literal c.1 c.2 ++ literals cs.
Proof. done. Qed.

Lemma payload_cons c cs : payload (c :: cs) = c.2 ++ payload cs.
Proof. done. Qed.

Lemma len_literals_ge cs : Z.of_nat (length cs) <= len (literals cs).
Proof.
  induction cs as [|c cs IH]; [done|].
  rewrite literals_cons, len_app, len_literal. cbn [length].
  pose proof (len_nonneg c.1). pose proof (len_nonneg c.2). lia.
Qed.

(** The loop of [_uncompress_till] on a run of literal chunks that ends
    the stream: it decodes all of them when that much is asked for. *)
Lemma till_literals cs : ∀ pre out fuel upto n,
  Forall (fun c => literal_ok c.1 c.2 = true) cs →
  (length cs <= fuel)%nat →
  len out + len (payload cs) <= upto →
  till_loop fuel upto (mkSnappy (pre ++ literals cs) out n (len pre))
  = (OK tt, mkSnappy (pre ++ literals cs) (out ++ payload cs) n
              (len pre + len (literals cs))).
Proof.
  induction cs as [|c cs IH]; intros pre out fuel upto n Hok Hfuel Hupto.
  - cbn [literals payload map concat]. rewrite !app_nil_r.
    change (len []) with 0. rewrite Z.add_0_r.
    destruct fuel as [|fuel]; [done|]. cbn [till_loop]. unfold_M.
    unfold more. cbn [index compressed_data].
    by rewrite Z.ltb_irrefl.
  - destruct fuel as [|fuel]; [cbn in Hfuel; lia|].
    apply Forall_cons in Hok as [Hc Hok].
    pose proof (literal_payload_pos _ _ Hc) as Hp.
    rewrite payload_cons, len_app in Hupto. pose proof (len_nonneg (payload cs)).
    cbn [till_loop]. unfold_M. unfold more. cbn [index compressed_data uncompressed_data].
    rewrite literals_cons.
    destruct (Z.ltb_spec (len pre) (len (pre ++ literal c.1 c.2 ++ literals cs))) as [_|Hx].
    2:{ rewrite !len_app, len_literal in Hx.
        pose proof (len_nonneg c.1). pose proof (len_nonneg (literals cs)). lia. }
    destruct (Z.ltb_spec (len out) upto); [|lia]. cbn [andb].
    rewrite chunk_literal by done.
    rewrite payload_cons.
    replace (pre ++ literal c.1 c.2 ++ literals cs)
      with ((pre ++ literal c.1 c.2) ++ literals cs) by (by rewrite <- app_assoc).
    rewrite <- len_app, IH; [|done|cbn in Hfuel; lia|rewrite len_app; lia].
    rewrite !len_app, <- !app_assoc. do 2 f_equal. lia.
Qed.

(** ** Taking everything: [l[0:b:1]] *)

Lemma omap_lookup_seq {A} (l : list A) : ∀ pre,
  omap (fun k : nat => (pre ++ l) !! Z.to_nat (0 + Z.of_nat k * 1))
       (seq (length pre) (length l)) = l.
Proof.
  induction l as [|a l IH]; intros pre; [done|].
  cbn [length seq]. cbn [omap list_omap].
  replace (Z.to_nat (0 + Z.of_nat (length pre) * 1)) with (length pre) by lia.
  rewrite list_lookup_middle by done. f_equal.
  specialize (IH (pre ++ [a])). rewrite <- app_assoc in IH. cbn [app] in IH.
  rewrite length_app in IH. cbn [length] in IH.
  by replace (length pre + 1)%nat with (S (length pre)) in IH by lia.
Qed.

Lemma getslice_all {A} (l : list A) b :
  len l <= b → getslice l (Slice (Some 0) (Some b) (Some 1)) = OK l.
Proof.
  intros Hb. pose proof (len_nonneg l).
  unfold getslice, slice_indices, adjust_bound. cbn.
  destruct (Z.ltb_spec (len l) 0); [lia|].
  destruct (Z.ltb_spec b 0); [lia|].
  assert ((if len l <? b then len l else b) = len l) as ->
    by (destruct (Z.ltb_spec (len l) b); lia).
  cbn. unfold slice_length. cbn.
  destruct (Z.ltb_spec 0 (len l)).
  - rewrite Z.sub_0_r, Z.div_1_r.
    replace (Z.to_nat (len l - 1 + 1)) with (length l) by (unfold len; lia).
    f_equal. apply (omap_lookup_seq l []).
  - assert (l = []) as -> by (apply len_0_nil; lia). done.
Qed.

Lemma getall_indices n :
  0 <= n → slice_indices (Slice None None None) n = OK (0, n, 1).
Proof.
  intros Hn. unfold slice_indices. cbn.
  by destruct (Z.ltb_spec n 0); [lia|].
Qed.

End chunks.

Section copies.






End copies.

Section decompression.

Lemma patcher_init hdr rest :
  is_varint hdr = true →
  Patcher.__init__ (hdr ++ rest) 0
  = OK (mkSnappy (hdr ++ rest) [] (le_value (groups hdr)) (len hdr)).
Proof.
  intros Hh. unfold Patcher.__init__, Patcher.read_varint.
  rewrite bytes_from_0, patcher_loop by (done || lia). cbn.
  do 2 f_equal. lia.
Qed.

Lemma literal_only_stream hdr cs :
  is_varint hdr = true →
  Forall (fun c => literal_ok c.1 c.2 = true) cs →
  le_value (groups hdr) = len (payload cs) →
  ∃ self, Patcher.__init__ (hdr ++ literals cs) 0 = OK self ∧
          fst (getall self) = OK (Bytes (payload cs)).
Proof.
  intros Hh Hcs Hn. eexists. split; [by apply patcher_init|].
  unfold getall, __getitem__. unfold_M. cbn [uncompressed_length].
  rewrite getall_indices by (rewrite Hn; apply len_nonneg). cbv beta iota.
  unfold _uncompress_till. cbn [compressed_data index].
  pose proof (len_nonneg (payload cs)).
  rewrite till_literals; [|done| |change (len []) with 0; lia].
  - cbv beta iota. cbn [uncompressed_data app].
    rewrite getslice_all by lia. done.
  - rewrite len_app. pose proof (len_literals_ge cs). lia.
Qed.




End decompression.






(** C6 (amended).  Over any sequence of element and slice requests, made
    one after another on a decompressor in any state and whether they
    return or raise: the output already produced stays a prefix of the
    output (its length never decreases), the read position never moves
    backward, and the state reached is the one that decoding some number
    of further chunks leaves, so nothing is decoded twice.  The output
    stays within the declared uncompressed length when the header does not
    under-declare what the chunks produce. *)
Theorem lazy_requests_only_extend :
  (∀ (self : SnappyDecompress) (its1 its2 : list subscript),
     let s1 := after its1 self in
     let s2 := after (its1 ++ its2) self in
     uncompressed_data s1 `prefix_of` uncompressed_data s2 ∧
     len (uncompressed_data s1) <= len (uncompressed_data s2) ∧
     index s1 <= index s2 ∧
     ∃ n, s2 = decoded n s1) ∧
  (∀ (self : SnappyDecompress) (its : list subscript),
     consistent self →
     len (uncompressed_data (after its self)) <= uncompressed_length self).
Proof.
  split.
  - intros self its1 its2 s1 s2. subst s1 s2. rewrite after_app.
    pose proof (after_extends its2 (after its1 self)) as E.
    pose proof (extends_len _ _ E). destruct E as (_&_&?&?).
    repeat split; try done. apply after_decoded.
  - intros self its Hc. destruct (after_decoded its self) as [n ->]. apply Hc.
Qed.

Lemma lazy_requests_only_extend_witness :
  consistent (mkSnappy (bs [2] ++ literal [] (bs [97; 98])) [] 2 1) ∧
  len (uncompressed_data
         (after [Sl (Slice (Some 0) (Some 1) None); Int 1]
            (mkSnappy (bs [2] ++ literal [] (bs [97; 98])) [] 2 1)))
  <= uncompressed_length (mkSnappy (bs [2] ++ literal [] (bs [97; 98])) [] 2 1).
Proof.
  split; [intros [|[|n]]; vm_compute; discriminate|].
  apply (proj2 lazy_requests_only_extend).
  intros [|[|n]]; vm_compute; discriminate.
Defined.

(** A header that declares one byte before a literal chunk of two: asking
    for the first byte leaves two bytes in the output buffer. *)
Lemma under_declared_header_overshoots :
  ∃ self, Patcher.__init__ (bs [1] ++ literal [] (bs [97; 98])) 0 = OK self ∧
          uncompressed_length self = 1 ∧
          len (uncompressed_data (after [Sl (Slice (Some 0) (Some 1) None)] self)) = 2.
Proof. eexists. repeat split. Qed.

(* ===================================================================== *)
(** * The literal-only encoder                                            *)
(* ===================================================================== *)

Section encoder.

Lemma byte_of_int_ok n : 0 <= n < 256 → byte_of_int n = OK (z2b n).
Proof.
  intros. unfold byte_of_int.
  destruct (Z.leb_spec 0 n); [|lia]. destruct (Z.ltb_spec n 256); [done|lia].
Qed.

Lemma is_varint_cons b v :
  128 <= b2z b → is_varint v = true → is_varint (b :: v) = true.
Proof.
  intros Hb Hv. destruct v as [|b' v]; [done|].
  change (is_varint (b :: b' :: v)) with ((128 <=? b2z b) && is_varint (b' :: v)).
  rewrite Hv. by destruct (Z.leb_spec 128 (b2z b)); [|lia].
Qed.

(** [make_varint] writes the base-128 digits of [n], least significant
    first, with the high bit on all bytes but the last; its fuel is
    enough. *)
Lemma make_varint_loop_ok fuel : ∀ n out,
  0 <= n < 2 ^ (7 * Z.of_nat fuel + 7) →
  ∃ v, Patcher.make_varint_loop fuel n out = OK (out ++ v) ∧
       is_varint v = true ∧ le_value (groups v) = n.
Proof.
  assert (∀ n out, 0 <= n <= 127 →
    ∃ v, (b ← byte_of_int n; OK (out ++ [b])) = OK (out ++ v) ∧
         is_varint v = true ∧ le_value (groups v) = n) as Hlast.
  { intros n out Hn. exists [z2b n]. rewrite byte_of_int_ok by lia.
    repeat split.
    - cbn. rewrite b2z_z2b by lia. by destruct (Z.ltb_spec n 128); [|lia].
    - cbn. rewrite b2z_z2b by lia. rewrite Z.mod_small; lia. }
  induction fuel as [|fuel IH]; intros n out Hn.
  - apply Hlast. cbn in Hn. lia.
  - cbn [Patcher.make_varint_loop].
    destruct (Z.ltb_spec 127 n) as [Hbig|]; [|apply Hlast; lia].
    assert (Z.lor (Z.land n 127) 128 = n mod 128 + 128) as ->.
    { change 127 with (Z.ones 7). rewrite Z.land_ones by lia.
      change 128 with (Z.shiftl 1 7) at 1. change (2 ^ 7) with 128.
      pose proof (Z.mod_pos_bound n 128).
      rewrite lor_disjoint; change (2 ^ 7) with 128; lia. }
    pose proof (Z.mod_pos_bound n 128 ltac:(lia)) as Hm.
    rewrite byte_of_int_ok by lia. cbn.
    rewrite Z.shiftr_div_pow2 by lia. change (2 ^ 7) with 128.
    destruct (IH (n / 128) (out ++ [z2b (n mod 128 + 128)])) as (v & Hv & Hvar & Hval).
    { split; [apply Z.div_pos; lia|]. apply Z.div_lt_upper_bound; [lia|].
      replace (7 * Z.of_nat (S fuel) + 7) with (7 + (7 * Z.of_nat fuel + 7)) in Hn by lia.
      rewrite Z.pow_add_r in Hn by lia. change (2 ^ 7) with 128 in Hn. lia. }
    exists (z2b (n mod 128 + 128) :: v). rewrite Hv, <- app_assoc. repeat split.
    + apply is_varint_cons; [|done]. rewrite b2z_z2b; lia.
    + cbn [groups map le_value]. fold (groups v). rewrite Hval, b2z_z2b by lia.
      replace ((n mod 128 + 128) mod 128) with (n mod 128).
      * pose proof (Z.div_mod n 128). lia.
      * rewrite <- (Z.mul_1_l 128) at 3. rewrite Z.mod_add by lia.
        by rewrite Z.mod_mod.
Qed.

Lemma make_varint_ok n :
  0 <= n →
  ∃ v, Patcher.make_varint n = OK v ∧ is_varint v = true ∧ le_value (groups v) = n.
Proof.
  intros Hn. unfold Patcher.make_varint.
  destruct (make_varint_loop_ok (Z.to_nat (Z.log2 n)) n []) as (v & Hv & ?); [|by exists v].
  split; [done|]. destruct (Z.eq_dec n 0) as [->|]; [done|].
  pose proof (Z.log2_nonneg n).
  eapply Z.lt_le_trans; [apply (Z.log2_spec n); lia|].
  apply Z.pow_le_mono_r; lia.
Qed.

Lemma int_to_bytes_unsigned x n :
  0 <= n → 0 <= x < 2 ^ (8 * n) → int_to_bytes x n false = OK (to_le (Z.to_nat n) x).
Proof.
  intros Hn Hx. unfold int_to_bytes.
  destruct (Z.ltb_spec n 0); [lia|].
  destruct (Z.leb_spec 0 x); [|lia]. destruct (Z.ltb_spec x (2 ^ (8 * n))); [done|lia].
Qed.

Lemma snappy_encode_nonempty data :
  data ≠ [] → len data <= 2 ^ 32 →
  ∃ v, Patcher.make_varint (len data) = OK v ∧
       Patcher.read_varint (v ++ [xfc] ++ to_le 4 (len data - 1) ++ data) 0
       = OK (len data, len v) ∧
       Patcher.snappy_encode data
       = OK (v ++ [xfc] ++ to_le 4 (len data - 1) ++ data).
Proof.
  intros Hne Hlen.
  assert (1 <= len data).
  { destruct data; [done|]. rewrite len_cons. pose proof (len_nonneg data). lia. }
  destruct (make_varint_ok (len data)) as (v & Hv & Hvar & Hval); [lia|].
  exists v. split; [done|]. split.
  - unfold Patcher.read_varint. rewrite bytes_from_0, patcher_loop by (done || lia).
    rewrite Hval. do 2 f_equal; lia.
  - unfold Patcher.snappy_encode. destruct (decide _); [done|].
    rewrite Hv, bind_OK. change (Z.shiftl 63 2) with 252.
    rewrite byte_of_int_ok, bind_OK by lia.
    rewrite int_to_bytes_unsigned by lia. by rewrite bind_OK.
Qed.

(** What [snappy_encode] writes is a header and one literal chunk with
    four length bytes: the decompressor reads the payload back from it. *)
Lemma snappy_encode_decompress data out :
  len data <= 2 ^ 32 → data ≠ [] →
  Patcher.snappy_encode data = OK out →
  ∃ self, Patcher.__init__ out 0 = OK self ∧ fst (getall self) = OK (Bytes data).
Proof.
  intros Hlen Hne Henc.
  assert (1 <= len data).
  { destruct data; [done|]. rewrite len_cons. pose proof (len_nonneg data). lia. }
  destruct (snappy_encode_nonempty data Hne Hlen) as (v & Hv & _ & Hout).
  destruct (make_varint_ok (len data)) as (v' & Hv' & Hvar & Hval); [lia|].
  assert (v' = v) as -> by congruence.
  assert (out = v ++ literals [(to_le 4 (len data - 1), data)]) as ->.
  { rewrite Hout in Henc. injection Henc as <-. cbn. by rewrite app_nil_r. }
  destruct (literal_only_stream v [(to_le 4 (len data - 1), data)]) as (self & Hi & Hg).
  - done.
  - constructor; [|done]. cbn [fst snd]. unfold literal_ok.
    change (to_le 4 (len data - 1))
      with (z2b ((len data - 1) mod 256) :: to_le 3 ((len data - 1) / 256)).
    change (z2b ((len data - 1) mod 256) :: to_le 3 ((len data - 1) / 256))
      with (to_le 4 (len data - 1)).
    rewrite from_le_to_le by (cbn; lia). rewrite len_to_le.
    apply andb_true_iff. split; [done|]. apply Z.eqb_eq. lia.
  - cbn. rewrite app_nil_r. done.
  - exists self. split; [done|]. cbn in Hg. by rewrite app_nil_r in Hg.
Qed.

(** Past [2 ^ 32] bytes [len(data) - 1] does not fit the four length
    bytes: [to_bytes] raises. *)
Lemma snappy_encode_overflow data :
  2 ^ 32 < len data → Patcher.snappy_encode data = Raise OverflowError.
Proof.
  intros Hlen. unfold Patcher.snappy_encode.
  destruct (decide (data = [])) as [->|_]; [done|].
  destruct (make_varint_ok (len data)) as (v & Hv & _); [lia|].
  rewrite Hv, bind_OK. change (Z.shiftl 63 2) with 252.
  rewrite byte_of_int_ok, bind_OK by lia.
  unfold int_to_bytes. change (4 <? 0) with false. cbv beta iota.
  destruct (Z.leb_spec 0 (len data - 1)); [|lia].
  change (8 * 4) with 32.
  by destruct (Z.ltb_spec (len data - 1) (2 ^ 32)); [lia|].
Qed.

End encoder.

(** C9 (amended).  For a non-empty payload of at most [2 ^ 32] bytes (so
    that [len(payload) - 1] fits the four-byte field) [snappy_encode] returns
    the varint of the length as [make_varint] writes it (which
    [read_varint] reads back as that length), the tag byte [0b11111100],
    [len(payload) - 1] on four bytes, least significant first, and the
    payload as it is.  For the empty payload it returns the empty byte
    string: no length varint, no chunk. *)
Theorem snappy_encode_layout :
  (∀ data : bytes,
     data ≠ [] → len data <= 2 ^ 32 →
     ∃ v, Patcher.make_varint (len data) = OK v ∧
          Patcher.read_varint (v ++ [xfc] ++ to_le 4 (len data - 1) ++ data) 0
          = OK (len data, len v) ∧
          Patcher.snappy_encode data
          = OK (v ++ [xfc] ++ to_le 4 (len data - 1) ++ data)) ∧
  b2z xfc = 252 ∧
  Patcher.snappy_encode [] = OK [].
Proof. split; [apply snappy_encode_nonempty|done]. Qed.

Lemma snappy_encode_layout_witness :
  ∃ v, Patcher.make_varint (len (bs [7; 8; 9])) = OK v ∧
       Patcher.read_varint (v ++ [xfc] ++ to_le 4 (len (bs [7; 8; 9]) - 1) ++ bs [7; 8; 9]) 0
       = OK (len (bs [7; 8; 9]), len v) ∧
       Patcher.snappy_encode (bs [7; 8; 9])
       = OK (v ++ [xfc] ++ to_le 4 (len (bs [7; 8; 9]) - 1) ++ bs [7; 8; 9]).
Proof.
  apply (proj1 snappy_encode_layout (bs [7; 8; 9])); [discriminate|].
  vm_compute. discriminate.
Defined.

(** A payload of [2 ^ 32 + 1] zero bytes is not empty, and
    [snappy_encode] raises [OverflowError] on it: [2 ^ 32] does not fit
    four bytes. *)
Lemma snappy_encode_overflows_past_4GiB :
  replicate (Z.to_nat 4294967297) x00 ≠ [] ∧
  Patcher.snappy_encode (replicate (Z.to_nat 4294967297) x00) = Raise OverflowError.
Proof.
  assert (len (replicate (Z.to_nat 4294967297) x00) = 4294967297) as Hlen.
  { unfold len. rewrite length_replicate. apply Z2Nat.id. done. }
  split.
  - intros E. rewrite E in Hlen. discriminate Hlen.
  - apply snappy_encode_overflow. rewrite Hlen. done.
Qed.

(** C10.  In [seq], once the length [l] has decoded the element count: a
    count that is not below [len(data)], the length of the whole buffer,
    raises [AssertionError] whatever the element parser [f] is (no
    element is read); a count below it passes the guard and the element
    loop runs, also where the bytes left cannot hold the elements, as for
    three 8-byte elements in a buffer of four bytes. *)
Theorem seq_count_guard :
  (∀ (A : Type) (f : Patcher.codec A) (l : Patcher.codec Z) (data : bytes)
     (i count i' : Z),
     Patcher.inner l data i = OK (count, i') →
     (len data <= count →
      Patcher.inner (Patcher.seq f l) data i = Raise AssertionError) ∧
     (count < len data →
      Patcher.inner (Patcher.seq f l) data i
      = Patcher.seq_loop (Patcher.inner f) data (Z.to_nat count) i' [])) ∧
  Patcher.inner (Patcher.seq (Patcher.U 8) (Patcher.U 2)) (bs [3; 0; 1; 2]) 0
  = OK ([513; 0; 0], 26).
Proof.
  split; [|done].
  intros A f l data i count i' Hl. cbn. unfold Patcher.with_note. rewrite Hl. cbn.
  split; intros H.
  - by destruct (Z.ltb_spec count (len data)); [lia|].
  - by destruct (Z.ltb_spec count (len data)); [|lia].
Qed.

Lemma seq_count_guard_witness :
  Patcher.inner (Patcher.seq (Patcher.U 8) (Patcher.U 2)) (bs [4; 0; 1; 2]) 0
  = Raise AssertionError ∧
  Patcher.inner (Patcher.seq (Patcher.U 8) (Patcher.U 2)) (bs [1; 0; 1; 2]) 0
  = Patcher.seq_loop (Patcher.inner (Patcher.U 8)) (bs [1; 0; 1; 2]) (Z.to_nat 1) 2 [].
Proof.
  split.
  - apply (proj1 seq_count_guard Z (Patcher.U 8) (Patcher.U 2) (bs [4; 0; 1; 2]) 0 4 2).
    + reflexivity.
    + vm_compute. discriminate.
  - apply (proj1 seq_count_guard Z (Patcher.U 8) (Patcher.U 2) (bs [1; 0; 1; 2]) 0 1 2).
    + reflexivity.
    + reflexivity.
Defined.

(* ===================================================================== *)
(** * The schema codec: what is parsed is unparsed to the same bytes      *)
(* ===================================================================== *)

Section utf8.

Ltac bool_hyps :=
  repeat match goal with
  | H : (_ && _) = true |- _ => apply andb_true_iff in H as [? ?]
  | H : is_cont _ = true |- _ => unfold is_cont in H
  | H : (_ <=? _) = true |- _ => apply Z.leb_le in H
  | H : (_ <? _) = true |- _ => apply Z.ltb_lt in H
  | H : (_ <? _) = false |- _ => apply Z.ltb_ge in H
  | H : (_ <=? _) = false |- _ => apply Z.leb_gt in H
  end.

Ltac pick_branch :=
  repeat (cbn [andb];
          match goal with
          | |- context [?a <? ?b] => destruct (Z.ltb_spec a b); [try lia|try lia]
          | |- context [?a <=? ?b] => destruct (Z.leb_spec a b); [try lia|try lia]
          end);
  cbn [andb].

(** The strict decoder accepts only what [utf8_encode_cp] writes. *)
Lemma utf8_roundtrip bs : ∀ s, utf8_decode bs = OK s → utf8_encode s = OK bs.
Proof.
  remember (length bs) as n eqn:Hn. revert bs Hn.
  induction n as [n IH] using lt_wf_ind. intros bs Hn s Hdec.
  destruct bs as [|b0 r0]; [by injection Hdec as <-|].
  cbn [utf8_decode] in Hdec. pose proof (b2z_range b0) as R0.
  destruct (b2z b0 <? 128) eqn:C1.
  { apply bind_OK_inv in Hdec as (s' & Hs' & [= <-]).
    apply (IH (length r0)) in Hs'; [|cbn in Hn; lia|done].
    cbn [utf8_encode]. rewrite Hs'. unfold utf8_encode_cp. bool_hyps.
    pick_branch. cbn. by rewrite z2b_b2z. }
  destruct ((194 <=? b2z b0) && (b2z b0 <=? 223)) eqn:C2.
  { destruct r0 as [|b1 r1]; [done|]. pose proof (b2z_range b1) as R1.
    destruct (is_cont (b2z b1)) eqn:K1; [|done].
    apply bind_OK_inv in Hdec as (s' & Hs' & [= <-]).
    apply (IH (length r1)) in Hs'; [|cbn in Hn; lia|done].
    cbn [utf8_encode]. rewrite Hs'. unfold utf8_encode_cp. bool_hyps.
    pick_branch. cbn.
    replace (((b2z b0 - 192) * 64 + (b2z b1 - 128)) / 64) with (b2z b0 - 192)
      by (apply Z.div_unique_pos with (r := b2z b1 - 128); lia).
    replace (((b2z b0 - 192) * 64 + (b2z b1 - 128)) mod 64) with (b2z b1 - 128)
      by (apply Z.mod_unique_pos with (q := b2z b0 - 192); lia).
    replace (192 + (b2z b0 - 192)) with (b2z b0) by lia.
    replace (128 + (b2z b1 - 128)) with (b2z b1) by lia.
    by rewrite !z2b_b2z. }
  destruct ((224 <=? b2z b0) && (b2z b0 <=? 239)) eqn:C3.
  { destruct r0 as [|b1 [|b2 r2]]; [done..|].
    pose proof (b2z_range b1) as R1. pose proof (b2z_range b2) as R2.
    match type of Hdec with (if ?c then _ else _) = _ => destruct c eqn:K end; [|done].
    apply bind_OK_inv in Hdec as (s' & Hs' & [= <-]).
    apply (IH (length r2)) in Hs'; [|cbn in Hn; lia|done].
    cbn [utf8_encode]. rewrite Hs'. unfold utf8_encode_cp. bool_hyps.
    set (c0 := b2z b0) in *. set (c1 := b2z b1) in *. set (c2 := b2z b2) in *.
    assert (2048 <= (c0 - 224) * 4096 + (c1 - 128) * 64 + (c2 - 128) < 65536
            ∧ ¬ (55296 <= (c0 - 224) * 4096 + (c1 - 128) * 64 + (c2 - 128) <= 57343))
      as [Hr Hs].
    { destruct (Z.eqb_spec c0 224), (Z.eqb_spec c0 237); lia. }
    assert (128 <= c1 <= 191) by (destruct (Z.eqb_spec c0 224), (Z.eqb_spec c0 237); lia).
    pick_branch; cbn;
    replace (((c0 - 224) * 4096 + (c1 - 128) * 64 + (c2 - 128)) / 4096) with (c0 - 224)
      by (apply Z.div_unique_pos with (r := (c1 - 128) * 64 + (c2 - 128)); lia);
    replace (((c0 - 224) * 4096 + (c1 - 128) * 64 + (c2 - 128)) / 64)
      with ((c0 - 224) * 64 + (c1 - 128))
      by (apply Z.div_unique_pos with (r := c2 - 128); lia);
    replace (((c0 - 224) * 64 + (c1 - 128)) mod 64) with (c1 - 128)
      by (apply Z.mod_unique_pos with (q := c0 - 224); lia);
    replace (((c0 - 224) * 4096 + (c1 - 128) * 64 + (c2 - 128)) mod 64) with (c2 - 128)
      by (apply Z.mod_unique_pos with (q := (c0 - 224) * 64 + (c1 - 128)); lia);
    replace (224 + (c0 - 224)) with c0 by lia;
    replace (128 + (c1 - 128)) with c1 by lia;
    replace (128 + (c2 - 128)) with c2 by lia;
    subst c0 c1 c2; by rewrite !z2b_b2z. }
  destruct ((240 <=? b2z b0) && (b2z b0 <=? 244)) eqn:C4; [|done].
  destruct r0 as [|b1 [|b2 [|b3 r3]]]; [done..|].
  pose proof (b2z_range b1) as R1. pose proof (b2z_range b2) as R2.
  pose proof (b2z_range b3) as R3.
  match type of Hdec with (if ?c then _ else _) = _ => destruct c eqn:K end; [|done].
  apply bind_OK_inv in Hdec as (s' & Hs' & [= <-]).
  apply (IH (length r3)) in Hs'; [|cbn in Hn; lia|done].
  cbn [utf8_encode]. rewrite Hs'. unfold utf8_encode_cp. bool_hyps.
  set (c0 := b2z b0) in *. set (c1 := b2z b1) in *. set (c2 := b2z b2) in *.
  set (c3 := b2z b3) in *.
  assert (65536 <= (c0 - 240) * 262144 + (c1 - 128) * 4096 + (c2 - 128) * 64 + (c3 - 128)
          < 1114112) as Hr.
  { destruct (Z.eqb_spec c0 240), (Z.eqb_spec c0 244); lia. }
  assert (128 <= c1 <= 191) by (destruct (Z.eqb_spec c0 240), (Z.eqb_spec c0 244); lia).
  pick_branch. cbn.
  replace (((c0 - 240) * 262144 + (c1 - 128) * 4096 + (c2 - 128) * 64 + (c3 - 128)) / 262144)
    with (c0 - 240)
    by (apply Z.div_unique_pos with (r := (c1 - 128) * 4096 + (c2 - 128) * 64 + (c3 - 128)); lia).
  replace (((c0 - 240) * 262144 + (c1 - 128) * 4096 + (c2 - 128) * 64 + (c3 - 128)) / 4096)
    with ((c0 - 240) * 64 + (c1 - 128))
    by (apply Z.div_unique_pos with (r := (c2 - 128) * 64 + (c3 - 128)); lia).
  replace (((c0 - 240) * 262144 + (c1 - 128) * 4096 + (c2 - 128) * 64 + (c3 - 128)) / 64)
    with ((c0 - 240) * 4096 + (c1 - 128) * 64 + (c2 - 128))
    by (apply Z.div_unique_pos with (r := c3 - 128); lia).
  replace (((c0 - 240) * 64 + (c1 - 128)) mod 64) with (c1 - 128)
    by (apply Z.mod_unique_pos with (q := c0 - 240); lia).
  replace (((c0 - 240) * 4096 + (c1 - 128) * 64 + (c2 - 128)) mod 64) with (c2 - 128)
    by (apply Z.mod_unique_pos with (q := (c0 - 240) * 64 + (c1 - 128)); lia).
  replace (((c0 - 240) * 262144 + (c1 - 128) * 4096 + (c2 - 128) * 64 + (c3 - 128)) mod 64)
    with (c3 - 128)
    by (apply Z.mod_unique_pos
          with (q := (c0 - 240) * 4096 + (c1 - 128) * 64 + (c2 - 128)); lia).
  replace (240 + (c0 - 240)) with c0 by lia.
  replace (128 + (c1 - 128)) with c1 by lia.
  replace (128 + (c2 - 128)) with c2 by lia.
  replace (128 + (c3 - 128)) with c3 by lia.
  subst c0 c1 c2 c3. by rewrite !z2b_b2z.
Qed.

End utf8.

Section combinators.

Import Patcher.

Lemma int_roundtrip s signed : int_to_bytes (int_from_bytes s signed) (len s) signed = OK s.
Proof.
  pose proof (from_le_nonneg s) as H0. pose proof (from_le_bound s) as H1.
  pose proof (len_nonneg s) as Hl.
  assert (Z.to_nat (len s) = length s) as Hn by (unfold len; lia).
  unfold int_from_bytes, int_to_bytes. destruct (Z.ltb_spec (len s) 0); [lia|].
  set (pow := 2 ^ (8 * len s)) in *.
  destruct signed; cbn [andb].
  - destruct (Z.leb_spec pow (2 * from_le s)).
    + destruct (Z.leb_spec (- pow) (2 * (from_le s - pow))); [|lia].
      destruct (Z.ltb_spec (2 * (from_le s - pow)) pow); [|lia]. cbn [andb].
      replace ((from_le s - pow) mod pow) with (from_le s)
        by (apply Z.mod_unique_pos with (q := -1); lia).
      by rewrite Hn, to_le_from_le.
    + destruct (Z.leb_spec (- pow) (2 * from_le s)); [|lia].
      destruct (Z.ltb_spec (2 * from_le s) pow); [|lia]. cbn [andb].
      rewrite Z.mod_small by lia. by rewrite Hn, to_le_from_le.
  - destruct (Z.leb_spec 0 (from_le s)); [|lia].
    destruct (Z.ltb_spec (from_le s) pow); [|lia]. cbn [andb].
    by rewrite Hn, to_le_from_le.
Qed.

Lemma U_ok n : 0 <= n → CodecOk (U n).
Proof.
  intros Hn data i v j Hi [= <- <-]. split; [lia|]. intros Hj.
  pose proof (int_roundtrip (slice data i (i + n)) false) as H.
  rewrite len_slice in H by lia. replace (i + n - i) with n in H by lia. exact H.
Qed.

Lemma S_ok n : 0 <= n → CodecOk (S n).
Proof.
  intros Hn data i v j Hi [= <- <-]. split; [lia|]. intros Hj.
  pose proof (int_roundtrip (slice data i (i + n)) true) as H.
  rewrite len_slice in H by lia. replace (i + n - i) with n in H by lia. exact H.
Qed.

#[global] Instance U1_ok : CodecOk (U 1). Proof. by apply U_ok. Qed.
#[global] Instance U2_ok : CodecOk (U 2). Proof. by apply U_ok. Qed.
#[global] Instance U4_ok : CodecOk (U 4). Proof. by apply U_ok. Qed.
#[global] Instance U8_ok : CodecOk (U 8). Proof. by apply U_ok. Qed.
#[global] Instance S2_ok : CodecOk (S 2). Proof. by apply S_ok. Qed.
#[global] Instance S8_ok : CodecOk (S 8). Proof. by apply S_ok. Qed.

Lemma U_value data i n v j : inner (U n) data i = OK (v, j) → 0 <= v ∧ j = i + n.
Proof. intros [= <- <-]. split; [apply from_le_nonneg|done]. Qed.

Lemma utf8_encode_len bs s : utf8_decode bs = OK s → utf8_encode s = OK bs.
Proof. apply utf8_roundtrip. Qed.

#[global] Instance string_ok : CodecOk (string (U 2)).
Proof.
  intros data i v j Hi H. cbn in H.
  apply bind_OK_inv in H as (s & Hs & [= <- <-]).
  pose proof (from_le_nonneg (slice data i (i + 2))) as Hl.
  unfold int_from_bytes in *. cbn [andb] in *.
  set (length := from_le (slice data i (i + 2))) in *.
  split; [lia|]. intros Hj. apply utf8_roundtrip in Hs.
  cbn. rewrite Hs, bind_OK. rewrite len_slice by lia.
  replace (i + 2 + length - (i + 2)) with length by lia.
  destruct (U2_ok data i length (i + 2) Hi eq_refl) as [_ Hu].
  cbn in Hu. rewrite Hu by lia. rewrite bind_OK. f_equal. apply slice_app; lia.
Qed.

Lemma seq_loop_ok {A} (f : codec A) `{!CodecOk f} data n : ∀ i acc vs j,
  0 <= i → seq_loop (inner f) data n i acc = OK (vs, j) →
  i <= j ∧ ∃ es, vs = acc ++ es ∧ length es = n ∧
    (j <= len data → join_map (unparser f) es = OK (slice data i j)).
Proof.
  induction n as [|n IH]; intros i acc vs j Hi H.
  - injection H as <- <-. split; [lia|]. exists []. rewrite app_nil_r.
    repeat split. intros _. by rewrite slice_nil.
  - cbn [seq_loop] in H. unfold with_note in H.
    apply bind_OK_inv in H as ([e i1] & He & H). cbv beta iota in H.
    apply codec_ok in He as [Hle Hun]; [|done].
    apply IH in H as (Hle' & es & -> & Hlen & Hjoin); [|lia].
    split; [lia|]. exists (e :: es). rewrite <- app_assoc. repeat split; [cbn; lia|].
    intros Hj. cbn [join_map]. rewrite Hun, bind_OK by lia.
    rewrite Hjoin, bind_OK by done. f_equal. apply slice_app; lia.
Qed.

(** [seq] with any sound length codec: the count that was read, and the
    round trip when that count is not negative (a negative count reads as
    an empty list, which unparses with the count 0). *)
Lemma seq_ok_count {A} (f : codec A) (l : codec Z) `{!CodecOk f} `{!CodecOk l} data i v j :
  0 <= i → inner (seq f l) data i = OK (v, j) →
  ∃ count i1, inner l data i = OK (count, i1) ∧ i <= j ∧
    (0 <= count → j <= len data → unparser (seq f l) v = OK (slice data i j)).
Proof.
  intros Hi H. cbn in H. unfold with_note in H.
  apply bind_OK_inv in H as ([count i1] & Hl & H). cbv beta iota in H.
  exists count, i1. split; [done|].
  apply codec_ok in Hl as [Hle Hun]; [|done].
  destruct (Z.ltb_spec count (len data)); [|done].
  apply seq_loop_ok in H as (Hle' & es & -> & Hlen & Hjoin); [|done|lia].
  split; [lia|]. intros Hc Hj. cbn. unfold get_unparser.
  replace (len es) with count by (unfold len; lia).
  rewrite Hun, bind_OK by lia. rewrite Hjoin, bind_OK by done.
  f_equal. apply slice_app; lia.
Qed.

#[global] Instance seq_ok {A} (f : codec A) `{!CodecOk f} : CodecOk (seq f (U 2)).
Proof.
  intros data i v j Hi H.
  destruct (seq_ok_count f (U 2) data i v j Hi H) as (count & i1 & Hl & Hle & Hrt).
  apply U_value in Hl as [Hc _]. split; [done|]. by apply Hrt.
Qed.

#[global] Instance pair_ok {A B} (f : codec A) (g : codec B) `{!CodecOk f} `{!CodecOk g} :
  CodecOk (pair f g).
Proof.
  intros data i v j Hi H. cbn in H. unfold with_note in H.
  apply bind_OK_inv in H as ([a i1] & Ha & H). cbv beta iota in H.
  apply bind_OK_inv in H as ([b i2] & Hb & H). cbv beta iota in H.
  injection H as <- <-.
  apply codec_ok in Ha as [Hle1 Hun1]; [|done].
  apply codec_ok in Hb as [Hle2 Hun2]; [|lia].
  split; [lia|]. intros Hj. cbn. unfold get_unparser.
  rewrite Hun1, bind_OK by lia. rewrite Hun2, bind_OK by lia.
  f_equal. apply slice_app; lia.
Qed.

End combinators.

Section records.

Import Patcher.

(** One field of [Parser.parse]: the parser returned, it moved forward,
    and inside the buffer its value unparses to the bytes it read. *)
Ltac field H :=
  let Hm := fresh "Hm" in
  apply bind_OK_inv in H as ([? ?] & Hm & H); cbv beta iota in H;
  apply codec_ok in Hm as [? ?]; [|lia].

(** The fields of [Parser.unparse], each replaced by the slice it was
    parsed from, and the slices joined. *)
Ltac unparse_fields :=
  unfold get_unparser;
  repeat match goal with
         | Hun : _ → unparser ?c ?v = OK _ |- context [unparser ?c ?v] =>
             rewrite Hun by lia; clear Hun
         end;
  rewrite ?bind_OK; f_equal; rewrite ?app_nil_r; rewrite ?slice_app by lia;
  try reflexivity.

#[global] Instance Point_ok : CodecOk Point.codec.
Proof.
  intros data i v j Hi H. cbn [inner Point.codec] in H.
  unfold Point.parse, with_note in H.
  destruct (Z.leb_spec (len data) i); [done|].
  field H. field H. injection H as <- <-.
  split; [lia|]. intros Hj. cbn [unparser Point.codec].
  unfold Point.unparse. cbn [Point.x Point.y]. unparse_fields.
Qed.

#[global] Instance LinkedComponent_ok : CodecOk LinkedComponent.codec.
Proof.
  intros data i v j Hi H. cbn [inner LinkedComponent.codec] in H.
  unfold LinkedComponent.parse, with_note in H.
  destruct (Z.leb_spec (len data) i); [done|].
  do 4 field H. injection H as <- <-.
  split; [lia|]. intros Hj. cbn [unparser LinkedComponent.codec].
  unfold LinkedComponent.unparse.
  cbn [LinkedComponent.permanent_id LinkedComponent.inner_id LinkedComponent.name
       LinkedComponent.offset].
  unparse_fields.
Qed.

#[global] Instance CustomCompData_ok : CodecOk CustomCompData.codec.
Proof.
  intros data i v j Hi H. cbn [inner CustomCompData.codec] in H.
  unfold CustomCompData.parse, with_note in H.
  destruct (Z.leb_spec (len data) i); [done|].
  do 2 field H. injection H as <- <-.
  split; [lia|]. intros Hj. cbn [unparser CustomCompData.codec].
  unfold CustomCompData.unparse.
  cbn [CustomCompData.custom_id CustomCompData.static_states].
  unparse_fields.
Qed.

#[global] Instance Component_ok : CodecOk Component.codec.
Proof.
  intros data i v j Hi H. cbn [inner Component.codec] in H.
  unfold Component.parse, with_note in H.
  change Point.parse with (inner Point.codec) in H.
  change CustomCompData.parse with (inner CustomCompData.codec) in H.
  destruct (Z.leb_spec (len data) i); [done|].
  do 11 field H.
  apply bind_OK_inv in H as ([cd i12] & Hcd & H). cbv beta iota in H.
  injection H as <- <-.
  match type of Hcd with (if Component.custom_data_if ?k then _ else _) = _ =>
    destruct (Component.custom_data_if k) eqn:Hk end.
  - field Hcd. injection Hcd as <- <-.
    split; [lia|]. intros Hj. cbn [unparser Component.codec].
    unfold Component.unparse.
    cbn [Component.component_kind Component.position Component.rotation
         Component.permanent_id Component.custom_string Component.settings
         Component.buffer_size Component.ui_order Component.word_size
         Component.linked_components Component.selected_programs
         Component.custom_data].
    rewrite Hk. unparse_fields.
  - injection Hcd as <- <-.
    split; [lia|]. intros Hj. cbn [unparser Component.codec].
    unfold Component.unparse.
    cbn [Component.component_kind Component.position Component.rotation
         Component.permanent_id Component.custom_string Component.settings
         Component.buffer_size Component.ui_order Component.word_size
         Component.linked_components Component.selected_programs
         Component.custom_data].
    rewrite Hk. unparse_fields.
Qed.

End records.

Section schematic.

Import Patcher.

Ltac field_w H Hw :=
  let Hm := fresh "Hm" in
  apply bind_OK_inv in H as ([? ?] & Hm & H); cbv beta iota in H;
  rewrite Hm, bind_OK in Hw; cbv beta iota in Hw;
  apply codec_ok in Hm as [? ?]; [|lia].

Ltac unparse_fields :=
  unfold get_unparser;
  repeat match goal with
         | Hun : _ → unparser ?c ?v = OK _ |- context [unparser ?c ?v] =>
             rewrite Hun by lia; clear Hun
         end;
  rewrite ?bind_OK.

(** What [Schematic.parse] returns on a well-delimited buffer:
    [Schematic.unparse] gives the buffer back. *)
Lemma Schematic_roundtrip data res j :
  Schematic.parse data 0 = OK (res, j) →
  well_delimited data = true →
  j = len data ∧ Schematic.unparse res = OK data.
Proof.
  intros H Hw. unfold well_delimited, Schematic_layout in Hw.
  unfold Schematic.parse, with_note in H.
  change Point.parse with (inner Point.codec) in H, Hw.
  destruct (Z.leb_spec (len data) 0); [done|].
  do 13 field_w H Hw.
  apply bind_OK_inv in H as ([comps i14] & Hc & H). cbv beta iota in H.
  match type of Hc with inner _ _ ?i = _ =>
    assert (0 <= i) as Hi13 by lia;
    destruct (seq_ok_count Component.codec (S 8) data i comps i14 Hi13 Hc)
      as (count & i1 & Hl & Hle & Hrt)
  end.
  rewrite Hl, bind_OK in Hw. cbv beta iota in Hw.
  rewrite Hc, bind_OK in Hw. cbv beta iota in Hw.
  apply andb_true_iff in Hw as [Hcount%Z.leb_le Hk%Z.leb_le].
  specialize (Hrt Hcount Hk).
  cbn [inner remainder] in H. injection H as <- <-. split; [done|].
  unfold Schematic.unparse.
  cbn [Schematic.custom_id Schematic.hub_id Schematic.gate Schematic.delay
       Schematic.menu_visible Schematic.clock_speed Schematic.dependencies
       Schematic.description Schematic.camera_position Schematic.synced
       Schematic._dummy Schematic.player_data Schematic.hub_description
       Schematic.components Schematic.wires].
  unparse_fields. unfold get_unparser. rewrite Hrt, bind_OK.
  cbn [unparser remainder]. rewrite bind_OK. f_equal.
  rewrite slice_slice_from by lia.
  repeat (rewrite slice_slice_from by lia).
  apply slice_from_0.
Qed.

End schematic.

(* ===================================================================== *)
(** * The patch                                                           *)
(* ===================================================================== *)

Section patch.

Import Patcher.

Implicit Types (h : list Component.t) (c r p : Component.t).

Lemma filter_ext_in {A} (P Q : A → Prop) `{!∀ x, Decision (P x), !∀ x, Decision (Q x)}
    (l : list A) :
  (∀ x, x ∈ l → P x ↔ Q x) → filter P l = filter Q l.
Proof.
  induction l as [|a l IH]; intros HPQ; [done|].
  rewrite !filter_cons.
  rewrite IH by (intros x Hx; apply HPQ; by right).
  apply decide_ext, HPQ. by left.
Qed.

(** The addresses whose object satisfies [Q], dereferenced, are the
    objects that satisfy [Q]. *)
Lemma addr_filter_from (Q : Component.t → Prop) `{!∀ c, Decision (Q c)} h : ∀ pre,
  (fun a => (pre ++ h) !!! a)
    <$> filter (fun a => Q ((pre ++ h) !!! a)) (List.seq (length pre) (length h))
  = filter Q h.
Proof.
  induction h as [|c h IH]; intros pre; [done|].
  cbn [length List.seq]. rewrite (filter_cons Q), filter_cons.
  rewrite list_lookup_total_middle by done.
  specialize (IH (pre ++ [c])). rewrite <- app_assoc, length_app in IH.
  cbn [app length] in IH. rewrite Nat.add_1_r in IH.
  destruct (decide (Q c)).
  - cbn [fmap list_fmap]. rewrite list_lookup_total_middle by done. f_equal. exact IH.
  - exact IH.
Qed.

Lemma addr_filter (Q : Component.t → Prop) `{!∀ c, Decision (Q c)} h :
  (fun a => h !!! a) <$> filter (fun a => Q (h !!! a)) (List.seq 0 (length h)) = filter Q h.
Proof. apply (addr_filter_from Q h []). Qed.

(** [l.remove(x)] drops [x] itself when no other item of [l] equals it. *)
Lemma list_remove_first h x : ∀ l,
  NoDup l → x ∈ l → (∀ a, a ∈ l → a ≠ x → h !!! a ≠ h !!! x) →
  list_remove h l x = OK (filter (fun a => a ≠ x) l).
Proof.
  induction l as [|a l IH]; intros Hnd Hx Hne; [by apply elem_of_nil in Hx|].
  apply NoDup_cons in Hnd as [Ha Hnd]. cbn [list_remove].
  destruct (decide (a = x)) as [->|Hax].
  - rewrite bool_decide_eq_true_2 by done. cbn [orb].
    rewrite filter_cons_False by naive_solver.
    f_equal. symmetry. clear IH Hne Hx Hnd.
    induction l as [|b l IH]; [done|].
    rewrite filter_cons_True; [|intros ->; apply Ha; by left].
    f_equal. apply IH. intros Hx. apply Ha. by right.
  - rewrite bool_decide_eq_false_2 by done.
    rewrite bool_decide_eq_false_2 by (apply Hne; [by left|done]). cbn [orb].
    apply elem_of_cons in Hx as [->|Hx]; [done|].
    rewrite IH; [|done|done|intros b Hb; apply Hne; by right].
    rewrite bind_OK. by rewrite filter_cons_True.
Qed.

Lemma sort_by_two key a b :
  sort_by key [a; b] = if key a <=? key b then [a; b] else [b; a].
Proof. done. Qed.

Lemma set_word_size_kind v c :
  Component.component_kind (Component.set_word_size v c) = Component.component_kind c.
Proof. done. Qed.

Lemma set_word_size_buffer v c :
  Component.buffer_size (Component.set_word_size v c) = Component.buffer_size c.
Proof. done. Qed.

Lemma ram_addrs_deref res :
  (fun a => Schematic.components res !!! a) <$> ram_addrs (Schematic.components res)
  = ram_components res.
Proof. apply (addr_filter is_ram (Schematic.components res)). Qed.

Lemma patch_unfold res :
  patch res =
  let h := Schematic.components res in
  let components := List.seq 0 (length h) in
  if negb (len (ram_addrs h) =? 2) then Raise ValueError
  else
    match sort_by (fun a => Component.buffer_size (h !!! a)) (ram_addrs h) with
    | [reg_file; program] =>
        if negb (Component.buffer_size (h !!! reg_file) =? 256) then Raise ValueError
        else if negb (Component.buffer_size (h !!! program) =? 65536) then Raise ValueError
        else
          let h := <[reg_file := Component.set_word_size 16 (h !!! reg_file)]> h in
          let h := <[program := Component.set_word_size 32 (h !!! program)]> h in
          components ← list_remove h components reg_file;
          components ← list_remove h components program;
          OK (Schematic.set_components
                ((fun a => h !!! a) <$> ((components ++ [reg_file]) ++ [program])) res)
    | _ => Raise ValueError
    end.
Proof. done. Qed.

(** The refused shapes. *)
Lemma patch_unexpected_shape res : unexpected_shape res → patch res = Raise ValueError.
Proof.
  intros Hs. unfold unexpected_shape in Hs.
  rewrite patch_unfold. cbv zeta.
  pose proof (ram_addrs_deref res) as Hd.
  set (h := Schematic.components res) in *.
  destruct Hs as [Hlen|(c1 & c2 & Hr & Hsz)].
  - rewrite <- Hd, length_fmap in Hlen.
    destruct (Z.eqb_spec (len (ram_addrs h)) 2) as [E|]; [|done].
    unfold len in E. lia.
  - rewrite Hr in Hd.
    destruct (ram_addrs h) as [|a [|b [|? ?]]] eqn:Ha; try done.
    injection Hd as H1 H2. cbn [negb Z.eqb len length Z.of_nat Pos.of_succ_nat Pos.succ Pos.eqb].
    rewrite sort_by_two, H1, H2.
    destruct (Z.leb_spec (Component.buffer_size c1) (Component.buffer_size c2)).
    + rewrite H1, H2.
      destruct (Z.eqb_spec (Component.buffer_size c1) 256); [|done].
      destruct (Z.eqb_spec (Component.buffer_size c2) 65536); [|done].
      exfalso. apply Hsz. by left.
    + rewrite H1, H2.
      destruct (Z.eqb_spec (Component.buffer_size c2) 256); [|done].
      destruct (Z.eqb_spec (Component.buffer_size c1) 65536); [|done].
      exfalso. apply Hsz. by right.
Qed.

Lemma other_addrs_deref res :
  (fun a => Schematic.components res !!! a)
    <$> filter (fun a => ¬ is_ram (Schematic.components res !!! a))
          (List.seq 0 (length (Schematic.components res)))
  = other_components res.
Proof.
  unfold other_components.
  exact (addr_filter (fun c => ¬ is_ram c) (Schematic.components res)).
Qed.

(** The accepted shape: both word sizes are set and the two components
    are moved to the end, the one with the buffer of 256 first. *)
Lemma patch_two_rams res r p :
  two_rams res r p →
  patch res
  = OK (Schematic.set_components
          (other_components res
           ++ [Component.set_word_size 16 r; Component.set_word_size 32 p]) res).
Proof.
  intros (Hrams & Hr & Hp). rewrite patch_unfold. cbv zeta.
  pose proof (ram_addrs_deref res) as Hd.
  pose proof (other_addrs_deref res) as Ho.
  set (h := Schematic.components res) in *.
  set (key := fun a => Component.buffer_size (h !!! a)).
  (* the two addresses, in the order of their buffer sizes *)
  assert (∃ reg prog,
            sort_by key (ram_addrs h) = [reg; prog] ∧ len (ram_addrs h) = 2 ∧
            h !!! reg = r ∧ h !!! prog = p ∧
            ram_addrs h ≡ₚ [reg; prog]) as (reg & prog & Hsort & Hlen & Hreg & Hprog & Hperm).
  { destruct (ram_addrs h) as [|a [|b [|? ?]]] eqn:Ha;
      try (destruct Hrams as [E|E]; rewrite E in Hd; done).
    rewrite sort_by_two. unfold key.
    destruct Hrams as [E|E]; rewrite E in Hd; injection Hd as H1 H2; rewrite H1, H2, Hr, Hp.
    - exists a, b. by repeat split.
    - exists b, a. repeat split; try done. apply Permutation_swap. }
  rewrite Hsort, Hlen. cbn [Z.eqb Pos.eqb negb]. rewrite Hreg, Hprog, Hr, Hp.
  cbn [Z.eqb Pos.eqb negb].
  (* what the addresses are *)
  assert (∀ a, a ∈ List.seq 0 (length h) →
               (Component.component_kind (h !!! a) = 118 ↔ a = reg ∨ a = prog)) as Hram.
  { intros a Ha. split.
    - intros Hk. assert (a ∈ ram_addrs h) as Hin by (by apply list_elem_of_filter).
      rewrite Hperm, !elem_of_cons, elem_of_nil in Hin. tauto.
    - intros Hor. assert (a ∈ ram_addrs h) as Hin.
      { rewrite Hperm, !elem_of_cons. tauto. }
      by apply list_elem_of_filter in Hin as [? _]. }
  assert (reg ∈ List.seq 0 (length h) ∧ prog ∈ List.seq 0 (length h) ∧ reg ≠ prog)
    as (Hreg_in & Hprog_in & Hne).
  { assert (NoDup [reg; prog]) as Hnd.
    { rewrite <- Hperm. apply NoDup_filter, NoDup_seq. }
    assert (∀ a, a ∈ [reg; prog] → a ∈ List.seq 0 (length h)) as Hin.
    { intros a Ha. rewrite <- Hperm in Ha. unfold ram_addrs in Ha.
      by apply list_elem_of_filter in Ha as [_ ?]. }
    split; [apply Hin; by left|]. split; [apply Hin; right; by left|].
    apply NoDup_cons in Hnd as [Hnd _]. intros ->. apply Hnd. by left. }
  assert (reg < length h ∧ prog < length h)%nat as [Hreg_lt Hprog_lt].
  { apply elem_of_seq in Hreg_in, Hprog_in. lia. }
  set (h1 := <[reg := Component.set_word_size 16 r]> h).
  set (h2 := <[prog := Component.set_word_size 32 (h1 !!! prog)]> h1).
  assert (h1 !!! prog = p) as Hp1.
  { unfold h1. by rewrite list_lookup_total_insert_ne. }
  assert (h2 !!! reg = Component.set_word_size 16 r) as Hreg2.
  { unfold h2, h1. rewrite list_lookup_total_insert_ne by done.
    by rewrite list_lookup_total_insert_eq. }
  assert (h2 !!! prog = Component.set_word_size 32 p) as Hprog2.
  { unfold h2. rewrite list_lookup_total_insert_eq, Hp1; [done|].
    unfold h1. by rewrite length_insert. }
  assert (∀ a, a ≠ reg → a ≠ prog → h2 !!! a = h !!! a) as Hother.
  { intros a ? ?. unfold h2, h1. by rewrite !list_lookup_total_insert_ne. }
  assert (Component.component_kind r = 118 ∧ Component.component_kind p = 118)
    as [Hkr Hkp].
  { rewrite <- Hreg, <- Hprog.
    split; (apply Hram; [done|]); [by left|by right]. }
  (* the first [remove] drops the register file and nothing before it *)
  rewrite (list_remove_first h2 reg); [|apply NoDup_seq|done|].
  2:{ intros a Ha Hane E. rewrite Hreg2 in E.
      destruct (decide (a = prog)) as [->|Hap].
      - rewrite Hprog2 in E. apply (f_equal Component.buffer_size) in E.
        rewrite !set_word_size_buffer in E. lia.
      - rewrite Hother in E by done. apply (f_equal Component.component_kind) in E.
        rewrite set_word_size_kind, Hkr in E. apply Hram in E; [|done].
        by destruct E. }
  rewrite bind_OK.
  rewrite (list_remove_first h2 prog).
  2:{ apply NoDup_filter, NoDup_seq. }
  2:{ apply list_elem_of_filter. split; [by intros ->|done]. }
  2:{ intros a Ha Hane E. apply list_elem_of_filter in Ha as [Hane' Ha].
      rewrite Hprog2, Hother in E by done. apply (f_equal Component.component_kind) in E.
      rewrite set_word_size_kind, Hkp in E. apply Hram in E; [|done].
      by destruct E. }
  rewrite bind_OK. do 2 f_equal.
  rewrite !fmap_app. cbn [fmap list_fmap]. rewrite Hreg2, Hprog2, <- app_assoc.
  cbn [app]. f_equal. rewrite <- Ho.
  rewrite list_filter_filter.
  rewrite (filter_ext_in (fun a => a ≠ prog ∧ a ≠ reg) (fun a => ¬ is_ram (h !!! a))).
  2:{ intros a Ha. unfold is_ram. rewrite (Hram a Ha). tauto. }
  apply list_fmap_ext. intros i a Hia.
  apply list_elem_of_lookup_2, list_elem_of_filter in Hia as [Hnr Ha].
  apply Hother; intros ->; apply Hnr; unfold is_ram; apply Hram; auto.
Qed.

End patch.

Section patched_bytes.

Import Patcher.

Ltac field H :=
  let Hm := fresh "Hm" in
  apply bind_OK_inv in H as ([? ?] & Hm & H); cbv beta iota in H;
  apply codec_ok in Hm as [? ?]; [|lia].

Ltac unparse_fields :=
  unfold get_unparser;
  repeat match goal with
         | Hun : _ → unparser ?c ?v = OK _ |- context [unparser ?c ?v] =>
             rewrite Hun by lia; clear Hun
         end;
  rewrite ?bind_OK.

(** The [raw] of a parsed component is the span it was parsed from, its
    bytes are what it unparses to, and giving it another word size
    changes the eight bytes of that field only. *)
Lemma Component_parsed data c :
  parsed_in data c →
  Component.unparse c = OK (Component.raw c) ∧
  ∃ pre old post,
    Component.raw c = pre ++ old ++ post ∧ len old = 8 ∧
    int_from_bytes old true = Component.word_size c ∧
    ∀ w, - 2 ^ 63 <= w < 2 ^ 63 →
      Component.unparse (Component.set_word_size w c)
      = OK (pre ++ to_le 8 (w mod 2 ^ 64) ++ post).
Proof.
  intros (i & j & Hi & Hj & H).
  assert (Component.raw c = slice data i j) as Hraw.
  { unfold Component.parse, with_note in H.
    destruct (Z.leb_spec (len data) i); [done|].
    do 12 (apply bind_OK_inv in H as ([? ?] & _ & H); cbv beta iota in H).
    by injection H as <- <-. }
  split.
  { rewrite Hraw. by apply (codec_ok (c := Component.codec) data i c j). }
  rewrite Hraw. clear Hraw.
  unfold Component.parse, with_note in H.
  change Point.parse with (inner Point.codec) in H.
  change CustomCompData.parse with (inner CustomCompData.codec) in H.
  destruct (Z.leb_spec (len data) i); [done|].
  do 8 field H.
  apply bind_OK_inv in H as ([ws i9] & Hws & H). cbv beta iota in H.
  injection Hws as <- <-.
  match type of H with context [slice data ?a (?a + 8)] =>
    set (i8 := a) in * end.
  do 2 field H.
  apply bind_OK_inv in H as ([cd i12] & Hcd & H). cbv beta iota in H.
  injection H as <- <-.
  match type of Hcd with
    (if Component.custom_data_if ?k then _ else OK (None, ?i0)) = _ =>
    assert (i0 <= i12 ∧
            (i12 <= len data →
             (if Component.custom_data_if k
              then match cd with
                   | Some c => get_unparser CustomCompData.codec c
                   | None => Raise TypeError
                   end
              else OK []) = OK (slice data i0 i12))) as (Hle & Hcdun);
    [destruct (Component.custom_data_if k);
     [field Hcd; injection Hcd as <- <-; split; [lia|];
      intros; unfold get_unparser; auto
     |injection Hcd as <- <-; split; [lia|]; intros; by rewrite slice_nil]|]
  end.
  exists (slice data i i8), (slice data i8 (i8 + 8)), (slice data (i8 + 8) i12).
  split; [|split; [|split]].
  - rewrite !slice_app by lia. done.
  - rewrite len_slice by lia. lia.
  - done.
  - intros w Hw. unfold Component.unparse.
    cbn [Component.set_word_size Component.component_kind Component.position
         Component.rotation Component.permanent_id Component.custom_string
         Component.settings Component.buffer_size Component.ui_order
         Component.word_size Component.linked_components
         Component.selected_programs Component.custom_data].
    rewrite Hcdun by lia. unparse_fields.
    change (unparser (S 8) w) with (int_to_bytes w 8 true).
    unfold int_to_bytes. cbn [Z.ltb Z.compare].
    change (2 ^ (8 * 8)) with (2 ^ 64) in *.
    destruct (Z.leb_spec (- 2 ^ 64) (2 * w)); [|lia].
    destruct (Z.ltb_spec (2 * w) (2 ^ 64)); [|lia]. cbn [andb].
    rewrite ?bind_OK. f_equal. change (Z.to_nat 8) with 8%nat.
    rewrite !slice_app by lia. by rewrite !slice_app_tail by lia.
Qed.

End patched_bytes.

Section schematic_bytes.

Import Patcher.

Ltac field_w H Hw :=
  let Hm := fresh "Hm" in
  apply bind_OK_inv in H as ([? ?] & Hm & H); cbv beta iota in H;
  rewrite Hm, bind_OK in Hw; cbv beta iota in Hw;
  apply codec_ok in Hm as [? ?]; [|lia].

Ltac unparse_fields :=
  unfold get_unparser;
  repeat match goal with
         | Hun : _ → unparser ?c ?v = OK _ |- context [unparser ?c ?v] =>
             rewrite Hun by lia; clear Hun
         end;
  rewrite ?bind_OK.

Lemma seq_loop_parsed data n : ∀ i acc vs j,
  0 <= i → j <= len data →
  seq_loop (inner Component.codec) data n i acc = OK (vs, j) →
  ∃ es, vs = acc ++ es ∧ length es = n ∧ Forall (parsed_in data) es ∧
        i <= j ∧ slice data i j = concat (Component.raw <$> es).
Proof.
  induction n as [|n IH]; intros i acc vs j Hi Hj H.
  - injection H as <- <-. exists []. rewrite app_nil_r, slice_nil. by repeat split.
  - cbn [seq_loop] in H. unfold with_note in H.
    apply bind_OK_inv in H as ([e i1] & He & H). cbv beta iota in H.
    pose proof (seq_loop_ok Component.codec data n i1 (acc ++ [e]) vs j) as Hord.
    destruct (codec_ok data i e i1 Hi He) as [Hle Hun].
    destruct (Hord ltac:(lia) H) as [Hle' _].
    apply IH in H as (es & -> & Hlen & Hall & _ & Hsl); [|lia|lia].
    assert (parsed_in data e) as Hpe by (exists i, i1; repeat split; [done|lia|done]).
    exists (e :: es). rewrite <- app_assoc.
    repeat split; [cbn; lia|by constructor|lia|].
    cbn [fmap list_fmap concat]. rewrite <- Hsl.
    destruct (Component_parsed data e Hpe) as [Hraw _].
    change (unparser Component.codec e) with (Component.unparse e) in Hun.
    rewrite Hraw in Hun. specialize (Hun ltac:(lia)). injection Hun as ->.
    symmetry. apply slice_app; lia.
Qed.

Lemma join_map_raw cs :
  Forall (fun c => Component.unparse c = OK (Component.raw c)) cs →
  join_map Component.unparse cs = OK (concat (Component.raw <$> cs)).
Proof.
  induction 1 as [|c cs Hc _ IH]; [done|].
  cbn [join_map fmap list_fmap concat]. by rewrite Hc, bind_OK, IH, bind_OK.
Qed.

Lemma join_map_app {A} (f : A → result bytes) l k a b :
  join_map f l = OK a → join_map f k = OK b → join_map f (l ++ k) = OK (a ++ b).
Proof.
  revert a. induction l as [|x l IH]; intros a Hl Hk.
  - by injection Hl as <-.
  - cbn [app join_map] in *.
    apply bind_OK_inv in Hl as (bx & Hx & Hl).
    apply bind_OK_inv in Hl as (r & Hr & [= <-]).
    rewrite Hx, bind_OK, (IH r Hr Hk), bind_OK. by rewrite <- app_assoc.
Qed.

(** The bytes of a well-delimited schematic: what precedes the
    components, the spans of the components, the wire blob; and the
    bytes of the tree when its component list has been replaced by one of
    the same length. *)
Lemma Schematic_components data res j :
  Schematic.parse data 0 = OK (res, j) →
  well_delimited data = true →
  ∃ head,
    data = head ++ concat (Component.raw <$> Schematic.components res)
                ++ Schematic.wires res ∧
    Forall (parsed_in data) (Schematic.components res) ∧
    ∀ cs body,
      length cs = length (Schematic.components res) →
      join_map Component.unparse cs = OK body →
      Schematic.unparse (Schematic.set_components cs res)
      = OK (head ++ body ++ Schematic.wires res).
Proof.
  intros H Hw. unfold well_delimited, Schematic_layout in Hw.
  unfold Schematic.parse, with_note in H.
  change Point.parse with (inner Point.codec) in H, Hw.
  destruct (Z.leb_spec (len data) 0); [done|].
  do 13 field_w H Hw.
  apply bind_OK_inv in H as ([comps i14] & Hc & H). cbv beta iota in H.
  rewrite Hc in Hw. cbn [inner seq] in Hc. unfold with_note in Hc.
  apply bind_OK_inv in Hc as ([count i13'] & Hl & Hc). cbv beta iota in Hc.
  rewrite Hl, !bind_OK in Hw. cbv beta iota in Hw.
  apply andb_true_iff in Hw as [Hcount%Z.leb_le Hk%Z.leb_le].
  match type of Hl with inner _ _ ?i = _ => set (i13 := i) in * end.
  assert (0 <= i13) as Hi13 by lia.
  destruct (codec_ok data i13 count i13' Hi13 Hl) as [Hle13 Hun13].
  destruct (Z.ltb_spec count (len data)); [|done].
  assert (i13' <= i14) as Hle14.
  { by apply (seq_loop_ok Component.codec data _ i13' [] comps i14) in Hc as [? _]; [|lia]. }
  apply seq_loop_parsed in Hc as (es & -> & Hlen & Hall & _ & Hsl); [|lia|lia].
  cbn [app] in *.
  cbn [inner remainder] in H. injection H as <- <-.
  cbn [Schematic.components Schematic.wires].
  exists (slice data 0 i13'). split; [|split; [done|]].
  - rewrite <- Hsl. rewrite slice_slice_from by lia. rewrite slice_slice_from by lia.
    by rewrite slice_from_0.
  - intros cs body Hcs Hbody. unfold Schematic.unparse.
    cbn [Schematic.set_components Schematic.custom_id Schematic.hub_id
         Schematic.gate Schematic.delay Schematic.menu_visible
         Schematic.clock_speed Schematic.dependencies Schematic.description
         Schematic.camera_position Schematic.synced Schematic._dummy
         Schematic.player_data Schematic.hub_description Schematic.components
         Schematic.wires].
    unparse_fields. cbn [unparser seq remainder]. unfold get_unparser.
    replace (len cs) with count by (unfold len; lia).
    rewrite Hun13 by lia. change (unparser Component.codec) with Component.unparse.
    rewrite bind_OK, Hbody, !bind_OK. f_equal.
    rewrite <- !app_assoc. rewrite !slice_app_tail by lia. done.
Qed.

End schematic_bytes.

Section main.

Import Patcher.

Lemma filter_split_length (l : list Component.t) :
  length l = (length (filter is_ram l) + length (filter (fun c => ¬ is_ram c) l))%nat.
Proof.
  induction l as [|c l IH]; [done|]. rewrite !filter_cons.
  destruct (decide (is_ram c)), (decide (¬ is_ram c)); cbn [length]; try tauto; lia.
Qed.

Lemma filter_split_len (l : list Component.t) :
  len (concat (Component.raw <$> l))
  = len (concat (Component.raw <$> filter is_ram l))
    + len (concat (Component.raw <$> filter (fun c => ¬ is_ram c) l)).
Proof.
  induction l as [|c l IH]; [done|]. rewrite !filter_cons.
  destruct (decide (is_ram c)), (decide (¬ is_ram c));
    cbn [fmap list_fmap concat]; rewrite ?len_app; try tauto; lia.
Qed.

Lemma main_unfold circuit_file fs content res res' out enc :
  fs !! circuit_file = Some content →
  load content = OK res → patch res = OK res' →
  Schematic.unparse res' = OK out → snappy_encode out = OK enc →
  main circuit_file fs
  = (OK tt, <[circuit_file := x0a :: enc]>
              (<[(circuit_file +:+ ".bak")%string := content]> (delete circuit_file fs))).
Proof.
  intros Hfs Hload Hpatch Hun Henc. unfold main.
  rewrite Hfs, Hload, bind_OK, Hpatch, Hun, bind_OK, Henc.
  by rewrite insert_insert_eq.
Qed.

Lemma main_raise circuit_file fs content res e :
  fs !! circuit_file = Some content →
  load content = OK res → patch res = Raise e →
  main circuit_file fs = (Raise e, fs).
Proof.
  intros Hfs Hload Hpatch. unfold main. by rewrite Hfs, Hload, bind_OK, Hpatch.
Qed.

Lemma patched_schematic dc res j r p :
  Schematic.parse dc 0 = OK (res, j) →
  well_delimited dc = true →
  two_rams res r p →
  ∃ head pre_r old_r post_r pre_p old_p post_p,
    dc = head ++ concat (Component.raw <$> Schematic.components res)
            ++ Schematic.wires res ∧
    Component.raw r = pre_r ++ old_r ++ post_r ∧ len old_r = 8 ∧
    int_from_bytes old_r true = Component.word_size r ∧
    Component.raw p = pre_p ++ old_p ++ post_p ∧ len old_p = 8 ∧
    int_from_bytes old_p true = Component.word_size p ∧
    Schematic.unparse
      (Schematic.set_components
         (other_components res
          ++ [Component.set_word_size 16 r; Component.set_word_size 32 p]) res)
    = OK (head ++ (concat (Component.raw <$> other_components res)
                   ++ (pre_r ++ to_le 8 16 ++ post_r)
                   ++ (pre_p ++ to_le 8 32 ++ post_p))
               ++ Schematic.wires res) ∧
    len (head ++ (concat (Component.raw <$> other_components res)
                  ++ (pre_r ++ to_le 8 16 ++ post_r)
                  ++ (pre_p ++ to_le 8 32 ++ post_p))
              ++ Schematic.wires res) = len dc.
Proof.
  intros Hparse Hw (Hrams & Hr & Hp).
  destruct (Schematic_components dc res j Hparse Hw) as (head & Hdc & Hall & Hun).
  assert (r ∈ Schematic.components res ∧ p ∈ Schematic.components res) as [Hrin Hpin].
  { assert (∀ c, c ∈ ram_components res → c ∈ Schematic.components res) as Hin.
    { intros c Hc. by apply list_elem_of_filter in Hc as [_ ?]. }
    split; apply Hin; destruct Hrams as [-> | ->]; rewrite !elem_of_cons; tauto. }
  rewrite Forall_forall in Hall.
  destruct (Component_parsed dc r (Hall r Hrin)) as (_ & pre_r & old_r & post_r & Hr1 & Hr2 & Hr3 & Hr4).
  destruct (Component_parsed dc p (Hall p Hpin)) as (_ & pre_p & old_p & post_p & Hp1 & Hp2 & Hp3 & Hp4).
  exists head, pre_r, old_r, post_r, pre_p, old_p, post_p.
  repeat split; try done.
  - apply Hun.
    + rewrite length_app. cbn [length].
      rewrite (filter_split_length (Schematic.components res)).
      fold (ram_components res). fold (other_components res).
      destruct Hrams as [-> | ->]; cbn [length]; lia.
    + apply join_map_app.
      * apply join_map_raw, Forall_forall. intros c Hc.
        apply list_elem_of_filter in Hc as [_ Hc].
        by destruct (Component_parsed dc c (Hall c Hc)) as [? _].
      * cbn [join_map]. rewrite Hr4, bind_OK by lia. rewrite Hp4, !bind_OK by lia.
        by rewrite app_nil_r.
  - rewrite (f_equal len Hdc). rewrite !len_app.
    rewrite (filter_split_len (Schematic.components res)).
    fold (ram_components res). fold (other_components res).
    assert (len (concat (Component.raw <$> ram_components res))
            = len (Component.raw r) + len (Component.raw p)) as ->.
    { destruct Hrams as [-> | ->]; cbn [fmap list_fmap concat];
        rewrite !len_app; change (len []) with 0; lia. }
    rewrite Hr1, Hp1, !len_app, Hr2, Hp2, !len_to_le. lia.
Qed.

End main.

(** C1 (amended).  When [Schematic.parse] succeeds on a buffer that is
    well delimited (the component count it declares is not negative and
    no field was read past the end of the buffer: the wire blob starts at
    an offset within it), the parse has consumed all of the buffer and
    [unparse] of the decoded tree returns the buffer, byte for byte;
    zero-length sequences, empty strings and an absent [custom_data] are
    covered. *)
Theorem Schematic_unparse_parse (data : bytes) (res : Patcher.Schematic.t) (j : Z) :
  Patcher.Schematic.parse data 0 = OK (res, j) →
  well_delimited data = true →
  j = len data ∧ Patcher.Schematic.unparse res = OK data.
Proof. apply Schematic_roundtrip. Qed.

Lemma Schematic_unparse_parse_witness :
  ∃ res j,
    Patcher.Schematic.parse one_component_schematic 0 = OK (res, j) ∧
    Patcher.Component.custom_data <$> Patcher.Schematic.components res = [None] ∧
    j = len one_component_schematic ∧
    Patcher.Schematic.unparse res = OK one_component_schematic.
Proof.
  eexists _, _. split; [vm_compute; reflexivity|]. split; [reflexivity|].
  apply (Schematic_unparse_parse one_component_schematic);
    [vm_compute; reflexivity|vm_compute; reflexivity].
Defined.

(** A buffer of 60 bytes whose component count is -1: the parse succeeds,
    consumes the 60 bytes and returns no component; [unparse] writes the
    count 0. *)
Lemma negative_component_count_is_not_restored :
  let data := bs (repeat 0 52 ++ repeat 255 8) in
  ∃ res, Patcher.Schematic.parse data 0 = OK (res, len data) ∧
         Patcher.Schematic.unparse res = OK (bs (repeat 0 60)) ∧
         bs (repeat 0 60) ≠ data.
Proof. eexists. split; [vm_compute; reflexivity|]. split; [reflexivity|discriminate]. Qed.

(** A buffer that stops inside the camera position: the missing bytes read
    as zeros, the parse succeeds, and [unparse] writes 60 bytes for the 42
    it was given. *)
Lemma truncated_schematic_is_padded :
  let data := bs (repeat 0 42) in
  ∃ res, Patcher.Schematic.parse data 0 = OK (res, len data) ∧
         Patcher.Schematic.unparse res = OK (bs (repeat 0 60)).
Proof. eexists. split; [vm_compute; reflexivity|reflexivity]. Qed.

(** C2 (amended).  On a file whose schematic decodes without reading past
    the end of the decompressed buffer (of at most [2 ^ 32] bytes, which
    the re-encoder can frame) and holds exactly two components
    of kind 118, [r] with a buffer of 256 and [p] with a buffer of 65536
    in either input order, the patch sets the word size of [r] to 16 and
    that of [p] to 32 and moves both to the end of the component list,
    always [r] before [p] (their input order is kept only when [r] came
    first).  The other components keep their order, and the re-encoded
    schematic is the input byte for byte except for the moved spans and
    the eight bytes of the two word sizes: same bytes before the
    components, same span for every other component, same span for [r]
    and for [p] around the word size, same wire blob.  The original file
    is kept under the [.bak] name and the new one is the version byte and
    the literal-only encoding of those bytes. *)
Theorem patch_sets_word_sizes_and_moves_rams_last
    (circuit_file : String.string) (fs : gmap String.string bytes) (content dc : bytes)
    (res : Patcher.Schematic.t) (j : Z) (r p : Patcher.Component.t) :
  fs !! circuit_file = Some content →
  Patcher.decompress content = OK dc →
  Patcher.Schematic.parse dc 0 = OK (res, j) →
  well_delimited dc = true →
  len dc <= 2 ^ 32 →
  two_rams res r p →
  let res' :=
    Patcher.Schematic.set_components
      (other_components res
       ++ [Patcher.Component.set_word_size 16 r; Patcher.Component.set_word_size 32 p])
      res in
  Patcher.patch res = OK res' ∧
  ∃ head pre_r old_r post_r pre_p old_p post_p out enc,
    dc = head ++ concat (Patcher.Component.raw <$> Patcher.Schematic.components res)
            ++ Patcher.Schematic.wires res ∧
    Patcher.Component.raw r = pre_r ++ old_r ++ post_r ∧ len old_r = 8 ∧
    int_from_bytes old_r true = Patcher.Component.word_size r ∧
    Patcher.Component.raw p = pre_p ++ old_p ++ post_p ∧ len old_p = 8 ∧
    int_from_bytes old_p true = Patcher.Component.word_size p ∧
    out = head ++ (concat (Patcher.Component.raw <$> other_components res)
                   ++ (pre_r ++ to_le 8 16 ++ post_r)
                   ++ (pre_p ++ to_le 8 32 ++ post_p))
               ++ Patcher.Schematic.wires res ∧
    Patcher.Schematic.unparse res' = OK out ∧
    Patcher.snappy_encode out = OK enc ∧
    Patcher.main circuit_file fs
    = (OK tt, <[circuit_file := x0a :: enc]>
                (<[(circuit_file +:+ ".bak")%string := content]>
                   (delete circuit_file fs))).
Proof.
  intros Hfs Hdec Hparse Hw Hlen H2 res'.
  pose proof (patch_two_rams res r p H2) as Hpatch. split; [done|].
  destruct (patched_schematic dc res j r p Hparse Hw H2)
    as (head & pre_r & old_r & post_r & pre_p & old_p & post_p
        & Hdc & Hr1 & Hr2 & Hr3 & Hp1 & Hp2 & Hp3 & Hun & Hout).
  match type of Hun with _ = OK ?o => set (out := o) in * end.
  assert (∃ enc, Patcher.snappy_encode out = OK enc) as [enc Henc].
  { destruct (decide (out = [])) as [E|E].
    - exists []. by rewrite E.
    - assert (len out <= 2 ^ 32) as Hlen' by (rewrite Hout; exact Hlen).
      destruct (snappy_encode_nonempty out E Hlen') as (v & _ & _ & ->). eauto. }
  exists head, pre_r, old_r, post_r, pre_p, old_p, post_p, out, enc.
  repeat split; try done.
  apply main_unfold with (res := res) (res' := res') (out := out); try done.
  unfold Patcher.load. by rewrite Hdec, bind_OK, Hparse.
Qed.

Lemma patch_sets_word_sizes_and_moves_rams_last_witness :
  ∃ dc res j r p,
    Patcher.decompress two_ram_file = OK dc ∧
    Patcher.Schematic.parse dc 0 = OK (res, j) ∧
    two_rams res r p ∧
    let res' :=
      Patcher.Schematic.set_components
        (other_components res
         ++ [Patcher.Component.set_word_size 16 r; Patcher.Component.set_word_size 32 p])
        res in
    Patcher.patch res = OK res' ∧
    ∃ head pre_r old_r post_r pre_p old_p post_p out enc,
      dc = head ++ concat (Patcher.Component.raw <$> Patcher.Schematic.components res)
              ++ Patcher.Schematic.wires res ∧
      Patcher.Component.raw r = pre_r ++ old_r ++ post_r ∧ len old_r = 8 ∧
      int_from_bytes old_r true = Patcher.Component.word_size r ∧
      Patcher.Component.raw p = pre_p ++ old_p ++ post_p ∧ len old_p = 8 ∧
      int_from_bytes old_p true = Patcher.Component.word_size p ∧
      out = head ++ (concat (Patcher.Component.raw <$> other_components res)
                     ++ (pre_r ++ to_le 8 16 ++ post_r)
                     ++ (pre_p ++ to_le 8 32 ++ post_p))
                 ++ Patcher.Schematic.wires res ∧
      Patcher.Schematic.unparse res' = OK out ∧
      Patcher.snappy_encode out = OK enc ∧
      Patcher.main "circuit.data" {[ "circuit.data"%string := two_ram_file ]}
      = (OK tt, <["circuit.data"%string := x0a :: enc]>
                  (<[("circuit.data" +:+ ".bak")%string := two_ram_file]>
                     (delete "circuit.data"%string
                        {[ "circuit.data"%string := two_ram_file ]}))).
Proof.
  eexists _, _, _, _, _.
  split; [vm_compute; reflexivity|].
  split; [vm_compute; reflexivity|].
  split; [split; [right; vm_compute; reflexivity|split; reflexivity]|].
  eapply (patch_sets_word_sizes_and_moves_rams_last "circuit.data"
            {[ "circuit.data"%string := two_ram_file ]} two_ram_file).
  - apply lookup_singleton_eq.
  - vm_compute; reflexivity.
  - vm_compute; reflexivity.
  - vm_compute; reflexivity.
  - vm_compute. discriminate.
  - split; [right; vm_compute; reflexivity|split; reflexivity].
Defined.

(** In [two_ram_schematic] the component with the buffer of 65536 comes
    first; after the patch it comes last: the two RAM components have
    changed places. *)
Lemma patch_reverses_rams_given_larger_first :
  ∃ res j res',
    Patcher.Schematic.parse two_ram_schematic 0 = OK (res, j) ∧
    Patcher.Component.buffer_size <$> Patcher.Schematic.components res = [65536; 256] ∧
    Patcher.patch res = OK res' ∧
    Patcher.Component.buffer_size <$> Patcher.Schematic.components res' = [256; 65536] ∧
    Patcher.Component.word_size <$> Patcher.Schematic.components res' = [16; 32].
Proof.
  eexists _, _, _. split; [vm_compute; reflexivity|]. split; [reflexivity|].
  split; [vm_compute; reflexivity|]. split; reflexivity.
Qed.

(** C7.  When the decoded schematic has zero, one, three or more
    components of kind 118, or two whose buffer sizes are not 256 and
    65536, [main] raises the [ValueError] of its shape checks (the
    UnexpectedShape error) and the files are as they were: nothing has
    been moved or written. *)
Theorem unexpected_shape_fails_before_any_write
    (circuit_file : String.string) (fs : gmap String.string bytes) (content : bytes)
    (res : Patcher.Schematic.t) :
  fs !! circuit_file = Some content →
  Patcher.load content = OK res →
  unexpected_shape res →
  Patcher.main circuit_file fs = (Raise ValueError, fs).
Proof.
  intros Hfs Hload Hshape. apply main_raise with (content := content) (res := res); try done.
  by apply patch_unexpected_shape.
Qed.

Lemma unexpected_shape_fails_before_any_write_witness :
  Patcher.main "circuit.data" {[ "circuit.data"%string := one_component_file ]}
  = (Raise ValueError, {[ "circuit.data"%string := one_component_file ]}).
Proof.
  eapply (unexpected_shape_fails_before_any_write "circuit.data"
            {[ "circuit.data"%string := one_component_file ]} one_component_file).
  - apply lookup_singleton_eq.
  - vm_compute; reflexivity.
  - left. vm_compute. discriminate.
Defined.

(* ===================================================================== *)
(** * The dependency closure of the packager                              *)
(* ===================================================================== *)

Section closure.

Import Packager.

Lemma length_omap_le {A B} (f : A → option B) (l : list A) :
  (length (omap f l) <= length l)%nat.
Proof.
  induction l as [|a l IH]; [done|]. cbn [omap list_omap].
  destruct (f a); cbn [length]; lia.
Qed.

(** A slice of step 1 holds at most [b - a] items. *)
Lemma getslice_length {A} (l : list A) a b r :
  a <= b → getslice l (Slice (Some a) (Some b) (Some 1)) = OK r →
  (length r <= Z.to_nat (b - a))%nat.
Proof.
  intros Hab H. pose proof (len_nonneg l) as Hl.
  unfold getslice, slice_indices in H. cbn in H.
  destruct (Z.ltb_spec (len l) 0); [lia|]. cbn in H.
  injection H as <-. etrans; [apply length_omap_le|]. rewrite length_seq.
  pose proof (len_nonneg l). unfold slice_length, adjust_bound. cbn.
  repeat match goal with |- context [?x <? ?y] => destruct (Z.ltb_spec x y) end;
    rewrite ?Z.div_1_r; lia.
Qed.

Lemma content_slice_length a b self bytes :
  0 <= a → a <= b → fst (content_slice a b self) = OK bytes →
  (length bytes <= Z.to_nat (b - a))%nat.
Proof.
  intros Ha Hab H. unfold content_slice, getrange, __getitem__ in H. unfold_M.
  unfold slice_indices, adjust_bound in H. cbn [start stop step default] in H.
  change (1 =? 0) with false in H. change (1 <? 0) with false in H. cbv beta iota in H.
  destruct (Z.ltb_spec a 0); [lia|]. destruct (Z.ltb_spec b 0); [lia|].
  destruct (Z.ltb_spec (uncompressed_length self) 0); [done|].
  destruct (_uncompress_till _ self) as [[[]|e] self']; [|done].
  destruct (getslice _ _) as [r|e] eqn:Hget; [|done]. cbn in H. injection H as <-.
  apply getslice_length in Hget.
  - etrans; [exact Hget|].
    destruct (Z.ltb_spec (uncompressed_length self) a),
      (Z.ltb_spec (uncompressed_length self) b); lia.
  - destruct (Z.ltb_spec (uncompressed_length self) a),
      (Z.ltb_spec (uncompressed_length self) b); lia.
Qed.

Lemma read_dependencies_length n : ∀ i j self deps,
  fst (read_dependencies n i j self) = OK deps → length deps = n.
Proof.
  induction n as [|n IH]; intros i j self deps H.
  - by injection H as <-.
  - cbn [read_dependencies] in H. unfold_M.
    destruct (content_slice _ _ self) as [[b|e] self']; [|done].
    destruct (read_dependencies n i (j + 1) self') as [[r|e] self''] eqn:Hr; [|done].
    cbn in H. injection H as <-. cbn [length]. f_equal.
    apply (IH i (j + 1) self'). by rewrite Hr.
Qed.

(** A definition lists fewer than 65536 dependencies: the count is read
    from two bytes. *)
Lemma extract_info_dependencies version self id gd deps :
  fst (extract_info version self) = OK (id, gd, deps) → len deps < 65536.
Proof.
  unfold extract_info. destruct (version_ok version); cbn [negb]; [|done].
  unfold_M. intros H.
  repeat match type of H with
         | context [content_slice ?a ?b ?s] =>
             let Hs := fresh "Hs" in
             destruct (content_slice a b s) as [[?|?] ?] eqn:Hs; [|done]
         end.
  match type of H with context [read_dependencies ?n ?i ?j ?s] =>
    destruct (read_dependencies n i j s) as [[r|?] ?] eqn:Hr; [|done] end.
  cbn in H. injection H as <- <- <-.
  apply (f_equal fst) in Hr. cbn [fst] in Hr. apply read_dependencies_length in Hr.
  unfold len. rewrite Hr.
  match goal with |- context [int_from_bytes ?b false] =>
    pose proof (from_le_bound b) as Hb; pose proof (from_le_nonneg b) as Hn;
    assert (length b <= 2)%nat as Hl;
    [match goal with Hs : content_slice ?a (?a + 2) ?s = (OK b, _) |- _ =>
       etrans;
       [apply (content_slice_length a (a + 2) s);
        [destruct (bool_decide _); lia|lia|by rewrite Hs]|lia] end|];
    assert (2 ^ (8 * len b) <= 2 ^ 16)
      by (apply Z.pow_le_mono_r; unfold len; lia)
  end.
  unfold int_from_bytes. cbn [andb]. change (2 ^ 16) with 65536 in *. lia.
Qed.

Lemma pop_length queue q x : pop queue = Some (q, x) → length queue = S (length q).
Proof.
  unfold pop. destruct (last queue) as [y|] eqn:Hl; [|done]. intros [= <- <-].
  apply last_Some in Hl as [l' ->]. rewrite length_app. cbn [length].
  rewrite length_take, length_app. cbn [length]. lia.
Qed.

Lemma pop_None queue : pop queue = None → queue = [].
Proof.
  unfold pop. destruct (last queue) eqn:Hl; [done|]. intros _.
  by apply last_None in Hl.
Qed.

Lemma difference_union_singleton (X Y : gset Z) x : X ∖ ({[x]} ∪ Y) = (X ∖ Y) ∖ {[x]}.
Proof.
  apply set_eq. intros y.
  rewrite !elem_of_difference, elem_of_union, elem_of_singleton. tauto.
Qed.

(** The loop of [collect_files] ends before its fuel does: more fuel
    changes nothing. *)
Lemma closure_fuel_enough fuel : ∀ ccs queue to_extract extra,
  closure_measure ccs queue to_extract <= Z.of_nat fuel →
  closure (fuel + extra) ccs queue to_extract = closure fuel ccs queue to_extract.
Proof.
  induction fuel as [|fuel IH]; intros ccs queue te extra Hm.
  - assert (queue = []) as ->.
    { unfold closure_measure in Hm. destruct queue; [done|rewrite len_cons in Hm].
      pose proof (len_nonneg queue). lia. }
    by destruct extra.
  - cbn [Nat.add closure].
    destruct (pop queue) as [[q ccid]|] eqn:Hpop; [|done].
    apply pop_length in Hpop. unfold closure_measure, len in Hm.
    destruct (bool_decide (ccid ∈ te)) eqn:Hin.
    { apply IH. unfold closure_measure, len. lia. }
    apply bool_decide_eq_false in Hin.
    destruct (ccs !! ccid) as [[[cc_name e] [v dc]]|] eqn:Hcc; [|done].
    destruct (extract_info v dc) as [r dc'] eqn:Hr. cbn [fst snd].
    destruct r as [[[id gd] deps]|err]; [|done]. cbn.
    destruct (bool_decide (0 ∈ deps)); [done|].
    apply IH. unfold closure_measure, len.
    pose proof (extract_info_dependencies v dc id gd deps) as Hd.
    rewrite Hr in Hd. specialize (Hd eq_refl). unfold len in Hd.
    rewrite dom_insert_lookup_L by (by eexists).
    assert ({[ccid]} ⊆ dom ccs ∖ te) as Hsub.
    { apply singleton_subseteq_l, elem_of_difference. split; [|done].
      apply elem_of_dom. by eexists. }
    rewrite difference_union_singleton, size_difference by done.
    pose proof (subseteq_size _ _ Hsub) as Hpos.
    rewrite size_singleton in *. rewrite length_app. lia.
Qed.

Lemma closure_fuel_measure ccs queue :
  closure_measure ccs queue ∅ = Z.of_nat (closure_fuel ccs queue).
Proof.
  unfold closure_measure, closure_fuel. rewrite difference_empty_L, size_dom.
  pose proof (len_nonneg queue). lia.
Qed.

(** One round of the loop on an id not yet visited whose definition lists
    the id 0: the assertion fails. *)
Lemma closure_zero_in_definition fuel ccs queue q ccid to_extract cc_name e v dc id gd deps :
  pop queue = Some (q, ccid) → ccid ∉ to_extract →
  ccs !! ccid = Some (cc_name, e, (v, dc)) →
  fst (extract_info v dc) = OK (id, gd, deps) → 0 ∈ deps →
  closure (S fuel) ccs queue to_extract = Raise AssertionError.
Proof.
  intros Hpop Hnin Hcc Hinfo H0. cbn [closure]. rewrite Hpop.
  rewrite bool_decide_eq_false_2 by done. rewrite Hcc. cbn [fst snd].
  rewrite Hinfo. cbn. by rewrite bool_decide_eq_true_2.
Qed.

End closure.

(** C8 (the code departs from the specification).  An architecture whose own
    dependency list is [[0]]: with a component-factory file of id 0 in the
    catalog, [collect_files] returns normally and packs that file; with
    no such file it raises the [ValueError] of a missing component, not the
    corruption assertion.  Only a 0 in the list of a visited definition
    fails the assertion, as for an architecture that depends on a
    component 1 whose own list is [[0]]. *)
Theorem zero_in_target_dependencies_is_not_refused :
  Packager.collect_files "arch" (Some (prefix_file 5 [0]))
    [("cc"%string, "component_factory/cc/circuit.data"%string, prefix_file 0 [])]
  = OK (<["cc"%string := "component_factory/cc/circuit.data"%string]>
          {[ "arch"%string := "schematics/architecture/arch/circuit.data"%string ]},
        7, 9) ∧
  Packager.collect_files "arch" (Some (prefix_file 5 [0])) [] = Raise ValueError ∧
  Packager.collect_files "arch" (Some (prefix_file 5 [1]))
    [("cc"%string, "component_factory/cc/circuit.data"%string, prefix_file 1 [0])]
  = Raise AssertionError.
Proof. repeat split; vm_compute; reflexivity. Qed.

(* ===================================================================== *)
(** * Varints at an offset                                                *)
(* ===================================================================== *)

Section varint_offsets.

Lemma bytes_from_app (pre l : bytes) : bytes_from (pre ++ l) (len pre) = l.
Proof.
  unfold bytes_from. pose proof (len_nonneg pre). pose proof (len_nonneg (pre ++ l)).
  destruct (Z.ltb_spec (len pre) (- len (pre ++ l))); [lia|].
  destruct (Z.ltb_spec (len pre) 0); [lia|].
  unfold len. rewrite Nat2Z.id. by rewrite drop_app_length.
Qed.

Lemma bytes_from_drop (data : bytes) start :
  0 <= start → bytes_from data start = drop (Z.to_nat start) data.
Proof.
  intros. unfold bytes_from. pose proof (len_nonneg data).
  destruct (Z.ltb_spec start (- len data)); [lia|].
  by destruct (Z.ltb_spec start 0); [lia|].
Qed.

Lemma make_varint_small n : 0 <= n <= 127 → Patcher.make_varint n = OK [z2b n].
Proof.
  intros Hn. unfold Patcher.make_varint.
  destruct (Z.to_nat (Z.log2 n)); cbn [Patcher.make_varint_loop].
  - by rewrite byte_of_int_ok by lia.
  - destruct (Z.ltb_spec 127 n); [lia|]. by rewrite byte_of_int_ok by lia.
Qed.

Lemma make_varint_negative n : n < 0 → Patcher.make_varint n = Raise ValueError.
Proof.
  intros Hn. unfold Patcher.make_varint.
  rewrite Z.log2_nonpos by lia. change (Z.to_nat 0) with O.
  cbn [Patcher.make_varint_loop].
  unfold byte_of_int. destruct (Z.leb_spec 0 n); [lia|]. reflexivity.
Qed.

Lemma patcher_loop_stuck ahead : ∀ out j i,
  Forall (fun b => 128 <= b2z b) ahead →
  Patcher.read_varint_loop ahead out j i = Raise IndexError.
Proof.
  induction ahead as [|b ahead IH]; intros out j i Hall; [done|].
  apply Forall_cons in Hall as [Hb Hall]. cbn [Patcher.read_varint_loop].
  rewrite high_bit. destruct (Z.ltb_spec (b2z b) 128); [lia|]. by apply IH.
Qed.

Lemma packager_loop_stuck ahead : ∀ out i,
  Forall (fun b => 128 <= b2z b) ahead →
  Packager.read_varint_loop ahead out i = Raise IndexError.
Proof.
  induction ahead as [|b ahead IH]; intros out i Hall; [done|].
  apply Forall_cons in Hall as [Hb Hall]. cbn [Packager.read_varint_loop].
  rewrite high_bit. destruct (Z.ltb_spec (b2z b) 128); [lia|]. by apply IH.
Qed.

Lemma read_varint_without_end_aux (data : bytes) (start : Z) :
  0 <= start →
  Forall (fun b => 128 <= b2z b) (drop (Z.to_nat start) data) →
  Patcher.read_varint data start = Raise IndexError ∧
  Packager.read_varint data start = Raise IndexError ∧
  Patcher.__init__ data start = Raise IndexError ∧
  Packager.__init__ data start = Raise IndexError.
Proof.
  intros Hs Hall.
  assert (Patcher.read_varint data start = Raise IndexError) as H1.
  { unfold Patcher.read_varint. rewrite bytes_from_drop by done.
    by apply patcher_loop_stuck. }
  assert (Packager.read_varint data start = Raise IndexError) as H2.
  { unfold Packager.read_varint. rewrite bytes_from_drop by done.
    by apply packager_loop_stuck. }
  unfold Patcher.__init__, Packager.__init__. by rewrite H1, H2.
Qed.

End varint_offsets.

(** X1.  [make_varint] and the patcher's [read_varint] are inverse to each
    other wherever the varint stands: for [n >= 0], [make_varint(n)]
    returns a well-formed varint [v], and reading at the offset where [v]
    starts, whatever precedes and follows it, returns [n] and the offset
    just after [v].  Up to 127 the varint is the single byte [n] and the
    packager's reader returns [n] on it too.  A negative [n] raises
    [ValueError] (the final [out.append(n)]). *)
Theorem make_varint_read_back :
  (∀ (n : Z) (pre rest : bytes),
     0 <= n →
     ∃ v, Patcher.make_varint n = OK v ∧ is_varint v = true ∧
          Patcher.read_varint (pre ++ v ++ rest) (len pre) = OK (n, len pre + len v) ∧
          (n <= 127 →
           v = [z2b n] ∧
           Packager.read_varint (pre ++ v ++ rest) (len pre) = OK (n, len pre + 1))) ∧
  (∀ n : Z, n < 0 → Patcher.make_varint n = Raise ValueError).
Proof.
  split; [|apply make_varint_negative].
  intros n pre rest Hn.
  destruct (make_varint_ok n Hn) as (v & Hv & Hvar & Hval).
  exists v. split; [done|]. split; [done|]. split.
  - unfold Patcher.read_varint. rewrite bytes_from_app.
    rewrite patcher_loop by (done || lia). rewrite Hval. do 2 f_equal. lia.
  - intros Hsmall. rewrite make_varint_small in Hv by lia. injection Hv as <-.
    split; [done|]. unfold Packager.read_varint. rewrite bytes_from_app.
    rewrite packager_loop by (done || lia). cbn.
    rewrite b2z_z2b by lia. rewrite Z.mod_small by lia. do 2 f_equal. lia.
Qed.

Lemma make_varint_read_back_witness :
  (∃ v, Patcher.make_varint 300 = OK v ∧ is_varint v = true ∧
        Patcher.read_varint (bs [10] ++ v ++ bs [7]) 1 = OK (300, 1 + len v)) ∧
  (∃ v, Patcher.make_varint 5 = OK v ∧ v = [z2b 5] ∧
        Packager.read_varint (bs [10] ++ v ++ bs [7]) 1 = OK (5, 2)).
Proof.
  split.
  - destruct (proj1 make_varint_read_back 300 (bs [10]) (bs [7])) as (v & H1 & H2 & H3 & _);
      [lia|].
    exists v. split; [exact H1|]. split; [exact H2|exact H3].
  - destruct (proj1 make_varint_read_back 5 (bs [10]) (bs [7])) as (v & H1 & _ & _ & H4);
      [lia|].
    exists v. split; [exact H1|]. apply H4. lia.
Defined.

(** X2.  A varint that does not end is an [IndexError] in both tools: when
    every byte from [start] on has its high bit set (also when there is no
    byte there: an empty file, a [start] at or past the end), both
    [read_varint] raise [IndexError] at the read past the last byte, and so
    does the construction of a decompressor at that base. *)
Theorem read_varint_without_end (data : bytes) (start : Z) :
  0 <= start →
  Forall (fun b => 128 <= b2z b) (drop (Z.to_nat start) data) →
  Patcher.read_varint data start = Raise IndexError ∧
  Packager.read_varint data start = Raise IndexError ∧
  Patcher.__init__ data start = Raise IndexError ∧
  Packager.__init__ data start = Raise IndexError.
Proof. apply read_varint_without_end_aux. Qed.

Lemma read_varint_without_end_witness :
  (Patcher.read_varint (bs [10; 128; 255]) 1 = Raise IndexError ∧
   Packager.read_varint (bs [10; 128; 255]) 1 = Raise IndexError ∧
   Patcher.__init__ (bs [10; 128; 255]) 1 = Raise IndexError ∧
   Packager.__init__ (bs [10; 128; 255]) 1 = Raise IndexError) ∧
  (Patcher.read_varint (bs [10]) 1 = Raise IndexError ∧
   Packager.read_varint (bs [10]) 1 = Raise IndexError ∧
   Patcher.__init__ (bs [10]) 1 = Raise IndexError ∧
   Packager.__init__ (bs [10]) 1 = Raise IndexError).
Proof.
  split.
  - apply (read_varint_without_end (bs [10; 128; 255]) 1); [lia|].
    repeat constructor; vm_compute; discriminate.
  - apply (read_varint_without_end (bs [10]) 1); [lia|]. constructor.
Defined.

(* ===================================================================== *)
(** * What the decompressor raises, and when                              *)
(* ===================================================================== *)

Section decompressor_errors.

Lemma copy_bytes_result n : ∀ k i self,
  fst (copy_bytes n k i self) = OK tt ∨ fst (copy_bytes n k i self) = Raise IndexError.
Proof.
  induction n as [|n IH]; intros k i self; [by left|].
  cbn [copy_bytes]. unfold_M.
  destruct (getitem _ _) as [b|e] eqn:Hg; cbn.
  - apply IH.
  - right. unfold getitem in Hg.
    repeat match type of Hg with
           | context [if ?c then _ else _] => destruct c
           | context [match ?l !! ?j with _ => _ end] => destruct (l !! j)
           end; congruence.
Qed.

Lemma getitem_result {A} (l : list A) i :
  (∃ x, getitem l i = OK x) ∨ getitem l i = Raise IndexError.
Proof.
  unfold getitem.
  repeat match goal with
         | |- context [if ?c then _ else _] => destruct c
         | |- context [match ?l !! ?j with _ => _ end] => destruct (l !! j)
         end; eauto.
Qed.

Lemma mod4_cases z : z mod 4 = 0 ∨ z mod 4 = 1 ∨ z mod 4 = 2 ∨ z mod 4 = 3.
Proof. pose proof (Z.mod_pos_bound z 4). lia. Qed.

Lemma literal_result self :
  fst (_uncompress_literal self) = OK tt ∨ fst (_uncompress_literal self) = Raise IndexError.
Proof.
  unfold _uncompress_literal. unfold_M.
  destruct (getitem_result (compressed_data self) (index self)) as [[c ->]| ->]; cbn;
    [|by right].
  left. by destruct (60 <=? _).
Qed.

Lemma copy_result self :
  fst (_uncompress_copy self) = OK tt ∨ fst (_uncompress_copy self) = Raise IndexError ∨
  ∃ c, getitem (compressed_data self) (index self) = OK c ∧ Z.land (b2z c) 3 = 0 ∧
       fst (_uncompress_copy self) = Raise ValueError.
Proof.
  unfold _uncompress_copy. unfold_M.
  destruct (getitem_result (compressed_data self) (index self)) as [[c Hc]|Hc];
    rewrite Hc; cbn; [|by right; left].
  rewrite land3. destruct (mod4_cases (b2z c)) as [E|[E|[E|E]]]; rewrite E; cbn.
  - right. right. exists c. by rewrite land3.
  - match goal with |- context [getitem ?l ?i] =>
      destruct (getitem_result l i) as [[c1 ->]| ->] end; cbn; [|by right; left].
    match goal with |- context [copy_bytes ?n ?k ?i ?s] =>
      destruct (copy_bytes_result n k i s) as [->| ->] end; eauto.
  - match goal with |- context [copy_bytes ?n ?k ?i ?s] =>
      destruct (copy_bytes_result n k i s) as [->| ->] end; eauto.
  - match goal with |- context [copy_bytes ?n ?k ?i ?s] =>
      destruct (copy_bytes_result n k i s) as [->| ->] end; eauto.
Qed.

Lemma chunk_result self :
  fst (chunk self) = OK tt ∨ fst (chunk self) = Raise IndexError.
Proof.
  unfold chunk. unfold_M.
  destruct (getitem_result (compressed_data self) (index self)) as [[c Hc]|Hc];
    rewrite Hc; cbn; [|by right].
  destruct (Z.eqb_spec (Z.land (b2z c) 3) 0) as [E|E]; [apply literal_result|].
  destruct (copy_result self) as [H|[H|(c' & Hc' & E' & _)]]; [by left|by right|].
  congruence.
Qed.

Lemma till_loop_result fuel : ∀ upto self,
  fst (till_loop fuel upto self) = OK tt ∨ fst (till_loop fuel upto self) = Raise IndexError.
Proof.
  induction fuel as [|fuel IH]; intros upto self; [by left|].
  cbn [till_loop]. unfold_M. destruct (more upto self); [|by left].
  destruct (chunk_result self) as [H|H]; destruct (chunk self) as [[[]|e] self'];
    cbn in *; first [discriminate | apply IH | by right].
Qed.

End decompressor_errors.

Section step_one_slices.

Lemma omap_lookup_range {A} (l : list A) a :
  0 <= a → ∀ n m,
  omap (fun k : nat => l !! Z.to_nat (a + Z.of_nat k * 1)) (seq m n)
  = take n (drop (Z.to_nat a + m) l).
Proof.
  intros Ha. induction n as [|n IH]; intros m; [done|].
  change (seq m (S n)) with (m :: seq (S m) n).
  change (omap ?f (m :: ?t)) with (match f m with Some y => y :: omap f t | None => omap f t end).
  rewrite IH. replace (Z.to_nat (a + Z.of_nat m * 1)) with (Z.to_nat a + m)%nat by lia.
  destruct (l !! (Z.to_nat a + m)%nat) as [x|] eqn:Hx.
  - rewrite (drop_S _ _ _ Hx). cbn [take]. by rewrite Nat.add_succ_r.
  - apply lookup_ge_None in Hx. rewrite !drop_ge by lia. by rewrite !take_nil.
Qed.

(** [l[a:b]] through a slice object, for bounds that are not negative. *)
Lemma getslice_step1 {A} (l : list A) a b :
  0 <= a → 0 <= b → getslice l (Slice (Some a) (Some b) (Some 1)) = OK (slice l a b).
Proof.
  intros Ha Hb. pose proof (len_nonneg l) as Hl.
  unfold getslice, slice_indices, adjust_bound. cbn.
  destruct (Z.ltb_spec (len l) 0); [lia|].
  destruct (Z.ltb_spec a 0); [lia|]. destruct (Z.ltb_spec b 0); [lia|]. cbn.
  f_equal. unfold slice, clamp, slice_length.
  destruct (Z.ltb_spec a 0); [lia|]. destruct (Z.ltb_spec b 0); [lia|].
  change (1 <? 0) with false. cbv beta iota.
  set (a' := if len l <? a then len l else a).
  set (b' := if len l <? b then len l else b).
  assert (a' = Z.min a (len l)) as Ea by (unfold a'; destruct (Z.ltb_spec (len l) a); lia).
  assert (b' = Z.min b (len l)) as Eb by (unfold b'; destruct (Z.ltb_spec (len l) b); lia).
  rewrite omap_lookup_range by lia. rewrite Nat.add_0_r.
  rewrite <- Ea, <- Eb.
  destruct (Z.ltb_spec a' b').
  - rewrite Z.div_1_r. do 2 f_equal. lia.
  - replace (Z.to_nat (b' - a')) with O by lia. done.
Qed.

End step_one_slices.

Section history.

#[local] Existing Instance extends_refl.
#[local] Existing Instance extends_trans.

Lemma till_done upto self : more upto self = false → _uncompress_till upto self = (OK tt, self).
Proof.
  intros Hm. unfold _uncompress_till.
  destruct (Z.to_nat _); [done|]. cbn [till_loop]. unfold_M. by rewrite Hm.
Qed.

Lemma more_index upto self :
  more upto self = true → index self < len (compressed_data self).
Proof. unfold more. intros [H _]%andb_true_iff. by apply Z.ltb_lt in H. Qed.

Lemma till_step upto self c1 :
  more upto self = true → chunk self = (OK tt, c1) →
  _uncompress_till upto self = _uncompress_till upto c1.
Proof.
  intros Hm Hc. pose proof (more_index _ _ Hm) as Hi.
  destruct (chunk_extends self) as [(E1&_) E2]. rewrite Hc in E1, E2. cbn in E1, E2.
  specialize (E2 eq_refl).
  unfold _uncompress_till.
  destruct (Z.to_nat (len (compressed_data self) - index self)) as [|fuel] eqn:Hf; [lia|].
  cbn [till_loop]. unfold_M. rewrite Hm, Hc.
  replace fuel with (Z.to_nat (len (compressed_data c1) - index c1)
                     + (fuel - Z.to_nat (len (compressed_data c1) - index c1)))%nat
    by (rewrite E1; lia).
  by apply till_loop_fuel.
Qed.

Lemma till_fail upto self e c1 :
  more upto self = true → chunk self = (Raise e, c1) →
  _uncompress_till upto self = (Raise e, c1).
Proof.
  intros Hm Hc. pose proof (more_index _ _ Hm) as Hi. unfold _uncompress_till.
  destruct (Z.to_nat (len (compressed_data self) - index self)) as [|fuel] eqn:Hf; [lia|].
  cbn [till_loop]. unfold_M. by rewrite Hm, Hc.
Qed.

Lemma decoded_extends n : ∀ self, extends self (decoded n self).
Proof.
  induction n as [|n IH]; intros self; [reflexivity|]. cbn [decoded].
  destruct (index self <? len (compressed_data self)); [|reflexivity].
  etrans; [apply chunk_extends|apply IH].
Qed.

Lemma slice_prefix {A} (l k : list A) a b :
  0 <= a → 0 <= b → Z.max a b <= len l → slice (l ++ k) a b = slice l a b.
Proof.
  intros Ha Hb Hm. pose proof (len_nonneg k). unfold slice.
  rewrite !clamp_in by (rewrite ?len_app; lia).
  rewrite drop_app_le by (unfold len in *; lia).
  destruct (Z.le_gt_cases a b).
  - rewrite take_app_le; [done|]. rewrite length_drop. unfold len in *. lia.
  - by replace (Z.to_nat (b - a)) with O by lia.
Qed.

Lemma ranged_done a b self :
  0 <= a → 0 <= b → more (Z.max a b) self = false →
  fst (ranged a b self) = OK (Bytes (slice (uncompressed_data self) a b)).
Proof.
  intros Ha Hb Hm. unfold ranged. unfold_M. rewrite till_done by done.
  by rewrite getslice_step1.
Qed.

Lemma ranged_clean n : ∀ self a b,
  0 <= a → 0 <= b → clean n self →
  fst (ranged a b (decoded n self)) = fst (ranged a b self).
Proof.
  induction n as [|n IH]; intros self a b Ha Hb Hc; [done|].
  cbn [decoded clean] in *.
  destruct (Z.ltb_spec (index self) (len (compressed_data self))) as [Hi|Hi]; [|done].
  destruct Hc as [Hok Hc]. destruct (chunk self) as [r c1] eqn:Hch. cbn in Hok, Hc |- *.
  subst r. destruct (more (Z.max a b) self) eqn:Hm.
  - rewrite (IH c1) by done. unfold ranged. unfold_M.
    by rewrite (till_step _ self c1).
  - pose proof (decoded_extends n c1) as E2.
    destruct (chunk_extends self) as [E1 _]. rewrite Hch in E1. cbn in E1.
    assert (extends self (decoded n c1)) as (Ed & _ & Ei & [ext Ep]) by (by etrans).
    assert (Z.max a b <= len (uncompressed_data self)) as Hlen.
    { unfold more in Hm. apply andb_false_iff in Hm as [Hm|Hm].
      - apply Z.ltb_ge in Hm. lia.
      - by apply Z.ltb_ge in Hm. }
    rewrite !ranged_done; try done.
    + rewrite Ep. by rewrite slice_prefix.
    + unfold more. apply andb_false_iff. right. apply Z.ltb_ge.
      rewrite Ep, len_app. pose proof (len_nonneg ext). lia.
Qed.

Lemma clean_add n : ∀ m self,
  clean n self → clean m (decoded n self) → clean (n + m) self.
Proof.
  induction n as [|n IH]; intros m self Hn Hm; [done|].
  cbn [Nat.add decoded clean] in *.
  destruct (index self <? len (compressed_data self)); [|done].
  destruct Hn as [Hok Hn]. split; [done|]. by apply IH.
Qed.

Lemma till_loop_clean fuel : ∀ upto self,
  fst (till_loop fuel upto self) = OK tt →
  ∃ n, snd (till_loop fuel upto self) = decoded n self ∧ clean n self.
Proof.
  induction fuel as [|fuel IH]; intros upto self; [by exists O|].
  cbn [till_loop]. unfold_M. destruct (more upto self) eqn:Hm; [|by exists O].
  pose proof (more_index _ _ Hm) as Hi.
  destruct (chunk self) as [[[]|e] c1] eqn:Hc; cbn; [|done].
  intros H. destruct (IH upto c1 H) as (n & Hn & Hcl). exists (S n).
  cbn [decoded clean]. destruct (Z.ltb_spec (index self) (len (compressed_data self))); [|lia].
  rewrite Hc. cbn. done.
Qed.

Lemma getitem_clean it self :
  is_ok (fst (__getitem__ it self)) = true →
  ∃ n, snd (__getitem__ it self) = decoded n self ∧ clean n self.
Proof.
  destruct it as [i|s]; cbn [__getitem__]; unfold_M.
  - pose proof (till_loop_clean (Z.to_nat (len (compressed_data self) - index self)) i self)
      as H.
    unfold _uncompress_till.
    destruct (till_loop _ i self) as [[[]|e] self']; cbn in *; [|done].
    intros _. destruct (H eq_refl) as (n & -> & Hn). exists n. split; [|done].
    by destruct (getitem _ _).
  - destruct (slice_indices s _) as [[[a b] st]|e]; cbn; [|done].
    pose proof (till_loop_clean (Z.to_nat (len (compressed_data self) - index self))
                  (Z.max a b) self) as H.
    unfold _uncompress_till.
    destruct (till_loop _ (Z.max a b) self) as [[[]|e] self']; cbn in *; [|done].
    intros _. destruct (H eq_refl) as (n & -> & Hn). exists n. split; [|done].
    by destruct (getslice _ _).
Qed.

Lemma returned_clean its : ∀ self,
  returned its self → ∃ n, after its self = decoded n self ∧ clean n self.
Proof.
  induction its as [|it its IH]; intros self Hr; [by exists O|].
  destruct Hr as [Hok Hr].
  change (after (it :: its) self) with (after its (snd (__getitem__ it self))).
  destruct (getitem_clean it self Hok) as (n & Hn & Hcn).
  destruct (IH _ Hr) as (m & Hm & Hcm). rewrite Hn in Hm, Hcm |- *.
  exists (n + m)%nat. split.
  - by rewrite Hm, decoded_add.
  - by apply clean_add.
Qed.

Lemma slice_indices_None a b n :
  0 <= n →
  ∃ a' b', slice_indices (Slice a b None) n = OK (a', b', 1) ∧ 0 <= a' ∧ 0 <= b'.
Proof.
  intros Hn. unfold slice_indices, adjust_bound. cbn.
  destruct (Z.ltb_spec n 0); [lia|]. eexists _, _. split; [reflexivity|].
  split; [destruct a as [a|]|destruct b as [b|]]; try lia;
    repeat match goal with |- context [?x <? ?y] => destruct (Z.ltb_spec x y) end; lia.
Qed.

Lemma getitem_ranged a b self a' b' :
  slice_indices (Slice a b None) (uncompressed_length self) = OK (a', b', 1) →
  __getitem__ (Sl (Slice a b None)) self = ranged a' b' self.
Proof. intros H. cbn [__getitem__]. unfold ranged. unfold_M. by rewrite H. Qed.

Lemma slice_clean n self a b :
  clean n self →
  fst (__getitem__ (Sl (Slice a b None)) (decoded n self))
  = fst (__getitem__ (Sl (Slice a b None)) self).
Proof.
  intros Hn. destruct (decoded_extends n self) as (_ & Hu & _).
  destruct (Z.lt_ge_cases (uncompressed_length self) 0) as [Hneg|Hpos].
  - cbn [__getitem__]. unfold_M. rewrite Hu. unfold slice_indices. cbn.
    by destruct (Z.ltb_spec (uncompressed_length self) 0); [|lia].
  - destruct (slice_indices_None a b _ Hpos) as (a' & b' & Hi & Ha & Hb).
    rewrite (getitem_ranged a b self a' b') by done.
    rewrite (getitem_ranged a b (decoded n self) a' b') by (by rewrite Hu).
    by apply ranged_clean.
Qed.

End history.

(** X3.  Whatever the stream holds, decoding raises nothing but
    [IndexError]: one round of the loop of [_uncompress_till] returns or
    raises [IndexError], and so do the loop, an element request and a
    slice request without a step (which raises [ValueError] only on a
    decompressor whose declared length is negative, and [read_varint]
    returns none).  The [raise ValueError(bin(tag))] of [_uncompress_copy]
    is never reached from the loop, which sends the tags with low bits
    [00] to [_uncompress_literal]. *)
Theorem decoding_raises_only_IndexError (self : SnappyDecompress) :
  (fst (chunk self) = OK tt ∨ fst (chunk self) = Raise IndexError) ∧
  (∀ upto, fst (_uncompress_till upto self) = OK tt ∨
           fst (_uncompress_till upto self) = Raise IndexError) ∧
  (∀ i, (∃ v, fst (__getitem__ (Int i) self) = OK (Elem v)) ∨
        fst (__getitem__ (Int i) self) = Raise IndexError) ∧
  (∀ a b, (∃ r, fst (__getitem__ (Sl (Slice a b None)) self) = OK (Bytes r)) ∨
          fst (__getitem__ (Sl (Slice a b None)) self) = Raise IndexError ∨
          (uncompressed_length self < 0 ∧
           fst (__getitem__ (Sl (Slice a b None)) self) = Raise ValueError)).
Proof.
  split; [apply chunk_result|]. split; [intros upto; apply till_loop_result|]. split.
  - intros i. cbn [__getitem__]. unfold_M.
    destruct (till_loop_result (Z.to_nat (len (compressed_data self) - index self)) i self)
      as [H|H]; unfold _uncompress_till;
      destruct (till_loop _ i self) as [[[]|e] self']; cbn in *; try discriminate.
    + destruct (getitem_result (uncompressed_data self') i) as [[x ->]| ->]; cbn; eauto.
    + right. congruence.
  - intros a b. destruct (Z.lt_ge_cases (uncompressed_length self) 0) as [Hn|Hn].
    + right. right. split; [done|]. cbn [__getitem__]. unfold_M.
      unfold slice_indices. cbn. by destruct (Z.ltb_spec (uncompressed_length self) 0); [|lia].
    + destruct (slice_indices_None a b _ Hn) as (a' & b' & Hi & Ha & Hb).
      rewrite (getitem_ranged _ _ _ _ _ Hi). unfold ranged. unfold_M.
      destruct (till_loop_result (Z.to_nat (len (compressed_data self) - index self))
                  (Z.max a' b') self) as [H|H]; unfold _uncompress_till;
        destruct (till_loop _ (Z.max a' b') self) as [[[]|e] self'];
        cbn [fst snd] in *; cbv beta iota; try discriminate.
      * left. rewrite getslice_step1 by done. cbn. eauto.
      * right. left. congruence.
Qed.

(** X4.  An element request [self[i]] decodes until [i] bytes are there,
    not [i + 1]: when the output holds exactly [i] bytes the request
    raises [IndexError] and decodes nothing, whatever the stream still
    holds; when a literal chunk ends the output at exactly [i] bytes, the
    request decodes that chunk and raises.  When the output already holds
    more than [i] bytes the request returns byte [i].  So what an element
    request returns depends on what was requested before. *)
Theorem element_request_stops_one_byte_short :
  (∀ (self : SnappyDecompress) (i : Z),
     0 <= i → len (uncompressed_data self) = i →
     __getitem__ (Int i) self = (Raise IndexError, self)) ∧
  (∀ (pre lenbytes p post out : bytes) (n : Z),
     literal_ok lenbytes p = true →
     __getitem__ (Int (len out + len p))
       (mkSnappy (pre ++ literal lenbytes p ++ post) out n (len pre))
     = (Raise IndexError,
        mkSnappy (pre ++ literal lenbytes p ++ post) (out ++ p) n
          (len pre + len (literal lenbytes p)))) ∧
  (∀ (self : SnappyDecompress) (i : Z),
     0 <= i < len (uncompressed_data self) →
     ∃ b, uncompressed_data self !! Z.to_nat i = Some b ∧
          __getitem__ (Int i) self = (OK (Elem (b2z b)), self)).
Proof.
  split; [|split].
  - intros self i Hi Hlen. cbn [__getitem__]. unfold_M.
    rewrite till_done by (unfold more; apply andb_false_iff; right; apply Z.ltb_ge; lia).
    by rewrite getitem_out by lia.
  - intros pre lenbytes p post out n Hok.
    pose proof (literal_payload_pos _ _ Hok) as Hp. pose proof (len_nonneg out).
    pose proof (len_nonneg pre). pose proof (len_nonneg post).
    pose proof (len_nonneg lenbytes).
    cbn [__getitem__]. unfold_M.
    erewrite till_step; [| |by apply chunk_literal].
    + rewrite till_done.
      * cbn [uncompressed_data]. by rewrite getitem_out by (rewrite len_app; lia).
      * unfold more. cbn [uncompressed_data]. apply andb_false_iff. right.
        apply Z.ltb_ge. rewrite len_app. lia.
    + unfold more. cbn [index compressed_data uncompressed_data].
      apply andb_true_iff. split; apply Z.ltb_lt; [|lia].
      rewrite !len_app, len_literal. lia.
  - intros self i Hi.
    destruct (lookup_lt_is_Some_2 (uncompressed_data self) (Z.to_nat i)) as [b Hb];
      [unfold len in Hi; lia|].
    exists b. split; [done|]. cbn [__getitem__]. unfold_M.
    rewrite till_done by (unfold more; apply andb_false_iff; right; apply Z.ltb_ge; lia).
    by rewrite (getitem_lookup _ _ b) by (lia || done).
Qed.

Lemma element_request_stops_one_byte_short_witness :
  __getitem__ (Int 0) (mkSnappy (bs [2; 4; 97; 98]) [] 2 1)
  = (Raise IndexError, mkSnappy (bs [2; 4; 97; 98]) [] 2 1) ∧
  __getitem__ (Int (len (@nil byte) + len (bs [97; 98])))
    (mkSnappy (bs [3] ++ literal [] (bs [97; 98]) ++ bs [0; 99]) [] 3 (len (bs [3])))
  = (Raise IndexError,
     mkSnappy (bs [3] ++ literal [] (bs [97; 98]) ++ bs [0; 99]) ([] ++ bs [97; 98]) 3
       (len (bs [3]) + len (literal [] (bs [97; 98])))) ∧
  ∃ b, uncompressed_data
         (mkSnappy (bs [3; 4; 97; 98; 0; 99]) (bs [97; 98; 99]) 3 6) !! Z.to_nat 2
       = Some b ∧
       __getitem__ (Int 2) (mkSnappy (bs [3; 4; 97; 98; 0; 99]) (bs [97; 98; 99]) 3 6)
       = (OK (Elem (b2z b)), mkSnappy (bs [3; 4; 97; 98; 0; 99]) (bs [97; 98; 99]) 3 6).
Proof.
  split; [|split].
  - apply (proj1 element_request_stops_one_byte_short
             (mkSnappy (bs [2; 4; 97; 98]) [] 2 1) 0); [lia|reflexivity].
  - apply (proj1 (proj2 element_request_stops_one_byte_short)
             (bs [3]) [] (bs [97; 98]) (bs [0; 99]) [] 3). reflexivity.
  - apply (proj2 (proj2 element_request_stops_one_byte_short)
             (mkSnappy (bs [3; 4; 97; 98; 0; 99]) (bs [97; 98; 99]) 3 6) 2).
    vm_compute. split; [discriminate|reflexivity].
Defined.

(** X5.  A literal chunk whose tag byte is in the stream never raises: the
    length bytes and the payload are taken by slices, so what the stream
    lacks of them is silently left out.  The chunk appends the slice
    [compressed_data[j:j + L]] for some [L >= 1] and leaves the read
    position at [j + L], possibly past the end of the stream. *)
Theorem literal_with_tag_never_raises (self : SnappyDecompress) :
  0 <= index self < len (compressed_data self) →
  ∃ j L, index self < j ∧ 1 <= L ∧
    _uncompress_literal self
    = (OK tt, mkSnappy (compressed_data self)
                (uncompressed_data self ++ slice (compressed_data self) j (j + L))
                (uncompressed_length self) (j + L)).
Proof.
  intros Hi. unfold _uncompress_literal. unfold_M.
  destruct (lookup_lt_is_Some_2 (compressed_data self) (Z.to_nat (index self)))
    as [c Hc]; [unfold len in Hi; lia|].
  rewrite (getitem_lookup _ _ c) by (lia || done). cbn. pose proof (b2z_range c). rewrite shiftr2.
  destruct (Z.leb_spec 60 (b2z c / 4)); cbn.
  - match goal with |- context [from_le ?b] => pose proof (from_le_nonneg b) as Hn end.
    eexists _, _. split; [|split; [|reflexivity]]; lia.
  - assert (0 <= b2z c / 4) by (apply Z.div_pos; lia).
    eexists _, _. split; [|split; [|reflexivity]]; lia.
Qed.

Lemma literal_with_tag_never_raises_witness :
  ∃ j L, 1 < j ∧ 1 <= L ∧
    _uncompress_literal (mkSnappy (bs [9; 32; 97]) [] 9 1)
    = (OK tt, mkSnappy (bs [9; 32; 97])
                ([] ++ slice (bs [9; 32; 97]) j (j + L)) 9 (j + L)).
Proof.
  apply (literal_with_tag_never_raises (mkSnappy (bs [9; 32; 97]) [] 9 1)).
  vm_compute. split; [discriminate|reflexivity].
Defined.

(** X6.  What a slice request without a step returns does not depend on
    what was requested before: after any requests that returned (element
    or slice requests, in any order), [self[a:b]] returns the bytes, or
    raises the exception, that it would on the decompressor as it was
    before them, for every [a] and [b], given or not. *)
Theorem slice_requests_ignore_history
    (self : SnappyDecompress) (its : list subscript) (a b : option Z) :
  returned its self →
  fst (__getitem__ (Sl (Slice a b None)) (after its self))
  = fst (__getitem__ (Sl (Slice a b None)) self).
Proof.
  intros Hr. destruct (returned_clean its self Hr) as (n & -> & Hn).
  by apply slice_clean.
Qed.

Lemma slice_requests_ignore_history_witness :
  returned [Sl (Slice (Some 2) (Some 4) None); Int 1]
    (mkSnappy (bs [4] ++ literal [] (bs [97; 98]) ++ literal [] (bs [99; 100])) [] 4 1) ∧
  fst (__getitem__ (Sl (Slice (Some 0) (Some 3) None))
         (after [Sl (Slice (Some 2) (Some 4) None); Int 1]
            (mkSnappy (bs [4] ++ literal [] (bs [97; 98]) ++ literal [] (bs [99; 100]))
               [] 4 1)))
  = fst (__getitem__ (Sl (Slice (Some 0) (Some 3) None))
           (mkSnappy (bs [4] ++ literal [] (bs [97; 98]) ++ literal [] (bs [99; 100]))
              [] 4 1)).
Proof.
  assert (returned [Sl (Slice (Some 2) (Some 4) None); Int 1]
            (mkSnappy (bs [4] ++ literal [] (bs [97; 98]) ++ literal [] (bs [99; 100]))
               [] 4 1)) as H
    by (repeat split; reflexivity).
  split; [exact H|]. apply slice_requests_ignore_history. exact H.
Defined.

(* ===================================================================== *)
(** * The file that the patcher writes, read again                        *)
(* ===================================================================== *)

Section file_round_trip.

Lemma patcher_init_at pre hdr rest :
  is_varint hdr = true →
  Patcher.__init__ (pre ++ hdr ++ rest) (len pre)
  = OK (mkSnappy (pre ++ hdr ++ rest) [] (le_value (groups hdr)) (len pre + len hdr)).
Proof.
  intros Hh. unfold Patcher.__init__, Patcher.read_varint.
  rewrite bytes_from_app, patcher_loop by (done || lia). cbn.
  do 2 f_equal. lia.
Qed.

Lemma literal_stream_at pre hdr cs :
  is_varint hdr = true →
  Forall (fun c => literal_ok c.1 c.2 = true) cs →
  le_value (groups hdr) = len (payload cs) →
  ∃ self, Patcher.__init__ (pre ++ hdr ++ literals cs) (len pre) = OK self ∧
          fst (getall self) = OK (Bytes (payload cs)).
Proof.
  intros Hh Hcs Hn. eexists. split; [by apply patcher_init_at|].
  unfold getall, __getitem__. unfold_M. cbn [uncompressed_length].
  rewrite getall_indices by (rewrite Hn; apply len_nonneg). cbv beta iota.
  unfold _uncompress_till. cbn [compressed_data index].
  pose proof (len_nonneg (payload cs)).
  rewrite (app_assoc pre hdr), <- (len_app pre hdr).
  rewrite till_literals; [|done| |change (len []) with 0; lia].
  - cbv beta iota. cbn [uncompressed_data app].
    rewrite getslice_all by lia. done.
  - rewrite len_app. pose proof (len_literals_ge cs). lia.
Qed.

Lemma snappy_literal_ok (data : bytes) :
  1 <= len data <= 2 ^ 32 → literal_ok (to_le 4 (len data - 1)) data = true.
Proof.
  intros Hlen. unfold literal_ok.
  change (to_le 4 (len data - 1))
    with (z2b ((len data - 1) mod 256) :: to_le 3 ((len data - 1) / 256)).
  change (z2b ((len data - 1) mod 256) :: to_le 3 ((len data - 1) / 256))
    with (to_le 4 (len data - 1)).
  rewrite from_le_to_le by (cbn; lia). rewrite len_to_le.
  apply andb_true_iff. split; [done|]. apply Z.eqb_eq. lia.
Qed.

Lemma snappy_encode_read_back_aux (data : bytes) :
  data ≠ [] → len data <= 2 ^ 32 →
  ∃ enc, Patcher.snappy_encode data = OK enc ∧
         Patcher.decompress (x0a :: enc) = OK data ∧
         ∃ self, Patcher.__init__ enc 0 = OK self ∧ fst (getall self) = OK (Bytes data).
Proof.
  intros Hne Hlen.
  assert (1 <= len data).
  { destruct data; [done|]. rewrite len_cons. pose proof (len_nonneg data). lia. }
  destruct (snappy_encode_nonempty data Hne Hlen) as (v & Hv & _ & Hout).
  destruct (make_varint_ok (len data)) as (v' & Hv' & Hvar & Hval); [lia|].
  assert (v' = v) as -> by congruence.
  eexists. split; [exact Hout|]. split.
  - destruct (literal_stream_at [x0a] v [(to_le 4 (len data - 1), data)])
      as (self & Hi & Hg).
    + done.
    + constructor; [|done]. cbn [fst snd]. apply snappy_literal_ok. lia.
    + cbn. by rewrite app_nil_r.
    + assert (x0a :: v ++ [xfc] ++ to_le 4 (len data - 1) ++ data
              = [x0a] ++ v ++ literals [(to_le 4 (len data - 1), data)]) as E
        by (cbn; by rewrite app_nil_r).
      unfold Patcher.decompress. rewrite E.
      change (getitem ([x0a] ++ ?l) 0) with (OK (A := byte) x0a). rewrite bind_OK.
      change (negb (b2z x0a =? 10)) with false. cbv beta iota.
      change (len [x0a]) with 1 in Hi. rewrite Hi, bind_OK, Hg.
      cbn [payload map concat snd]. by rewrite app_nil_r.
  - by apply snappy_encode_decompress.
Qed.

End file_round_trip.

(** X7.  What [main] writes can be read back: for a non-empty payload of at
    most [2 ^ 32] bytes, the version byte [0x0A] followed by
    [snappy_encode(data)] is a file from which the patcher's own reading
    steps ([content[0] == 10], [SnappyDecompress(content, 1)[:]]) return
    [data], and [SnappyDecompress(snappy_encode(data))[:]] returns [data]
    too. *)
Theorem snappy_encode_is_read_back (data : bytes) :
  data ≠ [] → len data <= 2 ^ 32 →
  ∃ enc, Patcher.snappy_encode data = OK enc ∧
         Patcher.decompress (x0a :: enc) = OK data ∧
         ∃ self, Patcher.__init__ enc 0 = OK self ∧ fst (getall self) = OK (Bytes data).
Proof. apply snappy_encode_read_back_aux. Qed.

Lemma snappy_encode_is_read_back_witness :
  ∃ enc, Patcher.snappy_encode (bs [1; 2; 3]) = OK enc ∧
         Patcher.decompress (x0a :: enc) = OK (bs [1; 2; 3]) ∧
         ∃ self, Patcher.__init__ enc 0 = OK self ∧
                 fst (getall self) = OK (Bytes (bs [1; 2; 3])).
Proof.
  apply (snappy_encode_is_read_back (bs [1; 2; 3])); [discriminate|].
  vm_compute. discriminate.
Defined.

(* ===================================================================== *)
(** * The packager reads through decompressors that were read before      *)
(* ===================================================================== *)

Section shared_decompressors.

Import Packager.

Lemma same_origin_refl s : same_origin s s.
Proof. by exists s, O, O. Qed.

Lemma content_slice_same a b s s' :
  same_origin s s' →
  fst (content_slice a b s) = fst (content_slice a b s') ∧
  (is_ok (fst (content_slice a b s)) = true →
   same_origin (snd (content_slice a b s)) (snd (content_slice a b s'))).
Proof.
  intros (o & n & m & -> & Hn & -> & Hm).
  pose proof (slice_clean n o (Some a) (Some b) Hn) as E1.
  pose proof (slice_clean m o (Some a) (Some b) Hm) as E2.
  pose proof (getitem_clean (Sl (Slice (Some a) (Some b) None)) (decoded n o)) as C1.
  pose proof (getitem_clean (Sl (Slice (Some a) (Some b) None)) (decoded m o)) as C2.
  unfold content_slice, getrange. unfold_M.
  destruct (__getitem__ _ (decoded n o)) as [r1 s1],
           (__getitem__ _ (decoded m o)) as [r2 s2]. cbn [fst snd] in *.
  rewrite E2 in C2. rewrite E1 in C1 |- *. rewrite E2.
  destruct (__getitem__ _ o) as [[[x|x]|e] t]; cbn [fst snd is_ok] in *; try done.
  split; [done|]. intros _.
  destruct (C1 eq_refl) as (k1 & -> & Hk1). destruct (C2 eq_refl) as (k2 & -> & Hk2).
  exists o, (n + k1)%nat, (m + k2)%nat. rewrite !decoded_add.
  repeat split; try done; by apply clean_add.
Qed.

Ltac same_step H :=
  match type of H with
  | same_origin ?s ?s' =>
      match goal with
      | |- context [content_slice ?lo ?hi s] =>
          let E := fresh "E" in let N := fresh "N" in
          destruct (content_slice_same lo hi s s' H) as [E N]; clear H;
          destruct (content_slice lo hi s) as [[?|?] ?],
                   (content_slice lo hi s') as [[?|?] ?];
          cbn [fst snd is_ok] in E, N |- *; try discriminate E;
          [injection E as <-; specialize (N eq_refl) | injection E as ->; reflexivity]
      end
  end.

Lemma read_dependencies_same n : ∀ i j s s',
  same_origin s s' →
  fst (read_dependencies n i j s) = fst (read_dependencies n i j s').
Proof.
  induction n as [|n IH]; intros i j s s' H; [done|].
  cbn [read_dependencies]. unfold_M. same_step H.
  specialize (IH i (j + 1) _ _ N).
  destruct (read_dependencies n i (j + 1) _) as [[r|e] t],
           (read_dependencies n i (j + 1) _) as [[r'|e'] t']; cbn [fst snd] in *;
    congruence.
Qed.

Lemma extract_info_same v s s' :
  same_origin s s' → fst (extract_info v s) = fst (extract_info v s').
Proof.
  intros H. unfold extract_info. destruct (version_ok v); cbn [negb]; [|done].
  unfold_M. same_step H. same_step N. same_step N0. same_step N.
  match goal with |- context [read_dependencies ?n ?i ?j _] =>
    pose proof (read_dependencies_same n i j _ _ N0) as E end.
  match type of E with fst ?x = fst ?y => destruct x as [[r|e] t], y as [[r'|e'] t'] end;
    cbn [fst snd] in *; congruence.
Qed.

End shared_decompressors.

Section closure_result.

Import Packager.

Lemma content_slice_clean a b s :
  is_ok (fst (content_slice a b s)) = true →
  ∃ k, snd (content_slice a b s) = decoded k s ∧ clean k s.
Proof.
  pose proof (getitem_clean (Sl (Slice (Some a) (Some b) None)) s) as C.
  unfold content_slice, getrange. unfold_M.
  destruct (__getitem__ _ s) as [[[x|x]|e] t]; cbn [fst snd is_ok] in *;
    first [discriminate | intros _; by apply C].
Qed.

Lemma pop_app queue q x : pop queue = Some (q, x) → queue = q ++ [x].
Proof.
  unfold pop. destruct (last queue) as [y|] eqn:Hl; [|done]. intros [= <- <-].
  apply last_Some in Hl as [l' ->]. rewrite length_app. cbn [length].
  by rewrite Nat.add_sub, take_app_length.
Qed.

Lemma closure_measure_visit (ccs : catalog) q ccid te cc_name e v dc r deps :
  ccid ∉ te → ccs !! ccid = Some (cc_name, e, (v, dc)) → len deps < 65536 →
  closure_measure (<[ccid := r]> ccs) (q ++ deps) ({[ccid]} ∪ te)
  < closure_measure ccs (q ++ [ccid]) te.
Proof.
  intros Hin Hcc Hd. unfold closure_measure.
  rewrite dom_insert_lookup_L by (by eexists).
  assert ({[ccid]} ⊆ dom ccs ∖ te) as Hsub.
  { apply singleton_subseteq_l, elem_of_difference. split; [|done].
    apply elem_of_dom. by eexists. }
  rewrite difference_union_singleton, size_difference by done.
  pose proof (subseteq_size _ _ Hsub) as Hpos.
  rewrite size_singleton in *. rewrite !len_app.
  change (len [ccid]) with 1. pose proof (len_nonneg q). lia.
Qed.

End closure_result.

Section closure_sound.

Import Packager.

Lemma reached_mono ccs te queue queue' x :
  (∀ y, y ∈ queue → y ∈ queue') → reached ccs te queue x → reached ccs te queue' x.
Proof.
  intros Hq. induction 1 as [x Hx|p name e v dc i gd deps d _ IH Hp Hcc Hinfo Hd].
  - apply reached_queue. by apply Hq.
  - by eapply reached_dep.
Qed.

Lemma reached_visit ccs te q ccid cc_name e v dc i gd deps r x :
  ccid ∉ te → ccs !! ccid = Some (cc_name, e, (v, dc)) →
  fst (extract_info v dc) = OK (i, gd, deps) →
  reached (<[ccid := r]> ccs) ({[ccid]} ∪ te) (q ++ deps) x →
  reached ccs te (q ++ [ccid]) x.
Proof.
  intros Hin Hcc Hinfo.
  induction 1 as [x Hx|p name' e' v' dc' i' gd' deps' d _ IH Hp Hcc' Hinfo' Hd].
  - apply elem_of_app in Hx as [Hx|Hx].
    + apply reached_queue, elem_of_app. by left.
    + eapply reached_dep; [|exact Hin|exact Hcc|exact Hinfo|exact Hx].
      apply reached_queue, elem_of_app. right. by apply list_elem_of_singleton.
  - assert (p ≠ ccid ∧ p ∉ te) as [Hne Hp'].
    { apply not_elem_of_union in Hp as [Hp ?]. by apply not_elem_of_singleton in Hp. }
    rewrite lookup_insert_ne in Hcc' by done.
    by eapply reached_dep.
Qed.

Lemma closure_sound fuel : ∀ ccs queue te ccs' te',
  closure_measure ccs queue te <= Z.of_nat fuel →
  closure fuel ccs queue te = OK (ccs', te') →
  te ⊆ te' ∧
  (∀ x, x ∈ queue → x ∈ te') ∧
  (∀ id, id ∈ te' → id ∉ te → visited_ok ccs te' id ∧ reached ccs te queue id) ∧
  (∀ id, fst <$> ccs' !! id = fst <$> ccs !! id).
Proof.
  assert (∀ ccs te, te ⊆ te ∧ (∀ x : Z, x ∈ @nil Z → x ∈ te) ∧
            (∀ id, id ∈ te → id ∉ te → visited_ok ccs te id ∧ reached ccs te [] id) ∧
            (∀ id : Z, fst <$> ccs !! id = fst <$> ccs !! id)) as Hstop.
  { intros. repeat split; try done. intros x Hx. by apply elem_of_nil in Hx. }
  induction fuel as [|fuel IH]; intros ccs queue te ccs' te' Hm Hrun.
  - assert (queue = []) as ->.
    { unfold closure_measure in Hm. destruct queue; [done|rewrite len_cons in Hm].
      pose proof (len_nonneg queue). lia. }
    injection Hrun as <- <-. apply Hstop.
  - cbn [closure] in Hrun.
    destruct (pop queue) as [[q ccid]|] eqn:Hpop.
    2: { apply pop_None in Hpop as ->. injection Hrun as <- <-. apply Hstop. }
    apply pop_app in Hpop as ->.
    assert (closure_measure ccs q te < closure_measure ccs (q ++ [ccid]) te) as Hskip.
    { unfold closure_measure. rewrite len_app. change (len [ccid]) with 1. lia. }
    destruct (bool_decide (ccid ∈ te)) eqn:Hin.
    + apply bool_decide_eq_true in Hin.
      destruct (IH ccs q te ccs' te') as (H1 & H2 & H3 & H4); [lia|done|].
      split; [done|]. split; [|split; [|done]].
      * intros x [Hx|Hx%list_elem_of_singleton]%elem_of_app; [by apply H2|].
        subst x. by apply H1.
      * intros id Hid Hnid. destruct (H3 id Hid Hnid) as [Hv Hr]. split; [done|].
        eapply reached_mono; [|exact Hr]. intros y Hy. apply elem_of_app. by left.
    + apply bool_decide_eq_false in Hin.
      destruct (ccs !! ccid) as [[[cc_name e] [v dc]]|] eqn:Hcc; [|done].
      destruct (extract_info v dc) as [r dc'] eqn:Hr. cbn [fst snd] in Hrun.
      destruct r as [[[i gd] deps]|err]; [|done]. cbn in Hrun.
      destruct (bool_decide (0 ∈ deps)) eqn:H0; [done|].
      apply bool_decide_eq_false in H0.
      assert (fst (extract_info v dc) = OK (i, gd, deps)) as Hinfo by (by rewrite Hr).
      pose proof (extract_info_dependencies v dc i gd deps Hinfo) as Hd.
      pose proof (closure_measure_visit ccs q ccid te cc_name e v dc
                    (cc_name, e, (v, dc')) deps Hin Hcc Hd) as Hvisit.
      edestruct IH as (H1 & H2 & H3 & H4); [|exact Hrun|]; [lia|].
      assert (ccid ∈ te') as Hc by (apply H1, elem_of_union; left; by apply elem_of_singleton).
      split; [|split; [|split]].
      * intros x Hx. apply H1, elem_of_union. by right.
      * intros x [Hx|Hx%list_elem_of_singleton]%elem_of_app; [|by subst x].
        apply H2, elem_of_app. by left.
      * intros id Hid Hnid. destruct (decide (id = ccid)) as [->|Hne].
        -- split.
           ++ exists cc_name, e, v, dc, i, gd, deps. repeat split; try done.
              intros d Hdd. apply H2, elem_of_app. by right.
           ++ apply reached_queue, elem_of_app. right. by apply list_elem_of_singleton.
        -- assert (id ∉ {[ccid]} ∪ te) as Hnid'.
           { apply not_elem_of_union. split; [|done]. by apply not_elem_of_singleton. }
           destruct (H3 id Hid Hnid') as [(name' & e' & v' & dc0 & i' & gd' & deps' & Hl & Hv) Hr'].
           rewrite lookup_insert_ne in Hl by done. split.
           ++ by exists name', e', v', dc0, i', gd', deps'.
           ++ by eapply reached_visit.
      * intros id. rewrite H4. destruct (decide (id = ccid)) as [->|Hne].
        -- by rewrite lookup_insert_eq, Hcc.
        -- by rewrite lookup_insert_ne.
Qed.

End closure_sound.

Section collect.

Import Packager.

Lemma add_paths_has (ccs : catalog) (out0 : gmap string string) (name : string) :
  ∀ l : list Z,
  (∃ id e x, id ∈ l ∧ ccs !! id = Some (name, e, x)) →
  is_Some (foldr (fun ccid out =>
                    match ccs !! ccid with
                    | Some (cc_name, e, _) => <[cc_name := e]> out
                    | None => out
                    end) out0 l !! name).
Proof.
  induction l as [|a l IH]; intros (id & e & x & Hid & Hcc).
  - by apply elem_of_nil in Hid.
  - cbn [foldr]. apply elem_of_cons in Hid as [->|Hid].
    + rewrite Hcc. rewrite lookup_insert_eq. by eexists.
    + assert (is_Some (foldr (fun ccid out =>
                    match ccs !! ccid with
                    | Some (cc_name, e, _) => <[cc_name := e]> out
                    | None => out
                    end) out0 l !! name)) as Hs by (apply IH; eauto).
      destruct (ccs !! a) as [[[n' e'] x']|]; [|done].
      destruct (decide (n' = name)) as [->|Hne].
      * rewrite lookup_insert_eq. by eexists.
      * by rewrite lookup_insert_ne.
Qed.

Lemma add_paths_from (ccs : catalog) (out0 : gmap string string) (name path : string) :
  ∀ l : list Z,
  foldr (fun ccid out =>
           match ccs !! ccid with
           | Some (cc_name, e, _) => <[cc_name := e]> out
           | None => out
           end) out0 l !! name = Some path →
  out0 !! name = Some path ∨ ∃ id x, id ∈ l ∧ ccs !! id = Some (name, path, x).
Proof.
  induction l as [|a l IH]; cbn [foldr]; [by left|].
  destruct (ccs !! a) as [[[n' e'] x']|] eqn:Hcc.
  - destruct (decide (n' = name)) as [->|Hne].
    + rewrite lookup_insert_eq. intros [= ->]. right. exists a, x'.
      split; [by left|done].
    + rewrite lookup_insert_ne by done. intros H.
      destruct (IH H) as [?|(id & x & Hid & Hl)]; [by left|].
      right. exists id, x. split; [by right|done].
  - intros H. destruct (IH H) as [?|(id & x & Hid & Hl)]; [by left|].
    right. exists id, x. split; [by right|done].
Qed.

Lemma scan_entries found : ∀ out ccs,
  scan_component_factory found out = OK ccs →
  ∀ id name e v dc, ccs !! id = Some (name, e, (v, dc)) →
    out !! id = Some (name, e, (v, dc)) ∨
    ∃ c b dc0, (name, e, c) ∈ found ∧ getitem c 0 = OK b ∧ v = b2z b ∧
               __init__ c 1 = OK dc0 ∧ get_sch_id v dc0 = (OK id, dc).
Proof.
  induction found as [|[[cc_name e0] c] found IH]; intros out ccs Hscan id name e v dc Hl.
  - injection Hscan as <-. by left.
  - cbn [scan_component_factory] in Hscan.
    destruct (getitem c 0) as [b|] eqn:Hb; [|done]. rewrite bind_OK in Hscan.
    destruct (__init__ c 1) as [dc0|] eqn:Hdc0; [|done]. rewrite bind_OK in Hscan.
    destruct (get_sch_id (b2z b) dc0) as [[ccid|] dc1] eqn:Hid; [|done].
    cbn [fst snd] in Hscan. rewrite bind_OK in Hscan.
    destruct (IH _ _ Hscan id name e v dc Hl) as [Hin|(c' & b' & dc0' & Hf & H')].
    + destruct (decide (ccid = id)) as [->|Hne].
      * rewrite lookup_insert_eq in Hin. injection Hin as <- <- <- <-.
        right. exists c, b, dc0. split; [by left|done].
      * rewrite lookup_insert_ne in Hin by done. by left.
    + right. exists c', b', dc0'. split; [by right|done].
Qed.

End collect.

Section packager_results.

Import Packager.

Lemma extract_info_after_id v dc id :
  fst (get_sch_id v dc) = OK id →
  fst (extract_info v (snd (get_sch_id v dc))) = fst (extract_info v dc) ∧
  ∀ id' gd deps, fst (extract_info v dc) = OK (id', gd, deps) → id' = id.
Proof.
  intros H. unfold get_sch_id in *. destruct (version_ok v) eqn:Hv; cbn [negb] in *; [|done].
  unfold_M. destruct (content_slice 0 8 dc) as [[b|e] dc1] eqn:Hs; cbn [fst snd] in *; [|done].
  injection H as <-. split.
  - apply extract_info_same.
    destruct (content_slice_clean 0 8 dc) as (k & Hk & Hc); [by rewrite Hs|].
    rewrite Hs in Hk. cbn in Hk. subst dc1. by exists dc, k, O.
  - intros id' gd deps Hinfo. unfold extract_info in Hinfo. rewrite Hv in Hinfo.
    cbn [negb] in Hinfo. unfold_M. change (0 + 8) with 8 in Hinfo. rewrite Hs in Hinfo.
    repeat match type of Hinfo with
           | context [content_slice ?a ?b ?s] =>
               destruct (content_slice a b s) as [[?|?] ?]; [|done]
           end.
    match type of Hinfo with context [read_dependencies ?n ?i ?j ?s] =>
      destruct (read_dependencies n i j s) as [[?|?] ?]; [|done] end.
    cbn in Hinfo. by injection Hinfo as <- _ _.
Qed.

End packager_results.

(** X8.  The catalog keeps, for each component, the decompressor from
    which [get_sch_id] has already read; [extract_info] later reads from
    that same object.  Nothing is lost by it: when [get_sch_id] returned
    an id, [extract_info] on the decompressor as [get_sch_id] left it
    returns (or raises) what it would on the decompressor as it was
    before, and the id it returns is the id that [get_sch_id] returned,
    the key of the catalog. *)
Theorem extract_info_after_get_sch_id (v : Z) (dc : SnappyDecompress) (id : Z) :
  fst (Packager.get_sch_id v dc) = OK id →
  fst (Packager.extract_info v (snd (Packager.get_sch_id v dc)))
  = fst (Packager.extract_info v dc) ∧
  ∀ id' gd deps, fst (Packager.extract_info v dc) = OK (id', gd, deps) → id' = id.
Proof. apply extract_info_after_id. Qed.

Lemma extract_info_after_get_sch_id_witness :
  fst (Packager.get_sch_id 10 (mkSnappy (prefix_file 5 [7]) [] 47 2)) = OK 5 ∧
  fst (Packager.extract_info 10
         (snd (Packager.get_sch_id 10 (mkSnappy (prefix_file 5 [7]) [] 47 2))))
  = fst (Packager.extract_info 10 (mkSnappy (prefix_file 5 [7]) [] 47 2)) ∧
  fst (Packager.extract_info 10 (mkSnappy (prefix_file 5 [7]) [] 47 2))
  = OK (5, (7, 9), [7]).
Proof.
  split; [reflexivity|]. split.
  - apply (extract_info_after_get_sch_id 10 (mkSnappy (prefix_file 5 [7]) [] 47 2) 5).
    reflexivity.
  - reflexivity.
Defined.

(** X9.  The loop of [collect_files], run on the queue [queue] with
    nothing visited yet, when it ends without raising: every id of the
    queue is in the set it returns; every id of that set has a definition
    in the catalog whose dependency list (as [extract_info] reads it) does
    not hold 0 and lies within the set, and is reached from the queue
    through such lists; and the names and paths of the catalog are as
    they were.  The number of rounds given to the loop is enough for it
    to end by itself. *)
Theorem closure_is_the_dependency_closure
    (ccs ccs' : Packager.catalog) (queue : list Z) (te' : gset Z) :
  Packager.closure (Packager.closure_fuel ccs queue) ccs queue ∅ = OK (ccs', te') →
  (∀ x, x ∈ queue → x ∈ te') ∧
  (∀ id, id ∈ te' → visited_ok ccs te' id ∧ reached ccs ∅ queue id) ∧
  (∀ id, fst <$> ccs' !! id = fst <$> ccs !! id) ∧
  (∀ extra, Packager.closure (Packager.closure_fuel ccs queue + extra) ccs queue ∅
            = OK (ccs', te')).
Proof.
  intros Hrun.
  destruct (closure_sound (Packager.closure_fuel ccs queue) ccs queue ∅ ccs' te')
    as (_ & H2 & H3 & H4); [rewrite closure_fuel_measure; lia|done|].
  split; [done|]. split; [|split; [done|]].
  - intros id Hid. apply H3; [done|]. apply not_elem_of_empty.
  - intros extra. rewrite closure_fuel_enough; [done|].
    rewrite closure_fuel_measure. lia.
Qed.

Lemma closure_is_the_dependency_closure_witness :
  ∃ ccs' te',
    let ccs : Packager.catalog :=
      <[1 := ("a"%string, "a/circuit.data"%string,
              (10, mkSnappy (prefix_file 1 [2]) [] 47 2))]>
        {[ 2 := ("b"%string, "b/circuit.data"%string,
                 (10, mkSnappy (prefix_file 2 []) [] 39 2)) ]} in
    Packager.closure (Packager.closure_fuel ccs [1]) ccs [1] ∅ = OK (ccs', te') ∧
    (∀ x, x ∈ [1] → x ∈ te') ∧
    (∀ id, id ∈ te' → visited_ok ccs te' id ∧ reached ccs ∅ [1] id) ∧
    (∀ id, fst <$> ccs' !! id = fst <$> ccs !! id) ∧
    (∀ extra, Packager.closure (Packager.closure_fuel ccs [1] + extra) ccs [1] ∅
              = OK (ccs', te')).
Proof.
  eexists _, _. cbv zeta.
  assert (∀ P Q : Prop, P → (P → Q) → P ∧ Q) as both by tauto.
  apply both; [vm_compute; reflexivity|].
  apply closure_is_the_dependency_closure.
Defined.

(** X10.  When [collect_files] returns: the gate and delay scores are
    those that [extract_info] reads from the architecture's own file; the
    components packed are the dependency closure of its dependency list
    (every id of the list is in it, and every id in it has a definition
    whose own list lies in it, and is reached from the architecture's
    list); each component of the closure has its name among the keys of
    the result; and each entry of the result is the architecture's file
    or the name and path of a component of the closure. *)
Theorem collect_files_packs_the_closure
    (arch_name : string) (content : bytes) (found : list (string * string * bytes))
    (out : gmap string string) (gate delay : Z) :
  Packager.collect_files arch_name (Some content) found = OK (out, gate, delay) →
  ∃ ccs b dc id deps te',
    Packager.scan_component_factory found ∅ = OK ccs ∧
    getitem content 0 = OK b ∧
    Packager.__init__ content 1 = OK dc ∧
    fst (Packager.extract_info (b2z b) dc) = OK (id, (gate, delay), deps) ∧
    (∀ d, d ∈ deps → d ∈ te') ∧
    (∀ d, d ∈ te' → visited_ok ccs te' d ∧ reached ccs ∅ deps d) ∧
    (∀ d name e x, d ∈ te' → ccs !! d = Some (name, e, x) → is_Some (out !! name)) ∧
    (∀ name path, out !! name = Some path →
       (name = arch_name ∧
        path = ("schematics/architecture/" +:+ arch_name +:+ "/circuit.data")%string) ∨
       ∃ d x, d ∈ te' ∧ ccs !! d = Some (name, path, x)).
Proof.
  intros H. unfold Packager.collect_files in H.
  destruct (Packager.scan_component_factory found ∅) as [ccs|] eqn:Hscan; [|done].
  rewrite bind_OK in H.
  destruct (getitem content 0) as [b|] eqn:Hb; [|done]. rewrite bind_OK in H.
  destruct (Packager.__init__ content 1) as [dc|] eqn:Hdc; [|done]. rewrite bind_OK in H.
  destruct (Packager.extract_info (b2z b) dc) as [[[[id [g d]] deps]|] dc'] eqn:Hinfo;
    [|done].
  cbn [fst] in H. rewrite bind_OK in H. cbv beta iota in H.
  destruct (Packager.closure _ ccs deps ∅) as [[ccs' te']|] eqn:Hrun; [|done].
  rewrite bind_OK in H. cbv beta iota in H. injection H as <- <- <-.
  destruct (closure_sound (Packager.closure_fuel ccs deps) ccs deps ∅ ccs' te')
    as (_ & H2 & H3 & H4); [rewrite closure_fuel_measure; lia|done|].
  exists ccs, b, dc, id, deps, te'. rewrite Hinfo.
  repeat split; try done.
  - apply H3; [done|]. apply not_elem_of_empty.
  - apply H3; [done|]. apply not_elem_of_empty.
  - intros d0 name e x Hd Hl. unfold Packager.add_paths. apply add_paths_has.
    pose proof (H4 d0) as E. rewrite Hl in E.
    destruct (ccs' !! d0) as [[[n' e'] x']|] eqn:Hl'; [|done].
    cbn in E. injection E as -> ->.
    exists d0, e, x'. split; [|done]. by apply elem_of_elements.
  - intros name path Hl. unfold Packager.add_paths in Hl.
    apply add_paths_from in Hl as [Hl|(d0 & x & Hd & Hl)].
    + left. apply lookup_singleton_Some in Hl as [-> <-]. done.
    + right. pose proof (H4 d0) as E. rewrite Hl in E.
      destruct (ccs !! d0) as [[[n' e'] x']|] eqn:Hl'; [|done].
      cbn in E. injection E as -> ->.
      exists d0, x'. split; [|done]. by apply elem_of_elements.
Qed.

Lemma collect_files_packs_the_closure_witness :
  ∃ out gate delay,
    Packager.collect_files "arch" (Some (prefix_file 5 [1]))
      [("cc"%string, "component_factory/cc/circuit.data"%string, prefix_file 1 [])]
    = OK (out, gate, delay) ∧
    ∃ ccs b dc id deps te',
      Packager.scan_component_factory
        [("cc"%string, "component_factory/cc/circuit.data"%string, prefix_file 1 [])] ∅
      = OK ccs ∧
      getitem (prefix_file 5 [1]) 0 = OK b ∧
      Packager.__init__ (prefix_file 5 [1]) 1 = OK dc ∧
      fst (Packager.extract_info (b2z b) dc) = OK (id, (gate, delay), deps) ∧
      (∀ d, d ∈ deps → d ∈ te') ∧
      (∀ d, d ∈ te' → visited_ok ccs te' d ∧ reached ccs ∅ deps d) ∧
      (∀ d name e x, d ∈ te' → ccs !! d = Some (name, e, x) → is_Some (out !! name)) ∧
      (∀ name path, out !! name = Some path →
         (name = "arch"%string ∧
          path = ("schematics/architecture/" +:+ "arch" +:+ "/circuit.data")%string) ∨
         ∃ d x, d ∈ te' ∧ ccs !! d = Some (name, path, x)).
Proof.
  eexists _, _, _.
  assert (∀ P Q : Prop, P → (P → Q) → P ∧ Q) as both by tauto.
  apply both; [vm_compute; reflexivity|].
  apply collect_files_packs_the_closure.
Defined.

(** X11.  Every entry of the catalog that [scan_component_factory] builds
    comes from one of the files found: its name and path are that file's,
    its version is the file's first byte, its key is the id that
    [get_sch_id] read from the file's decompressor, and [extract_info] on
    the decompressor kept in the entry returns what it would on a fresh
    decompressor of the file. *)
Theorem scan_component_factory_catalog
    (found : list (string * string * bytes)) (ccs : Packager.catalog) :
  Packager.scan_component_factory found ∅ = OK ccs →
  ∀ id name e v dc, ccs !! id = Some (name, e, (v, dc)) →
    ∃ c b dc0, (name, e, c) ∈ found ∧ getitem c 0 = OK b ∧ v = b2z b ∧
               Packager.__init__ c 1 = OK dc0 ∧
               Packager.get_sch_id v dc0 = (OK id, dc) ∧
               fst (Packager.extract_info v dc) = fst (Packager.extract_info v dc0).
Proof.
  intros Hscan id name e v dc Hl.
  destruct (scan_entries found ∅ ccs Hscan id name e v dc Hl)
    as [Hin|(c & b & dc0 & Hf & Hb & Hv & Hdc0 & Hid)]; [by rewrite lookup_empty in Hin|].
  exists c, b, dc0. repeat split; try done.
  destruct (extract_info_after_id v dc0 id) as [E _]; [by rewrite Hid|].
  by rewrite Hid in E.
Qed.

Lemma scan_component_factory_catalog_witness :
  ∃ ccs,
    Packager.scan_component_factory
      [("cc"%string, "component_factory/cc/circuit.data"%string, prefix_file 1 [2])] ∅
    = OK ccs ∧
    ∀ id name e v dc, ccs !! id = Some (name, e, (v, dc)) →
      ∃ c b dc0,
        (name, e, c)
          ∈ [("cc"%string, "component_factory/cc/circuit.data"%string, prefix_file 1 [2])] ∧
        getitem c 0 = OK b ∧ v = b2z b ∧
        Packager.__init__ c 1 = OK dc0 ∧
        Packager.get_sch_id v dc0 = (OK id, dc) ∧
        fst (Packager.extract_info v dc) = fst (Packager.extract_info v dc0).
Proof.
  eexists.
  assert (∀ P Q : Prop, P → (P → Q) → P ∧ Q) as both by tauto.
  apply both; [vm_compute; reflexivity|].
  apply scan_component_factory_catalog.
Defined.

(* ===================================================================== *)
(** * The schema combinators, field by field                              *)
(* ===================================================================== *)

Section fields.

Import Patcher.

Lemma int_from_bytes_signed n x :
  (1 <= n)%nat → - 2 ^ (8 * Z.of_nat n - 1) <= x < 2 ^ (8 * Z.of_nat n - 1) →
  int_from_bytes (to_le n (x mod 2 ^ (8 * Z.of_nat n))) true = x.
Proof.
  intros Hn Hx.
  assert (2 ^ (8 * Z.of_nat n) = 2 * 2 ^ (8 * Z.of_nat n - 1)) as Hp.
  { rewrite <- Z.pow_succ_r by lia. f_equal. lia. }
  assert (0 < 2 ^ (8 * Z.of_nat n - 1)) by (apply Z.pow_pos_nonneg; lia).
  pose proof (Z.mod_pos_bound x (2 ^ (8 * Z.of_nat n)) ltac:(lia)) as Hm.
  unfold int_from_bytes. rewrite from_le_to_le by done. rewrite len_to_le. cbn [andb].
  destruct (Z.le_gt_cases 0 x).
  - rewrite Z.mod_small by lia. destruct (Z.leb_spec (2 ^ (8 * Z.of_nat n)) (2 * x)); lia.
  - replace (x mod 2 ^ (8 * Z.of_nat n)) with (x + 2 ^ (8 * Z.of_nat n))
      by (apply Z.mod_unique_pos with (q := -1); lia).
    destruct (Z.leb_spec (2 ^ (8 * Z.of_nat n)) (2 * (x + 2 ^ (8 * Z.of_nat n)))); lia.
Qed.

Lemma seq_loop_length {A} (f : bytes → Z → result (A * Z)) data n : ∀ i acc vs j,
  seq_loop f data n i acc = OK (vs, j) → length vs = (length acc + n)%nat.
Proof.
  induction n as [|n IH]; intros i acc vs j H.
  - injection H as <- _. lia.
  - cbn [seq_loop] in H. unfold with_note in H.
    apply bind_OK_inv in H as ([e i'] & _ & H). cbv beta iota in H.
    apply IH in H. rewrite length_app in H. cbn [length] in H. lia.
Qed.

End fields.



(** X13.  When [seq(f, l)] returns, it returns as many elements as the
    count that [l] decoded says, and none for a negative count (the
    [range] is then empty); the count was below the length of the
    buffer. *)
Theorem seq_returns_count_elements
    (A : Type) (f : Patcher.codec A) (l : Patcher.codec Z) (data : bytes)
    (i j : Z) (xs : list A) :
  Patcher.inner (Patcher.seq f l) data i = OK (xs, j) →
  ∃ count i', Patcher.inner l data i = OK (count, i') ∧
              count < len data ∧ len xs = Z.max count 0.
Proof.
  cbn [Patcher.inner Patcher.seq]. unfold Patcher.with_note. intros H.
  apply bind_OK_inv in H as ([count i'] & Hl & H). cbv beta iota in H.
  exists count, i'. split; [done|].
  destruct (Z.ltb_spec count (len data)); [|done]. split; [done|].
  apply seq_loop_length in H. unfold len. rewrite H. cbn [length]. lia.
Qed.

Lemma seq_returns_count_elements_witness :
  ∃ count i',
    Patcher.inner (Patcher.S 8) (bs (repeat 255 8 ++ [1])) 0 = OK (count, i') ∧
    count < len (bs (repeat 255 8 ++ [1])) ∧ len (@nil Z) = Z.max count 0.
Proof.
  apply (seq_returns_count_elements Z (Patcher.U 8) (Patcher.S 8)
           (bs (repeat 255 8 ++ [1])) 0 8 []).
  reflexivity.
Defined.

Section raw_spans.

Import Patcher.

Ltac raw_of H :=
  unfold with_note in H;
  match type of H with (if ?c then _ else _) = _ => destruct c; [done|] end;
  repeat (apply bind_OK_inv in H as ([? ?] & _ & H); cbv beta iota zeta in H);
  cbv zeta in H; by injection H as <- <-.

Lemma Point_raw data i c j : Point.parse data i = OK (c, j) → Point.raw c = slice data i j.
Proof. intros H. unfold Point.parse in H. raw_of H. Qed.

Lemma LinkedComponent_raw data i c j :
  LinkedComponent.parse data i = OK (c, j) → LinkedComponent.raw c = slice data i j.
Proof. intros H. unfold LinkedComponent.parse in H. raw_of H. Qed.

Lemma CustomCompData_raw data i c j :
  CustomCompData.parse data i = OK (c, j) → CustomCompData.raw c = slice data i j.
Proof. intros H. unfold CustomCompData.parse in H. raw_of H. Qed.

Lemma Component_raw data i c j :
  Component.parse data i = OK (c, j) → Component.raw c = slice data i j.
Proof. intros H. unfold Component.parse in H. raw_of H. Qed.

End raw_spans.

(** X14.  The [raw] field of a record is its encoding: when a record class
    ([Component], [LinkedComponent], [CustomCompData], [Point]) parses a
    record without reading past the end of the buffer, [raw] is the span
    of bytes it consumed, and [unparse] of the record returns exactly
    those bytes. *)
Theorem raw_is_the_consumed_span_and_the_encoding (data : bytes) (i j : Z) :
  0 <= i → j <= len data →
  (∀ c, Patcher.Component.parse data i = OK (c, j) →
        i <= j ∧ Patcher.Component.raw c = slice data i j ∧
        Patcher.Component.unparse c = OK (Patcher.Component.raw c)) ∧
  (∀ c, Patcher.LinkedComponent.parse data i = OK (c, j) →
        i <= j ∧ Patcher.LinkedComponent.raw c = slice data i j ∧
        Patcher.LinkedComponent.unparse c = OK (Patcher.LinkedComponent.raw c)) ∧
  (∀ c, Patcher.CustomCompData.parse data i = OK (c, j) →
        i <= j ∧ Patcher.CustomCompData.raw c = slice data i j ∧
        Patcher.CustomCompData.unparse c = OK (Patcher.CustomCompData.raw c)) ∧
  (∀ c, Patcher.Point.parse data i = OK (c, j) →
        i <= j ∧ Patcher.Point.raw c = slice data i j ∧
        Patcher.Point.unparse c = OK (Patcher.Point.raw c)).
Proof.
  intros Hi Hj. repeat split.
  - by destruct (Component_ok data i c j Hi H).
  - by apply Component_raw.
  - rewrite (Component_raw data i c j H). by apply (Component_ok data i c j Hi H).
  - by destruct (LinkedComponent_ok data i c j Hi H).
  - by apply LinkedComponent_raw.
  - rewrite (LinkedComponent_raw data i c j H).
    by apply (LinkedComponent_ok data i c j Hi H).
  - by destruct (CustomCompData_ok data i c j Hi H).
  - by apply CustomCompData_raw.
  - rewrite (CustomCompData_raw data i c j H).
    by apply (CustomCompData_ok data i c j Hi H).
  - by destruct (Point_ok data i c j Hi H).
  - by apply Point_raw.
  - rewrite (Point_raw data i c j H). by apply (Point_ok data i c j Hi H).
Qed.

Lemma raw_is_the_consumed_span_and_the_encoding_witness :
  (∃ c, Patcher.Component.parse one_component_schematic 60 = OK (c, 101) ∧
        60 <= 101 ∧
        Patcher.Component.raw c = slice one_component_schematic 60 101 ∧
        Patcher.Component.unparse c = OK (Patcher.Component.raw c)) ∧
  (∃ c, Patcher.LinkedComponent.parse (bs (repeat 0 26)) 0 = OK (c, 26) ∧
        0 <= 26 ∧
        Patcher.LinkedComponent.raw c = slice (bs (repeat 0 26)) 0 26 ∧
        Patcher.LinkedComponent.unparse c = OK (Patcher.LinkedComponent.raw c)) ∧
  (∃ c, Patcher.CustomCompData.parse (bs (repeat 0 10)) 0 = OK (c, 10) ∧
        0 <= 10 ∧
        Patcher.CustomCompData.raw c = slice (bs (repeat 0 10)) 0 10 ∧
        Patcher.CustomCompData.unparse c = OK (Patcher.CustomCompData.raw c)) ∧
  (∃ c, Patcher.Point.parse (bs [1; 0; 255; 255]) 0 = OK (c, 4) ∧
        0 <= 4 ∧
        Patcher.Point.raw c = slice (bs [1; 0; 255; 255]) 0 4 ∧
        Patcher.Point.unparse c = OK (Patcher.Point.raw c)).
Proof.
  assert (∀ P Q : Prop, P → (P → Q) → P ∧ Q) as both by tauto.
  split; [|split; [|split]]; eexists; (apply both; [vm_compute; reflexivity|]); intros H.
  - apply (proj1 (raw_is_the_consumed_span_and_the_encoding
                    one_component_schematic 60 101 ltac:(lia) ltac:(vm_compute; discriminate))
             _ H).
  - apply (proj1 (proj2 (raw_is_the_consumed_span_and_the_encoding
                    (bs (repeat 0 26)) 0 26 ltac:(lia) ltac:(vm_compute; discriminate)))
             _ H).
  - apply (proj1 (proj2 (proj2 (raw_is_the_consumed_span_and_the_encoding
                    (bs (repeat 0 10)) 0 10 ltac:(lia) ltac:(vm_compute; discriminate))))
             _ H).
  - apply (proj2 (proj2 (proj2 (raw_is_the_consumed_span_and_the_encoding
                    (bs [1; 0; 255; 255]) 0 4 ltac:(lia) ltac:(vm_compute; discriminate))))
             _ H).
Defined.

(* ===================================================================== *)
(** * The files that the patcher touches                                  *)
(* ===================================================================== *)

Section patcher_files.

Import Patcher.

Lemma append_neq (s t : String.string) : t ≠ ""%string → (s +:+ t)%string ≠ s.
Proof.
  intros Ht. induction s as [|a s IH]; cbn.
  - done.
  - intros [= E]. by apply IH.
Qed.

Lemma filter_filter_neg {A} (P : A → Prop) `{!∀ x, Decision (P x)} (l : list A) :
  filter P (filter (fun x => ¬ P x) l) = [].
Proof.
  induction l as [|a l IH]; [done|]. rewrite (filter_cons (fun x => ¬ P x)).
  destruct (decide (¬ P a)) as [Hn|Hn]; [|done].
  rewrite filter_cons. by destruct (decide (P a)).
Qed.

Lemma filter_idemp {A} (P : A → Prop) `{!∀ x, Decision (P x)} (l : list A) :
  filter P (filter P l) = filter P l.
Proof.
  induction l as [|a l IH]; [done|]. rewrite (filter_cons P a l).
  destruct (decide (P a)) as [Hp|Hp]; [|done].
  rewrite filter_cons. destruct (decide (P a)); [|done]. by rewrite IH.
Qed.

Lemma shape_cases res : unexpected_shape res ∨ ∃ r p, two_rams res r p.
Proof.
  unfold unexpected_shape, two_rams.
  destruct (ram_components res) as [|c1 [|c2 [|c3 l]]] eqn:Hr;
    try (left; left; cbn; lia).
  destruct (decide (Component.buffer_size c1 = 256 ∧ Component.buffer_size c2 = 65536))
    as [[H1 H2]|Hn1].
  { right. exists c1, c2. split; [by left|done]. }
  destruct (decide (Component.buffer_size c1 = 65536 ∧ Component.buffer_size c2 = 256))
    as [[H1 H2]|Hn2].
  { right. exists c2, c1. split; [by right|done]. }
  left. right. exists c1, c2. split; [done|]. tauto.
Qed.

Lemma patch_result res res' :
  patch res = OK res' →
  ∃ r p, two_rams res r p ∧
         res' = Schematic.set_components
                  (other_components res
                   ++ [Component.set_word_size 16 r; Component.set_word_size 32 p]) res.
Proof.
  intros H. destruct (shape_cases res) as [Hs|(r & p & H2)].
  - by rewrite patch_unexpected_shape in H.
  - exists r, p. split; [done|]. rewrite (patch_two_rams res r p H2) in H. by injection H.
Qed.

(** What [patch] returns: the two RAM components stand last, the register
    file before the program memory, with their word sizes set. *)
Lemma patched_shape res res' :
  patch res = OK res' →
  ∃ r' p', two_rams res' r' p' ∧
           Component.set_word_size 16 r' = r' ∧ Component.set_word_size 32 p' = p' ∧
           Schematic.components res' = other_components res' ++ [r'; p'] ∧
           Schematic.set_components (Schematic.components res') res' = res'.
Proof.
  intros H. destruct (patch_result res res' H) as (r & p & (Hrams & Hr & Hp) & ->).
  set (r' := Component.set_word_size 16 r).
  set (p' := Component.set_word_size 32 p).
  set (res' := Schematic.set_components (other_components res ++ [r'; p']) res).
  assert (is_ram r ∧ is_ram p) as [Hkr Hkp].
  { assert (r ∈ ram_components res ∧ p ∈ ram_components res) as [H1 H2]
      by (destruct Hrams as [-> | ->]; split; set_solver).
    unfold ram_components in H1, H2.
    apply list_elem_of_filter in H1 as [? _], H2 as [? _]. done. }
  assert (ram_components res' = [r'; p']) as Hram'.
  { unfold ram_components, res'. cbn [Schematic.components Schematic.set_components].
    rewrite filter_app. unfold other_components. rewrite filter_filter_neg.
    rewrite !filter_cons, filter_nil.
    destruct (decide (is_ram r')) as [_|Hn];
      [|exfalso; apply Hn; unfold is_ram, r'; by rewrite set_word_size_kind].
    destruct (decide (is_ram p')) as [_|Hn];
      [|exfalso; apply Hn; unfold is_ram, p'; by rewrite set_word_size_kind].
    done. }
  assert (other_components res' = other_components res) as Hoth'.
  { unfold other_components at 1, res'. cbn [Schematic.components Schematic.set_components].
    rewrite filter_app. unfold other_components. rewrite filter_idemp.
    rewrite !filter_cons, filter_nil.
    destruct (decide (¬ is_ram r')) as [Hn|_];
      [exfalso; apply Hn; unfold is_ram, r'; by rewrite set_word_size_kind|].
    destruct (decide (¬ is_ram p')) as [Hn|_];
      [exfalso; apply Hn; unfold is_ram, p'; by rewrite set_word_size_kind|].
    by rewrite app_nil_r. }
  exists r', p'. split; [|split; [done|split; [done|split]]].
  - split; [by left|]. unfold r', p'. by rewrite !set_word_size_buffer.
  - by rewrite Hoth'.
  - done.
Qed.

End patcher_files.

(** X15.  [main] never loses the original file and touches two paths
    only.  Whatever the file store and the path, either nothing has been
    changed (and [main] raised), or the file existed, its content is now
    under the path with [.bak] appended, the path holds a file that starts
    with the version byte [0x0A], and every other path is as it was. *)
Theorem main_keeps_the_original
    (circuit_file : String.string) (fs fs' : gmap String.string bytes) (r : result unit) :
  Patcher.main circuit_file fs = (r, fs') →
  (fs' = fs ∧ r ≠ OK tt) ∨
  ∃ content new,
    fs !! circuit_file = Some content ∧
    fs' !! (circuit_file +:+ ".bak")%string = Some content ∧
    fs' !! circuit_file = Some (x0a :: new) ∧
    ∀ p, p ≠ circuit_file → p ≠ (circuit_file +:+ ".bak")%string → fs' !! p = fs !! p.
Proof.
  intros H. unfold Patcher.main in H.
  assert ((circuit_file +:+ ".bak")%string ≠ circuit_file) as Hbak by (by apply append_neq).
  destruct (fs !! circuit_file) as [content|] eqn:Hfs.
  2: { injection H as <- <-. by left. }
  destruct (res ← Patcher.load content; Patcher.patch res) as [res|e].
  2: { injection H as <- <-. by left. }
  right. exists content.
  destruct (b ← Patcher.Schematic.unparse res; Patcher.snappy_encode b) as [out|e];
    injection H as <- <-; [exists out|exists []]; (split; [done|]).
  - split; [|split].
    + by rewrite !lookup_insert_ne, lookup_insert_eq by done.
    + by rewrite lookup_insert_eq.
    + intros p H1 H2. by rewrite !lookup_insert_ne, lookup_delete_ne by done.
  - split; [|split].
    + by rewrite lookup_insert_ne, lookup_insert_eq by done.
    + by rewrite lookup_insert_eq.
    + intros p H1 H2. by rewrite !lookup_insert_ne, lookup_delete_ne by done.
Qed.

Lemma main_keeps_the_original_witness :
  let fs : gmap String.string bytes :=
    <["notes.txt"%string := bs [1]]> {[ "circuit.data"%string := two_ram_file ]} in
  ∃ r fs',
    Patcher.main "circuit.data" fs = (r, fs') ∧
    ((fs' = fs ∧ r ≠ OK tt) ∨
     ∃ content new,
       fs !! "circuit.data"%string = Some content ∧
       fs' !! ("circuit.data" +:+ ".bak")%string = Some content ∧
       fs' !! "circuit.data"%string = Some (x0a :: new) ∧
       ∀ p, p ≠ "circuit.data"%string → p ≠ ("circuit.data" +:+ ".bak")%string →
            fs' !! p = fs !! p).
Proof.
  intros fs. eexists _, _.
  assert (∀ P Q : Prop, P → (P → Q) → P ∧ Q) as both by tauto.
  apply both; [vm_compute; reflexivity|].
  apply main_keeps_the_original.
Defined.

(** X16.  What [main] refuses before it decodes anything, leaving every
    file as it was: a path with no file ([FileNotFoundError]), an empty
    file ([IndexError] at [content[0]]), a file whose first byte is not 10
    ([ValueError]), and a file that ends inside the length varint that
    follows the version byte ([IndexError]). *)
Theorem main_refuses_without_writing
    (circuit_file : String.string) (fs : gmap String.string bytes) :
  (fs !! circuit_file = None →
   Patcher.main circuit_file fs = (Raise FileNotFoundError, fs)) ∧
  (fs !! circuit_file = Some [] →
   Patcher.main circuit_file fs = (Raise IndexError, fs)) ∧
  (∀ v rest, fs !! circuit_file = Some (v :: rest) → b2z v ≠ 10 →
   Patcher.main circuit_file fs = (Raise ValueError, fs)) ∧
  (∀ rest, fs !! circuit_file = Some (x0a :: rest) →
   Forall (fun b => 128 <= b2z b) rest →
   Patcher.main circuit_file fs = (Raise IndexError, fs)).
Proof.
  unfold Patcher.main, Patcher.load, Patcher.decompress. repeat split.
  - by intros ->.
  - by intros ->.
  - intros v rest -> Hv. change (getitem (v :: rest) 0) with (OK (A := byte) v).
    rewrite !bind_OK. by destruct (Z.eqb_spec (b2z v) 10).
  - intros rest -> Hrest. change (getitem (x0a :: rest) 0) with (OK (A := byte) x0a).
    rewrite !bind_OK. change (negb (b2z x0a =? 10)) with false. cbv beta iota.
    destruct (read_varint_without_end_aux (x0a :: rest) 1) as (_ & _ & -> & _); [lia|done|].
    done.
Qed.

Lemma main_refuses_without_writing_witness :
  Patcher.main "a" ∅ = (Raise FileNotFoundError, ∅) ∧
  Patcher.main "a" {[ "a"%string := [] ]} = (Raise IndexError, {[ "a"%string := [] ]}) ∧
  Patcher.main "a" {[ "a"%string := bs [9; 1; 0; 7] ]}
  = (Raise ValueError, {[ "a"%string := bs [9; 1; 0; 7] ]}) ∧
  Patcher.main "a" {[ "a"%string := x0a :: bs [128; 129] ]}
  = (Raise IndexError, {[ "a"%string := x0a :: bs [128; 129] ]}).
Proof.
  split; [|split; [|split]].
  - apply (proj1 (main_refuses_without_writing "a" ∅)). reflexivity.
  - apply (proj1 (proj2 (main_refuses_without_writing "a" {[ "a"%string := [] ]}))).
    reflexivity.
  - apply (proj1 (proj2 (proj2 (main_refuses_without_writing "a"
                                  {[ "a"%string := bs [9; 1; 0; 7] ]})))
             (z2b 9) (bs [1; 0; 7])); [reflexivity|vm_compute; discriminate].
  - apply (proj2 (proj2 (proj2 (main_refuses_without_writing "a"
                                  {[ "a"%string := x0a :: bs [128; 129] ]})))
             (bs [128; 129])); [reflexivity|].
    repeat constructor; vm_compute; discriminate.
Defined.

(** X17.  Patching is idempotent on the decoded tree: when [patch]
    returns a schematic, patching that schematic again returns it
    unchanged (the two RAM components are found at the end with their
    word sizes already set, taken out and put back). *)
Theorem patch_is_idempotent (res res' : Patcher.Schematic.t) :
  Patcher.patch res = OK res' → Patcher.patch res' = OK res'.
Proof.
  intros H. destruct (patched_shape res res' H) as (r' & p' & Hram & H16 & H32 & Hcs & Hset).
  rewrite (patch_two_rams res' r' p' Hram), H16, H32, <- Hcs. by rewrite Hset.
Qed.

Lemma patch_is_idempotent_witness :
  ∃ res j res',
    Patcher.Schematic.parse two_ram_schematic 0 = OK (res, j) ∧
    Patcher.patch res = OK res' ∧ Patcher.patch res' = OK res'.
Proof.
  eexists _, _, _. split; [vm_compute; reflexivity|].
  assert (∀ P Q : Prop, P → (P → Q) → P ∧ Q) as both by tauto.
  apply both; [vm_compute; reflexivity|].
  apply patch_is_idempotent.
Defined.

(* ===================================================================== *)
(** * The packager and the patcher on the same file                       *)
(* ===================================================================== *)

Section declared_length.

#[local] Existing Instance extends_refl.
#[local] Existing Instance extends_trans.

(** The declared length is carried along and never looked at while
    decoding. *)
Lemma copy_bytes_with_length M n : ∀ k i s,
  copy_bytes n k i (with_length M s)
  = (fst (copy_bytes n k i s), with_length M (snd (copy_bytes n k i s))).
Proof.
  induction n as [|n IH]; intros k i s; [done|].
  cbn [copy_bytes]. unfold_M. cbn [uncompressed_data with_length].
  destruct (getitem (uncompressed_data s) (k + i)) as [b|e]; cbn; [|done].
  apply (IH k (i + 1)
           (mkSnappy (compressed_data s) (uncompressed_data s ++ [b])
              (uncompressed_length s) (index s))).
Qed.

Lemma literal_with_length M s :
  _uncompress_literal (with_length M s)
  = (fst (_uncompress_literal s), with_length M (snd (_uncompress_literal s))).
Proof.
  unfold _uncompress_literal. unfold_M. cbn [compressed_data index with_length].
  destruct (getitem (compressed_data s) (index s)) as [c|e]; cbn; [|done].
  by destruct (60 <=? Z.shiftr (b2z c) 2).
Qed.

Lemma copy_with_length M s :
  _uncompress_copy (with_length M s)
  = (fst (_uncompress_copy s), with_length M (snd (_uncompress_copy s))).
Proof.
  unfold _uncompress_copy. unfold_M. cbn [compressed_data index with_length].
  destruct (getitem (compressed_data s) (index s)) as [c|e]; cbn; [|done].
  destruct (Z.land (b2z c) 3 =? 1); [|destruct (Z.land (b2z c) 3 =? 2);
    [|destruct (Z.land (b2z c) 3 =? 3)]]; cbn; try done.
  - destruct (getitem (compressed_data s) (index s + 1)) as [c1|e]; cbn; [|done].
    match goal with |- context [copy_bytes ?n ?k ?i (mkSnappy ?c ?o M ?ix)] =>
      apply (copy_bytes_with_length M n k i (mkSnappy c o (uncompressed_length s) ix)) end.
  - match goal with |- context [copy_bytes ?n ?k ?i (mkSnappy ?c ?o M ?ix)] =>
      apply (copy_bytes_with_length M n k i (mkSnappy c o (uncompressed_length s) ix)) end.
  - match goal with |- context [copy_bytes ?n ?k ?i (mkSnappy ?c ?o M ?ix)] =>
      apply (copy_bytes_with_length M n k i (mkSnappy c o (uncompressed_length s) ix)) end.
Qed.

Lemma chunk_with_length M s :
  chunk (with_length M s) = (fst (chunk s), with_length M (snd (chunk s))).
Proof.
  unfold chunk. unfold_M. cbn [compressed_data index with_length].
  fold (with_length M s).
  destruct (getitem (compressed_data s) (index s)) as [c|e]; cbn; [|done].
  destruct (Z.land (b2z c) 3 =? 0); [apply literal_with_length|apply copy_with_length].
Qed.

Lemma till_loop_with_length M fuel : ∀ upto s,
  till_loop fuel upto (with_length M s)
  = (fst (till_loop fuel upto s), with_length M (snd (till_loop fuel upto s))).
Proof.
  induction fuel as [|fuel IH]; intros upto s; [done|].
  cbn [till_loop]. unfold_M.
  change (more upto (with_length M s)) with (more upto s).
  destruct (more upto s); [|done].
  rewrite chunk_with_length. destruct (chunk s) as [[[]|e] s']; cbn; [|done].
  apply IH.
Qed.

Lemma ranged_with_length M a b s :
  fst (ranged a b (with_length M s)) = fst (ranged a b s).
Proof.
  unfold ranged. unfold_M. unfold _uncompress_till.
  change (compressed_data (with_length M s)) with (compressed_data s).
  change (index (with_length M s)) with (index s).
  rewrite till_loop_with_length.
  destruct (till_loop _ _ s) as [[[]|e] s']; cbn [fst snd]; [|done].
  cbn [uncompressed_data with_length]. by destruct (getslice _ _).
Qed.

End declared_length.

Section reading_ranges.

#[local] Existing Instance extends_refl.
#[local] Existing Instance extends_trans.

Lemma slice_slice {A} (l : list A) a b U :
  0 <= a → 0 <= b → Z.max a b <= U → slice (slice l 0 U) a b = slice l a b.
Proof.
  intros Ha Hb Hm. pose proof (len_nonneg l).
  destruct (Z.le_gt_cases (len l) U).
  - replace (slice l 0 U) with l; [done|].
    unfold slice. rewrite (clamp_in _ 0), (clamp_over _ U) by lia. cbn [Z.to_nat drop].
    rewrite Z.sub_0_r. unfold len. rewrite Nat2Z.id. by rewrite take_ge.
  - rewrite (slice_eq l 0 U) by lia. cbn [Z.to_nat drop]. rewrite Z.sub_0_r.
    rewrite <- (take_drop (Z.to_nat U) l) at 2.
    rewrite slice_prefix; [done|lia|lia|].
    unfold len in *. rewrite length_take. lia.
Qed.

Lemma ranged_within U fuel : ∀ self a b,
  (Z.to_nat (len (compressed_data self) - index self) <= fuel)%nat →
  fst (till_loop fuel U self) = OK tt →
  0 <= a → 0 <= b → Z.max a b <= U →
  fst (ranged a b self)
  = OK (Bytes (slice (slice (uncompressed_data (snd (till_loop fuel U self))) 0 U) a b)).
Proof.
  induction fuel as [|fuel IH]; intros self a b Hf Hok Ha Hb Hm.
  - cbn [till_loop]. unfold_M. rewrite ranged_done, slice_slice; try done.
    unfold more. apply andb_false_iff. left. apply Z.ltb_ge. lia.
  - cbn [till_loop] in *. unfold_M.
    destruct (more U self) eqn:HmU.
    + pose proof (more_index _ _ HmU) as Hi.
      destruct (chunk_extends self) as [E1 E2].
      destruct (chunk self) as [[[]|e] c1] eqn:Hc; cbn [fst snd] in *; [|done].
      specialize (E2 eq_refl). destruct E1 as (Ec & _ & _ & Ep).
      destruct (more (Z.max a b) self) eqn:Hmab.
      * rewrite <- (IH c1) by (done || (rewrite Ec; lia)).
        unfold ranged. unfold_M. by rewrite (till_step _ self c1).
      * assert (Z.max a b <= len (uncompressed_data self)) as Hlen.
        { unfold more in Hmab. apply andb_false_iff in Hmab as [Hx|Hx];
            apply Z.ltb_ge in Hx; lia. }
        rewrite ranged_done by done. rewrite slice_slice by done.
        destruct (till_loop_extends fuel U c1) as (_ & _ & _ & Ep').
        assert (uncompressed_data self `prefix_of`
                  uncompressed_data (snd (till_loop fuel U c1))) as [ext ->] by (by etrans).
        by rewrite slice_prefix.
    + rewrite ranged_done, slice_slice; try done.
      unfold more in *. apply andb_false_iff in HmU as [Hx|Hx]; apply andb_false_iff.
      * by left.
      * right. apply Z.ltb_ge. apply Z.ltb_ge in Hx. lia.
Qed.

(** When [self[:]] returns [data], a range [self[a:b]] within the
    declared length returns [data[a:b]], whatever the length declared to
    the decompressor that is asked, provided it covers [b]. *)
Lemma getall_ranges self data a b M :
  fst (getall self) = OK (Bytes data) →
  0 <= a → a <= b → b <= uncompressed_length self → b <= M →
  fst (Packager.content_slice a b (with_length M self)) = OK (slice data a b).
Proof.
  intros Hall Ha Hab Hb HM.
  assert (0 <= uncompressed_length self) as Hn by lia.
  unfold getall in Hall. rewrite (getitem_ranged None None self 0 (uncompressed_length self))
    in Hall by (by apply getall_indices).
  assert (fst (_uncompress_till (uncompressed_length self) self) = OK tt ∧
          data = slice (uncompressed_data
                          (snd (_uncompress_till (uncompressed_length self) self)))
                   0 (uncompressed_length self)) as [Hok ->].
  { unfold ranged in Hall. unfold_M. rewrite Z.max_r in Hall by lia.
    destruct (_uncompress_till _ self) as [[[]|e] s1]; cbn [fst snd] in *; [|done].
    rewrite getslice_step1 in Hall by lia. cbn in Hall. by injection Hall as <-. }
  unfold Packager.content_slice, getrange. unfold_M.
  rewrite (getitem_ranged (Some a) (Some b) (with_length M self) a b).
  2: { unfold slice_indices, adjust_bound. cbn.
       destruct (Z.ltb_spec M 0); [lia|]. destruct (Z.ltb_spec a 0); [lia|].
       destruct (Z.ltb_spec b 0); [lia|]. destruct (Z.ltb_spec M a); [lia|].
       by destruct (Z.ltb_spec M b); [lia|]. }
  pose proof (ranged_with_length M a b self) as E.
  pose proof (ranged_within (uncompressed_length self) _ self a b (le_n _) Hok Ha
                ltac:(lia) ltac:(lia)) as R.
  rewrite R in E.
  destruct (ranged a b (with_length M self)) as [[[x|x]|e] t]; cbn [fst] in *; try done.
  by injection E as ->.
Qed.

End reading_ranges.

Section same_fields.

Import Packager.

(** The states that decoding chunks without raising leads to from [o]. *)
Lemma read_at o s a b x :
  (∃ n, s = decoded n o ∧ clean n o) →
  fst (content_slice a b o) = OK x →
  ∃ s', content_slice a b s = (OK x, s') ∧ ∃ n, s' = decoded n o ∧ clean n o.
Proof.
  intros (n & -> & Hn) Hx.
  destruct (content_slice_same a b (decoded n o) o) as [E _]; [by exists o, n, O|].
  rewrite Hx in E.
  destruct (content_slice_clean a b (decoded n o)) as (k & Hk & Hck); [by rewrite E|].
  destruct (content_slice a b (decoded n o)) as [r s'] eqn:Hs. cbn [fst snd] in *.
  subst r s'. eexists. split; [done|]. exists (n + k)%nat.
  split; [by rewrite decoded_add|by apply clean_add].
Qed.

Lemma read_dependencies_reads o D B n : ∀ j s,
  (∀ a b, 0 <= a → a <= b → b <= B → fst (content_slice a b o) = OK (slice D a b)) →
  (∃ m, s = decoded m o ∧ clean m o) →
  39 + (Z.of_nat j + Z.of_nat n) * 8 <= B →
  fst (read_dependencies n 39 (Z.of_nat j) s)
  = OK ((fun k : nat =>
           int_from_bytes (slice D (39 + Z.of_nat k * 8) (39 + (Z.of_nat k + 1) * 8)) false)
          <$> seq j n).
Proof.
  induction n as [|n IH]; intros j s Hread Hs HB; [done|].
  cbn [read_dependencies seq fmap list_fmap]. unfold_M.
  destruct (read_at o s (39 + Z.of_nat j * 8) (39 + (Z.of_nat j + 1) * 8)
              (slice D (39 + Z.of_nat j * 8) (39 + (Z.of_nat j + 1) * 8)) Hs)
    as (s' & -> & Hs'); [apply Hread; lia|].
  specialize (IH (S j) s' Hread Hs' ltac:(lia)).
  replace (Z.of_nat j + 1) with (Z.of_nat (S j)) by lia.
  destruct (read_dependencies n 39 (Z.of_nat (S j)) s') as [[r|e] t]; cbn [fst] in *;
    [|done].
  injection IH as ->. repeat f_equal; lia.
Qed.

Lemma extract_info_reads o D B v s :
  (∀ a b, 0 <= a → a <= b → b <= B → fst (content_slice a b o) = OK (slice D a b)) →
  (∃ m, s = decoded m o ∧ clean m o) →
  version_ok v = true → v ≠ 6 →
  39 + int_from_bytes (slice D 37 39) false * 8 <= B →
  fst (extract_info v s) = OK (header_fields D).
Proof.
  intros Hread Hs Hv H6 HB. unfold extract_info. rewrite Hv. cbn [negb].
  rewrite bool_decide_eq_false_2 by (by intros ?%list_elem_of_singleton).
  assert (0 <= int_from_bytes (slice D 37 39) false) as Hc
    by (unfold int_from_bytes; cbn [andb]; apply from_le_nonneg).
  unfold_M. cbv zeta.
  change (0 + 8 + 4 + 8 + 8 + 1 + 8 + 2) with 39.
  change (0 + 8 + 4 + 8 + 8 + 1 + 8) with 37.
  change (0 + 8 + 4 + 8 + 8) with 28. change (0 + 8 + 4 + 8) with 20.
  change (0 + 8 + 4) with 12. change (0 + 8) with 8.
  destruct (read_at o s 0 8 (slice D 0 8) Hs) as (s1 & -> & Hs1); [apply Hread; lia|].
  destruct (read_at o s1 12 20 (slice D 12 20) Hs1) as (s2 & -> & Hs2); [apply Hread; lia|].
  destruct (read_at o s2 20 28 (slice D 20 28) Hs2) as (s3 & -> & Hs3); [apply Hread; lia|].
  destruct (read_at o s3 37 39 (slice D 37 39) Hs3) as (s4 & -> & Hs4); [apply Hread; lia|].
  pose proof (read_dependencies_reads o D B
                (Z.to_nat (int_from_bytes (slice D 37 39) false)) 0 s4 Hread Hs4
                ltac:(lia)) as Hd.
  change (Z.of_nat 0) with 0 in Hd.
  destruct (read_dependencies _ 39 0 s4) as [[r|e] t]; cbn [fst] in Hd |- *; [|done].
  by injection Hd as ->.
Qed.

(** Both [read_varint] stop at the same byte. *)
Lemma readers_stop_together ahead : ∀ out j i out' n i',
  Patcher.read_varint_loop ahead out j i = OK (n, i') →
  ∃ m, Packager.read_varint_loop ahead out' i = OK (m, i').
Proof.
  induction ahead as [|b ahead IH]; intros out j i out' n i' H; [done|].
  cbn [Patcher.read_varint_loop Packager.read_varint_loop] in *.
  destruct (Z.land (b2z b) 128 =? 0).
  - injection H as _ <-. by eexists.
  - by eapply IH.
Qed.

End same_fields.

Section patcher_header.

Import Patcher.

Lemma seq_loop_S8 data n : ∀ i acc,
  seq_loop (inner (S 8)) data n i acc
  = OK (acc ++ ((fun k : nat =>
                   int_from_bytes (slice data (i + Z.of_nat k * 8) (i + (Z.of_nat k + 1) * 8))
                     true) <$> List.seq 0 n),
        i + Z.of_nat n * 8).
Proof.
  induction n as [|n IH]; intros i acc.
  - cbn. rewrite app_nil_r. do 2 f_equal. lia.
  - cbn [seq_loop]. unfold with_note. cbn [inner S]. rewrite bind_OK. cbv beta iota.
    rewrite IH. rewrite <- app_assoc. cbn [List.seq fmap list_fmap app].
    rewrite <- fmap_S_seq, <- list_fmap_compose.
    f_equal. f_equal; [|lia]. f_equal. f_equal.
    + do 2 f_equal; lia.
    + apply list_fmap_ext. intros _ k _. cbn. do 2 f_equal; lia.
Qed.

Lemma Schematic_header data res j :
  Schematic.parse data 0 = OK (res, j) →
  Schematic.custom_id res = int_from_bytes (slice data 0 8) true ∧
  Schematic.gate res = int_from_bytes (slice data 12 20) true ∧
  Schematic.delay res = int_from_bytes (slice data 20 28) true ∧
  Schematic.dependencies res
  = (fun k : nat =>
       int_from_bytes (slice data (39 + Z.of_nat k * 8) (39 + (Z.of_nat k + 1) * 8)) true)
      <$> List.seq 0 (Z.to_nat (int_from_bytes (slice data 37 39) false)).
Proof.
  intros H. unfold Schematic.parse, with_note in H.
  destruct (len data <=? 0); [done|]. cbv zeta in H.
  cbn [inner S U] in H. rewrite !bind_OK in H. cbv beta iota in H.
  change (0 + 8 + 4 + 8 + 8 + 1 + 8) with 37 in H.
  change (0 + 8 + 4 + 8 + 8) with 28 in H. change (0 + 8 + 4 + 8) with 20 in H.
  change (0 + 8 + 4) with 12 in H. change (0 + 8) with 8 in H.
  apply bind_OK_inv in H as ([deps i] & Hdeps & H). cbv beta iota in H.
  cbn [inner seq] in Hdeps. unfold with_note in Hdeps. cbn [inner U] in Hdeps.
  rewrite bind_OK in Hdeps. cbv beta iota in Hdeps.
  destruct (_ <? len data); [|done]. rewrite seq_loop_S8 in Hdeps.
  injection Hdeps as <- <-.
  repeat (apply bind_OK_inv in H as ([? ?] & _ & H); cbv beta iota in H).
  injection H as <- _. cbn. change (37 + 2) with 39. done.
Qed.

Lemma unsigned_of_signed (s : bytes) :
  len s = 8 → int_from_bytes s false = int_from_bytes s true mod 2 ^ 64.
Proof.
  intros Hl. pose proof (from_le_nonneg s). pose proof (from_le_bound s) as Hb.
  rewrite Hl in Hb. change (2 ^ (8 * 8)) with (2 ^ 64) in Hb.
  unfold int_from_bytes. cbn [andb]. rewrite Hl. change (2 ^ (8 * 8)) with (2 ^ 64).
  destruct (Z.leb_spec (2 ^ 64) (2 * from_le s)).
  - apply Z.mod_unique_pos with (q := -1); lia.
  - by rewrite Z.mod_small by lia.
Qed.

End patcher_header.

Section both_tools.

Lemma getall_data self data :
  fst (getall self) = OK (Bytes data) →
  0 <= uncompressed_length self ∧ len data <= uncompressed_length self.
Proof.
  intros Hall.
  assert (0 <= uncompressed_length self) as Hn.
  { destruct (Z.lt_ge_cases (uncompressed_length self) 0) as [Hneg|]; [|done].
    unfold getall in Hall. cbn [__getitem__] in Hall. unfold_M.
    unfold slice_indices in Hall. cbn in Hall.
    by destruct (Z.ltb_spec (uncompressed_length self) 0); [|lia]. }
  split; [done|].
  unfold getall in Hall. rewrite (getitem_ranged None None self 0 (uncompressed_length self))
    in Hall by (by apply getall_indices).
  unfold ranged in Hall. unfold_M.
  destruct (_uncompress_till _ self) as [[[]|e] s1]; cbn [fst snd] in *; [|done].
  rewrite getslice_step1 in Hall by lia. cbn in Hall. injection Hall as <-.
  pose proof (len_slice_le (uncompressed_data s1) 0 (uncompressed_length self)
                ltac:(lia) Hn). lia.
Qed.

Lemma packager_fields content data res j self' :
  Patcher.decompress content = OK data →
  Patcher.Schematic.parse data 0 = OK (res, j) →
  Packager.__init__ content 1 = OK self' →
  39 + 8 * len (Patcher.Schematic.dependencies res) <= len data →
  39 + 8 * len (Patcher.Schematic.dependencies res) <= uncompressed_length self' →
  fst (Packager.extract_info 10 self')
  = OK (Patcher.Schematic.custom_id res mod 2 ^ 64,
        (Patcher.Schematic.gate res mod 2 ^ 64, Patcher.Schematic.delay res mod 2 ^ 64),
        (fun d => d mod 2 ^ 64) <$> Patcher.Schematic.dependencies res).
Proof.
  intros Hdec Hparse Hinit HB HM.
  (* the patcher's decompressor and what it returns *)
  unfold Patcher.decompress in Hdec.
  apply bind_OK_inv in Hdec as (v & _ & Hdec).
  destruct (negb (b2z v =? 10)); [done|].
  apply bind_OK_inv in Hdec as (self & Hself & Hdec).
  apply bind_OK_inv in Hdec as (it & Hall & Hdec).
  destruct it as [x|d]; [done|]. injection Hdec as ->.
  destruct (getall_data self data Hall) as [Hn Hlen].
  (* the packager's decompressor is the same but for the declared length *)
  assert (self' = with_length (uncompressed_length self') self) as Hsame.
  { unfold Patcher.__init__, Patcher.read_varint in Hself.
    apply bind_OK_inv in Hself as ([n i] & Hrd & Hself). injection Hself as <-.
    destruct (readers_stop_together _ _ _ _ 0 _ _ Hrd) as (m & Hm).
    unfold Packager.__init__, Packager.read_varint in Hinit.
    rewrite Hm in Hinit. rewrite bind_OK in Hinit. by injection Hinit as <-. }
  destruct (Schematic_header data res j Hparse) as (Hid & Hgate & Hdelay & Hdeps).
  set (count := int_from_bytes (slice data 37 39) false) in *.
  assert (0 <= count) as Hc by (unfold count, int_from_bytes; cbn [andb]; apply from_le_nonneg).
  assert (len (Patcher.Schematic.dependencies res) = count) as Hcount.
  { rewrite Hdeps. unfold len. rewrite length_fmap, length_seq. lia. }
  rewrite (extract_info_reads self' data
             (39 + 8 * len (Patcher.Schematic.dependencies res)) 10 self').
  - unfold header_fields. fold count.
    rewrite !unsigned_of_signed by (rewrite len_slice; lia).
    rewrite Hid, Hgate, Hdelay, Hdeps. do 3 f_equal.
    rewrite <- list_fmap_compose. apply list_fmap_ext. intros i k Hk.
    apply lookup_seq in Hk as [-> Hk]. cbn.
    apply unsigned_of_signed. rewrite len_slice; lia.
  - intros a b Ha Hab Hb. rewrite Hsame. apply getall_ranges; try done; lia.
  - by exists O.
  - done.
  - done.
  - fold count. lia.
Qed.

End both_tools.

(** X18.  The packager reads from a file what the patcher decodes from
    it.  For a file that the patcher decompresses and decodes as a
    schematic, whose header and dependency list lie inside the
    decompressed bytes and inside the length that the packager's own
    [read_varint] declares, [extract_info] on the packager's decompressor
    returns the schematic's id, gate score, delay score and dependency ids
    as the patcher's [Schematic.parse] has them, each taken modulo
    [2 ^ 64]: the packager reads them unsigned, the patcher signed. *)
Theorem packager_reads_the_patchers_fields
    (content data : bytes) (res : Patcher.Schematic.t) (j : Z) (self' : SnappyDecompress) :
  Patcher.decompress content = OK data →
  Patcher.Schematic.parse data 0 = OK (res, j) →
  Packager.__init__ content 1 = OK self' →
  39 + 8 * len (Patcher.Schematic.dependencies res) <= len data →
  39 + 8 * len (Patcher.Schematic.dependencies res) <= uncompressed_length self' →
  fst (Packager.extract_info 10 self')
  = OK (Patcher.Schematic.custom_id res mod 2 ^ 64,
        (Patcher.Schematic.gate res mod 2 ^ 64, Patcher.Schematic.delay res mod 2 ^ 64),
        (fun d => d mod 2 ^ 64) <$> Patcher.Schematic.dependencies res).
Proof. apply packager_fields. Qed.

Lemma packager_reads_the_patchers_fields_witness :
  let content :=
    bs [10; 68]
    ++ literal (bs [67])
         (bs ([5; 0; 0; 0; 0; 0; 0; 0] ++ repeat 0 4 ++ repeat 255 8
              ++ [9; 0; 0; 0; 0; 0; 0; 0] ++ [1] ++ repeat 0 8 ++ [1; 0]
              ++ [254; 255; 255; 255; 255; 255; 255; 255] ++ repeat 0 21)) in
  ∃ data res j self',
    Patcher.decompress content = OK data ∧
    Patcher.Schematic.parse data 0 = OK (res, j) ∧
    Packager.__init__ content 1 = OK self' ∧
    Patcher.Schematic.gate res = -1 ∧
    Patcher.Schematic.dependencies res = [-2] ∧
    fst (Packager.extract_info 10 self')
    = OK (Patcher.Schematic.custom_id res mod 2 ^ 64,
          (Patcher.Schematic.gate res mod 2 ^ 64, Patcher.Schematic.delay res mod 2 ^ 64),
          (fun d => d mod 2 ^ 64) <$> Patcher.Schematic.dependencies res).
Proof.
  intros content. eexists _, _, _, _.
  split; [vm_compute; reflexivity|]. split; [vm_compute; reflexivity|].
  split; [vm_compute; reflexivity|]. split; [reflexivity|]. split; [reflexivity|].
  eapply (packager_reads_the_patchers_fields content).
  - vm_compute; reflexivity.
  - vm_compute; reflexivity.
  - vm_compute; reflexivity.
  - vm_compute. discriminate.
  - vm_compute. discriminate.
Defined.

(* ===================================================================== *)
(** * String fields                                                       *)
(* ===================================================================== *)

Section utf8_back.

Ltac pick :=
  repeat (cbn [andb];
          match goal with
          | |- context [?a =? ?b] => destruct (Z.eqb_spec a b); [try lia|try lia]
          | |- context [?a <? ?b] => destruct (Z.ltb_spec a b); [try lia|try lia]
          | |- context [?a <=? ?b] => destruct (Z.leb_spec a b); [try lia|try lia]
          end);
  cbn [andb].

Lemma utf8_decode_cp c e r :
  utf8_encode_cp c = OK e → utf8_decode (e ++ r) = (s ← utf8_decode r; OK (c :: s)).
Proof.
  unfold utf8_encode_cp. intros H.
  destruct (Z.ltb_spec c 0); [done|].
  destruct (Z.ltb_spec c 128).
  { injection H as <-. cbn [app utf8_decode]. rewrite b2z_z2b by lia.
    by destruct (Z.ltb_spec c 128); [|lia]. }
  destruct (Z.ltb_spec c 2048).
  { injection H as <-. cbn [app utf8_decode].
    assert (2 <= c / 64 <= 31 ∧ 0 <= c mod 64 <= 63) as [? ?]
      by (Z.to_euclidean_division_equations; lia).
    rewrite !b2z_z2b by lia. unfold is_cont. pick.
    replace ((192 + c / 64 - 192) * 64 + (128 + c mod 64 - 128)) with c
      by (Z.to_euclidean_division_equations; lia).
    done. }
  destruct (Z.ltb_spec c 65536).
  { destruct ((55296 <=? c) && (c <=? 57343)) eqn:Hs; [done|]. injection H as <-.
    assert (¬ (55296 <= c <= 57343)) as Hns.
    { intros [? ?]. apply andb_false_iff in Hs as [Hs|Hs];
        [apply Z.leb_gt in Hs|apply Z.leb_gt in Hs]; lia. }
    cbn [app utf8_decode].
    assert (0 <= c / 4096 <= 15 ∧ 0 <= (c / 64) mod 64 <= 63 ∧ 0 <= c mod 64 <= 63)
      as (? & ? & ?) by (Z.to_euclidean_division_equations; lia).
    assert (c = (c / 4096) * 4096 + ((c / 64) mod 64) * 64 + c mod 64) as Hc
      by (Z.to_euclidean_division_equations; lia).
    rewrite !b2z_z2b by lia. unfold is_cont.
    set (q := c / 4096) in *. set (m := (c / 64) mod 64) in *. set (l := c mod 64) in *.
    pick;
      replace ((224 + q - 224) * 4096 + (128 + m - 128) * 64 + (128 + l - 128)) with c
        by lia; done. }
  destruct (Z.ltb_spec c 1114112); [|done]. injection H as <-.
  cbn [app utf8_decode].
  assert (0 <= c / 262144 <= 4 ∧ 0 <= (c / 4096) mod 64 <= 63 ∧
          0 <= (c / 64) mod 64 <= 63 ∧ 0 <= c mod 64 <= 63)
    as (? & ? & ? & ?) by (Z.to_euclidean_division_equations; lia).
  assert (c = (c / 262144) * 262144 + ((c / 4096) mod 64) * 4096
              + ((c / 64) mod 64) * 64 + c mod 64) as Hc
    by (Z.to_euclidean_division_equations; lia).
  rewrite !b2z_z2b by lia. unfold is_cont.
  set (q := c / 262144) in *. set (m1 := (c / 4096) mod 64) in *.
  set (m := (c / 64) mod 64) in *. set (l := c mod 64) in *.
  pick;
    replace ((240 + q - 240) * 262144 + (128 + m1 - 128) * 4096 + (128 + m - 128) * 64
             + (128 + l - 128)) with c by lia; done.
Qed.

Lemma utf8_decode_encode s : ∀ e, utf8_encode s = OK e → utf8_decode e = OK s.
Proof.
  induction s as [|c s IH]; intros e H.
  - by injection H as <-.
  - cbn [utf8_encode] in H.
    apply bind_OK_inv in H as (ec & Hc & H). apply bind_OK_inv in H as (er & Hr & H).
    injection H as <-. rewrite (utf8_decode_cp c ec er Hc). by rewrite (IH er Hr).
Qed.

End utf8_back.

Section string_back.

Lemma string_read_back (s : str) (b pre rest : bytes) :
  Patcher.unparser (Patcher.string (Patcher.U 2)) s = OK b →
  ∃ e, utf8_encode s = OK e ∧ len e < 65536 ∧ b = to_le 2 (len e) ++ e ∧
       Patcher.inner (Patcher.string (Patcher.U 2)) (pre ++ b ++ rest) (len pre)
       = OK (s, len pre + len b).
Proof.
  intros H.
  cbn [Patcher.unparser Patcher.string] in H.
  apply bind_OK_inv in H as (e & He & H). apply bind_OK_inv in H as (h & Hh & H).
  injection H as <-. exists e. split; [done|].
  unfold Patcher.get_unparser in Hh. cbn [Patcher.unparser Patcher.U] in Hh.
  unfold int_to_bytes in Hh. change (2 <? 0) with false in Hh. cbv beta iota in Hh.
  pose proof (len_nonneg e).
  destruct (Z.leb_spec 0 (len e)); [|lia].
  change (2 ^ (8 * 2)) with 65536 in Hh.
  destruct (Z.ltb_spec (len e) 65536); [|done].
  assert (h = to_le 2 (len e)) as Eh by (injection Hh as <-; reflexivity).
  split; [done|]. split; [by rewrite Eh|].
  assert (len h = 2) as Hl2 by (rewrite Eh; apply len_to_le).
  assert (from_le h = len e) as Hfrom
    by (rewrite Eh; apply from_le_to_le; change (2 ^ (8 * Z.of_nat 2)) with 65536; lia).
  clear Eh Hh.
  cbn [Patcher.inner Patcher.string Patcher.U].
  rewrite <- (app_assoc h e rest).
  rewrite (slice_at pre h (e ++ rest)) by (done || lia).
  rewrite bind_OK. cbv beta iota.
  unfold int_from_bytes. cbn [andb]. rewrite Hfrom.
  rewrite (app_assoc pre h).
  rewrite (slice_at (pre ++ h) e rest) by (rewrite ?len_app; lia).
  rewrite (utf8_decode_encode s e He), bind_OK.
  do 2 f_equal. rewrite len_app. lia.
Qed.

End string_back.

(** X19.  String fields are inverse both ways.  When [string().unparse]
    returns bytes for a [str], they are the two-byte length of its UTF-8
    encoding followed by that encoding (which is then shorter than 65536
    bytes), and [string()] reads the same [str] back from any buffer at
    the offset where those bytes stand.  An encoding of 65536 bytes or
    more raises [OverflowError].  And what [string()] has read inside the
    buffer is unparsed to the bytes it was read from. *)
Theorem string_field_round_trip :
  (∀ (s : str) (b pre rest : bytes),
     Patcher.unparser (Patcher.string (Patcher.U 2)) s = OK b →
     ∃ e, utf8_encode s = OK e ∧ len e < 65536 ∧ b = to_le 2 (len e) ++ e ∧
          Patcher.inner (Patcher.string (Patcher.U 2)) (pre ++ b ++ rest) (len pre)
          = OK (s, len pre + len b)) ∧
  (∀ (s : str) (e : bytes),
     utf8_encode s = OK e → 65536 <= len e →
     Patcher.unparser (Patcher.string (Patcher.U 2)) s = Raise OverflowError) ∧
  (∀ (data : bytes) (i j : Z) (s : str),
     0 <= i → Patcher.inner (Patcher.string (Patcher.U 2)) data i = OK (s, j) →
     j <= len data →
     Patcher.unparser (Patcher.string (Patcher.U 2)) s = OK (slice data i j)).
Proof.
  split; [|split].
  - intros s b pre rest H. by apply string_read_back.
  - intros s e He Hlen. cbn [Patcher.unparser Patcher.string]. rewrite He, bind_OK.
    unfold Patcher.get_unparser. cbn [Patcher.unparser Patcher.U].
    unfold int_to_bytes. change (2 <? 0) with false. cbv beta iota.
    destruct (Z.leb_spec 0 (len e)); [|done].
    change (2 ^ (8 * 2)) with 65536.
    by destruct (Z.ltb_spec (len e) 65536); [lia|].
  - intros data i j s Hi H Hj. by apply (string_ok data i s j Hi H).
Qed.

Lemma string_field_round_trip_witness :
  (∃ e, utf8_encode [104; 233; 8364] = OK e ∧ len e < 65536 ∧
        bs [6; 0; 104; 195; 169; 226; 130; 172] = to_le 2 (len e) ++ e ∧
        Patcher.inner (Patcher.string (Patcher.U 2))
          (bs [7] ++ bs [6; 0; 104; 195; 169; 226; 130; 172] ++ bs [9]) (len (bs [7]))
        = OK ([104; 233; 8364],
              len (bs [7]) + len (bs [6; 0; 104; 195; 169; 226; 130; 172]))) ∧
  Patcher.unparser (Patcher.string (Patcher.U 2)) [240; 40]
  = OK (slice (bs [3; 0; 195; 176; 40]) 0 5).
Proof.
  split.
  - apply (proj1 string_field_round_trip [104; 233; 8364]
             (bs [6; 0; 104; 195; 169; 226; 130; 172]) (bs [7]) (bs [9])).
    reflexivity.
  - apply (proj2 (proj2 string_field_round_trip) (bs [3; 0; 195; 176; 40]) 0 5 [240; 40]);
      [lia|reflexivity|vm_compute; discriminate].
Defined.

(* ===================================================================== *)
(** * The schema codec: what is unparsed is parsed back                   *)
(* ===================================================================== *)

Section placed_bytes.

Lemma placed_app data i (b b' : bytes) :
  placed data i (b ++ b') → placed data i b ∧ placed data (i + len b) b'.
Proof.
  intros (pre & rest & -> & ->). split.
  - exists pre, (b' ++ rest). by rewrite <- app_assoc.
  - exists (pre ++ b), rest. by rewrite <- !app_assoc, len_app.
Qed.

Lemma placed_slice data i (b : bytes) :
  placed data i b → slice data i (i + len b) = b ∧ 0 <= i ∧ i + len b <= len data.
Proof.
  intros (pre & rest & -> & ->). split; [by apply slice_at|].
  rewrite !len_app. pose proof (len_nonneg pre). pose proof (len_nonneg rest). lia.
Qed.

Lemma placed_whole (b : bytes) : placed b 0 b.
Proof. exists [], []. by rewrite app_nil_r. Qed.

Lemma placed_end data i (b : bytes) :
  placed data i b → i + len b = len data → slice_from data i = b.
Proof.
  intros (pre & rest & -> & ->) Hl. rewrite !len_app in Hl.
  pose proof (len_nonneg pre). pose proof (len_nonneg b).
  assert (rest = []) as ->.
  { destruct rest; [done|]. rewrite len_cons in Hl. pose proof (len_nonneg rest). lia. }
  rewrite app_nil_r, slice_from_eq by (rewrite len_app; lia).
  unfold len. rewrite Nat2Z.id. by rewrite drop_app_length.
Qed.

End placed_bytes.

Section inverse_combinators.

Import Patcher.

Lemma int_to_bytes_inv x n signed b :
  int_to_bytes x n signed = OK b →
  0 <= n ∧ len b = n ∧
  if signed then - 2 ^ (8 * n) <= 2 * x < 2 ^ (8 * n) ∧ b = to_le (Z.to_nat n) (x mod 2 ^ (8 * n))
  else 0 <= x < 2 ^ (8 * n) ∧ b = to_le (Z.to_nat n) x.
Proof.
  unfold int_to_bytes. destruct (Z.ltb_spec n 0); [done|]. destruct signed.
  - destruct (Z.leb_spec (- 2 ^ (8 * n)) (2 * x)); [|done].
    destruct (Z.ltb_spec (2 * x) (2 ^ (8 * n))); [|done]. intros [= <-].
    rewrite len_to_le. repeat split; lia.
  - destruct (Z.leb_spec 0 x); [|done].
    destruct (Z.ltb_spec x (2 ^ (8 * n))); [|done]. intros [= <-].
    rewrite len_to_le. repeat split; lia.
Qed.

Lemma U_inv n : 1 <= n → CodecInv (U n) id.
Proof.
  intros Hn v b data i H Hp. cbn [unparser U] in H.
  apply int_to_bytes_inv in H as (_ & Hl & Hv & ->).
  destruct (placed_slice _ _ _ Hp) as (Hs & _ & _). rewrite Hl in *.
  split; [lia|]. cbn [inner U]. rewrite Hs. unfold int_from_bytes. cbn [andb].
  by rewrite from_le_to_le by (rewrite Z2Nat.id by lia; done).
Qed.

Lemma S_inv n : 1 <= n → CodecInv (S n) id.
Proof.
  intros Hn v b data i H Hp. cbn [unparser S] in H.
  apply int_to_bytes_inv in H as (_ & Hl & Hv & ->).
  destruct (placed_slice _ _ _ Hp) as (Hs & _ & _). rewrite Hl in *.
  split; [lia|]. cbn [inner S]. rewrite Hs. unfold id. do 2 f_equal.
  assert (2 ^ (8 * n) = 2 * 2 ^ (8 * n - 1)) as Hp2.
  { rewrite <- Z.pow_succ_r by lia. f_equal. lia. }
  replace n with (Z.of_nat (Z.to_nat n)) at 2 by lia.
  apply int_from_bytes_signed; [lia|]. rewrite Z2Nat.id by lia. unfold id. lia.
Qed.

#[global] Instance U1_inv : CodecInv (U 1) id. Proof. by apply U_inv. Qed.
#[global] Instance U2_inv : CodecInv (U 2) id. Proof. by apply U_inv. Qed.
#[global] Instance U4_inv : CodecInv (U 4) id. Proof. by apply U_inv. Qed.
#[global] Instance U8_inv : CodecInv (U 8) id. Proof. by apply U_inv. Qed.
#[global] Instance S2_inv : CodecInv (S 2) id. Proof. by apply S_inv. Qed.
#[global] Instance S8_inv : CodecInv (S 8) id. Proof. by apply S_inv. Qed.

#[global] Instance string_inv : CodecInv (string (U 2)) id.
Proof.
  intros v b data i H (pre & rest & -> & ->).
  destruct (string_read_back v b pre rest H) as (e & _ & _ & Hb & Hparse).
  split; [|done]. rewrite Hb, len_app, len_to_le. pose proof (len_nonneg e). lia.
Qed.

Lemma join_map_len {A} (f : A → result bytes) (x : list A) body :
  (∀ v b, f v = OK b → 1 <= len b) →
  join_map f x = OK body → len x <= len body.
Proof.
  intros Hf. revert body. induction x as [|e x IH]; intros body H.
  - injection H as <-. done.
  - cbn [join_map] in H. apply bind_OK_inv in H as (b & Hb & H).
    apply bind_OK_inv in H as (r & Hr & H). injection H as <-.
    rewrite len_cons, len_app. specialize (IH r Hr). specialize (Hf e b Hb). lia.
Qed.

Lemma seq_loop_inv {A} (f : codec A) norm `{!CodecInv f norm} (x : list A) :
  ∀ body data i acc,
    join_map (unparser f) x = OK body → placed data i body →
    seq_loop (inner f) data (length x) i acc = OK (acc ++ (norm <$> x), i + len body).
Proof.
  induction x as [|e x IH]; intros body data i acc H Hp.
  - injection H as <-. cbn. rewrite app_nil_r. do 2 f_equal. change (len []) with 0. lia.
  - cbn [join_map] in H. apply bind_OK_inv in H as (b & Hb & H).
    apply bind_OK_inv in H as (r & Hr & H). injection H as <-.
    apply placed_app in Hp as [Hp1 Hp2].
    destruct (codec_inv e b data i Hb Hp1) as [_ He].
    cbn [length seq_loop]. unfold with_note. rewrite He, bind_OK. cbv beta iota.
    rewrite (IH r data (i + len b) (acc ++ [norm e]) Hr Hp2).
    rewrite <- app_assoc, len_app. cbn [fmap list_fmap app]. do 2 f_equal. lia.
Qed.

Lemma seq_inv {A} (f : codec A) (l : codec Z) norm
    `{!CodecInv f norm} `{!CodecInv l id} :
  CodecInv (seq f l) (fmap norm).
Proof.
  intros x b data i H Hp. cbn [unparser seq] in H. unfold get_unparser in H.
  apply bind_OK_inv in H as (h & Hh & H). apply bind_OK_inv in H as (body & Hbody & H).
  injection H as <-.
  destruct (placed_slice _ _ _ Hp) as (_ & Hi & Hlen).
  apply placed_app in Hp as [Hp1 Hp2].
  destruct (codec_inv (len x) h data i Hh Hp1) as [Lh Hl].
  pose proof (join_map_len (unparser f) x body
                (fun v b Hb => proj1 (codec_inv v b (b ++ []) 0 Hb
                   ltac:(exists [], []; split; [done|done]))) Hbody) as Lb.
  rewrite len_app in *. pose proof (len_nonneg x). pose proof (len_nonneg body). split; [lia|].
  cbn [inner seq]. unfold with_note. rewrite Hl, bind_OK. cbv beta iota. unfold id.
  destruct (Z.ltb_spec (len x) (len data)); [|lia].
  replace (Z.to_nat (len x)) with (length x) by (unfold len; lia).
  rewrite (seq_loop_inv f norm x body data (i + len h) [] Hbody Hp2).
  cbn [app]. do 2 f_equal. lia.
Qed.

#[global] Instance seq_U2_inv {A} (f : codec A) norm `{!CodecInv f norm} :
  CodecInv (seq f (U 2)) (fmap norm).
Proof. apply seq_inv; apply _. Qed.

#[global] Instance seq_S8_inv {A} (f : codec A) norm `{!CodecInv f norm} :
  CodecInv (seq f (S 8)) (fmap norm).
Proof. apply seq_inv; apply _. Qed.

#[global] Instance pair_inv {A B} (f : codec A) (g : codec B) nf ng
    `{!CodecInv f nf} `{!CodecInv g ng} :
  CodecInv (pair f g) (prod_map nf ng).
Proof.
  intros [a c] b data i H Hp. cbn [unparser pair] in H. unfold get_unparser in H.
  cbn [fst snd] in H.
  apply bind_OK_inv in H as (b1 & H1 & H). apply bind_OK_inv in H as (b2 & H2 & H).
  injection H as <-. apply placed_app in Hp as [Hp1 Hp2].
  destruct (codec_inv a b1 data i H1 Hp1) as [L1 E1].
  destruct (codec_inv c b2 data (i + len b1) H2 Hp2) as [L2 E2].
  rewrite len_app. split; [lia|].
  cbn [inner pair]. unfold with_note. rewrite E1, bind_OK. cbv beta iota.
  rewrite E2, bind_OK. cbn. do 2 f_equal. lia.
Qed.

End inverse_combinators.

Section inverse_records.

Import Patcher.

(** One field of [unparse]: its bytes. *)
Ltac un_field H :=
  let b := fresh "b" in let Hb := fresh "Hb" in
  apply bind_OK_inv in H as (b & Hb & H).

(** One field of [parse], read from the bytes that [unparse] wrote for
    it. *)
Ltac re_field Hb Hp :=
  let Hq := fresh "Hq" in let L := fresh "L" in
  apply placed_app in Hp as [Hq Hp];
  destruct (codec_inv _ _ _ _ Hb Hq) as [L ->];
  rewrite bind_OK; cbv beta iota.

Ltac last_field Hb Hp :=
  let L := fresh "L" in
  destruct (codec_inv _ _ _ _ Hb Hp) as [L ->];
  rewrite bind_OK; cbv beta iota.

#[global] Instance Point_inv : CodecInv Point.codec Point_refresh.
Proof.
  intros v b data i H Hp. cbn [unparser Point.codec] in H. pose proof H as H0.
  unfold Point.unparse, get_unparser in H.
  do 2 un_field H. injection H as <-.
  destruct (placed_slice _ _ _ Hp) as (Hs & Hi & Hlen).
  cbn [inner Point.codec]. unfold Point.parse, with_note.
  re_field Hb Hp. last_field Hb0 Hp.
  rewrite !len_app in *. split; [lia|].
  destruct (Z.leb_spec (len data) i); [lia|]. cbv zeta.
  unfold Point_refresh. rewrite H0. cbn [refreshed]. unfold id.
  f_equal. f_equal; [|lia]. f_equal. rewrite <- Hs. f_equal. lia.
Qed.

#[global] Instance LinkedComponent_inv : CodecInv LinkedComponent.codec LinkedComponent_refresh.
Proof.
  intros v b data i H Hp. cbn [unparser LinkedComponent.codec] in H. pose proof H as H0.
  unfold LinkedComponent.unparse, get_unparser in H.
  do 4 un_field H. injection H as <-.
  destruct (placed_slice _ _ _ Hp) as (Hs & Hi & Hlen).
  cbn [inner LinkedComponent.codec]. unfold LinkedComponent.parse, with_note.
  re_field Hb Hp. re_field Hb0 Hp. re_field Hb1 Hp. last_field Hb2 Hp.
  rewrite !len_app in *. split; [lia|].
  destruct (Z.leb_spec (len data) i); [lia|]. cbv zeta.
  unfold LinkedComponent_refresh. rewrite H0. cbn [refreshed]. unfold id.
  f_equal. f_equal; [|lia]. f_equal. rewrite <- Hs. f_equal. lia.
Qed.

#[global] Instance CustomCompData_inv : CodecInv CustomCompData.codec CustomCompData_refresh.
Proof.
  intros v b data i H Hp. cbn [unparser CustomCompData.codec] in H. pose proof H as H0.
  unfold CustomCompData.unparse, get_unparser in H.
  do 2 un_field H. injection H as <-.
  destruct (placed_slice _ _ _ Hp) as (Hs & Hi & Hlen).
  cbn [inner CustomCompData.codec]. unfold CustomCompData.parse, with_note.
  re_field Hb Hp. last_field Hb0 Hp.
  rewrite !len_app in *. split; [lia|].
  destruct (Z.leb_spec (len data) i); [lia|]. cbv zeta.
  unfold CustomCompData_refresh. rewrite H0. cbn [refreshed]. unfold id.
  f_equal. f_equal; [|lia]. f_equal.
  - rewrite <- Hs. f_equal. lia.
  - clear. induction (CustomCompData.static_states v) as [|[a c] l IH]; [done|].
    cbn. by rewrite IH.
Qed.

Lemma fmap_prod_id {A B} (l : list (A * B)) : prod_map id id <$> l = l.
Proof. induction l as [|[a c] l IH]; [done|]. cbn. by rewrite IH. Qed.

Ltac same_end Hs :=
  match goal with
  | |- OK (_, ?i1) = OK (_, ?i2) =>
      let E := fresh in assert (i1 = i2) as E by lia; rewrite E, Hs; reflexivity
  end.

#[global] Instance Component_inv : CodecInv Component.codec Component_refresh.
Proof.
  intros v b data i H Hp. cbn [unparser Component.codec] in H. pose proof H as H0.
  unfold Component.unparse, get_unparser in H.
  do 12 un_field H. injection H as <-.
  destruct (placed_slice _ _ _ Hp) as (Hs & Hi & Hlen).
  cbn [inner Component.codec]. unfold Component.parse, with_note.
  change Point.parse with (inner Point.codec).
  change CustomCompData.parse with (inner CustomCompData.codec).
  re_field Hb Hp. re_field Hb0 Hp. re_field Hb1 Hp. re_field Hb2 Hp. re_field Hb3 Hp.
  re_field Hb4 Hp. re_field Hb5 Hp. re_field Hb6 Hp. re_field Hb7 Hp. re_field Hb8 Hp.
  re_field Hb9 Hp. unfold id at 1.
  rewrite !len_app in *. pose proof (len_nonneg b11).
  destruct (Z.leb_spec (len data) i); [lia|]. cbv zeta.
  unfold Component_refresh. rewrite H0. cbn [refreshed]. unfold id.
  rewrite list_fmap_id, fmap_prod_id.
  destruct (Component.custom_data_if (Component.component_kind v)) eqn:Hk.
  - destruct (Component.custom_data v) as [cd|]; [|done].
    last_field Hb10 Hp. split; [lia|]. cbn [fmap option_fmap option_map].
    rewrite bind_OK. cbv beta iota. same_end Hs.
  - injection Hb10 as <-. change (len []) with 0 in *. split; [lia|].
    rewrite ?bind_OK. cbv beta iota. same_end Hs.
Qed.

Lemma Schematic_read_back (v : Schematic.t) (b : bytes) :
  Schematic.unparse v = OK b →
  1 <= len b ∧ Schematic.parse b 0 = OK (Schematic_refresh v, len b).
Proof.
  intros H. pose proof H as H0. pose proof (placed_whole b) as Hp.
  unfold Schematic.unparse, get_unparser in H.
  do 15 un_field H. injection H as <-.
  destruct (placed_slice _ _ _ Hp) as (Hs & Hi & Hlen).
  unfold Schematic.parse, with_note.
  change Point.parse with (inner Point.codec).
  re_field Hb Hp. re_field Hb0 Hp. re_field Hb1 Hp. re_field Hb2 Hp. re_field Hb3 Hp.
  re_field Hb4 Hp. re_field Hb5 Hp. re_field Hb6 Hp. re_field Hb7 Hp. re_field Hb8 Hp.
  re_field Hb9 Hp. re_field Hb10 Hp. re_field Hb11 Hp. re_field Hb12 Hp.
  cbn [inner remainder]. rewrite bind_OK. cbv beta iota.
  cbn [unparser remainder] in Hb13. injection Hb13 as <-.
  rewrite (placed_end _ _ _ Hp) by (rewrite !len_app; lia).
  pose proof (len_nonneg (Schematic.wires v)).
  rewrite !len_app in *. split; [lia|].
  destruct (Z.leb_spec (len b0 + (len b1 + (len b2 + (len b3 + (len b4 + (len b5 + (len b6 + (len b7 + (len b8 + (len b9 + (len b10 + (len b11 + (len b12 + (len b13 + len (Schematic.wires v))))))))))))))) 0);
    [lia|]. cbv zeta.
  unfold Schematic_refresh. rewrite H0. cbn [refreshed]. unfold id.
  rewrite !list_fmap_id. rewrite Z.add_0_l in Hs. by rewrite Hs.
Qed.

End inverse_records.

(* ===================================================================== *)
(** * The patcher run on its own output                                   *)
(* ===================================================================== *)

Section second_run.

Import Patcher.

(** [unparse] does not read [raw]. *)
Lemma join_map_Forall2 {A} (f : A → result bytes) (xs ys : list A) :
  Forall2 (fun x y => f x = f y) xs ys → join_map f xs = join_map f ys.
Proof.
  induction 1 as [|x y xs ys Hxy _ IH]; [done|]. cbn [join_map]. by rewrite Hxy, IH.
Qed.

Lemma seq_unparser_Forall2 {A} (f : codec A) (l : codec Z) (xs ys : list A) :
  Forall2 (fun x y => unparser f x = unparser f y) xs ys →
  unparser (seq f l) xs = unparser (seq f l) ys.
Proof.
  intros H. cbn [unparser seq]. unfold get_unparser.
  rewrite (join_map_Forall2 _ _ _ H).
  unfold len. by rewrite (Forall2_length _ _ _ H).
Qed.

Lemma Forall2_fmap_same {A} (R : A → A → Prop) (n : A → A) (xs : list A) :
  (∀ x, R (n x) x) → Forall2 R (n <$> xs) xs.
Proof. intros H. induction xs; constructor; auto. Qed.

Lemma Point_unparse_refresh p : Point.unparse (Point_refresh p) = Point.unparse p.
Proof. done. Qed.

Lemma LinkedComponent_unparse_refresh c :
  LinkedComponent.unparse (LinkedComponent_refresh c) = LinkedComponent.unparse c.
Proof. done. Qed.

Lemma CustomCompData_unparse_refresh c :
  CustomCompData.unparse (CustomCompData_refresh c) = CustomCompData.unparse c.
Proof. done. Qed.

Lemma Component_unparse_set_refresh w c :
  Component.unparse (Component.set_word_size w (Component_refresh c))
  = Component.unparse (Component.set_word_size w c).
Proof.
  unfold Component.unparse.
  cbn [Component.set_word_size Component_refresh Component.component_kind
       Component.position Component.rotation Component.permanent_id
       Component.custom_string Component.settings Component.buffer_size
       Component.ui_order Component.word_size Component.linked_components
       Component.selected_programs Component.custom_data].
  change (get_unparser Point.codec (Point_refresh ?p)) with (get_unparser Point.codec p).
  unfold get_unparser.
  rewrite (seq_unparser_Forall2 LinkedComponent.codec (U 2)
             (LinkedComponent_refresh <$> Component.linked_components c)
             (Component.linked_components c))
    by (by apply Forall2_fmap_same).
  destruct (Component.custom_data_if (Component.component_kind c)); [|done].
  by destruct (Component.custom_data c).
Qed.

Lemma Component_unparse_refresh c :
  Component.unparse (Component_refresh c) = Component.unparse c.
Proof.
  pose proof (Component_unparse_set_refresh (Component.word_size c) c) as H.
  by destruct c.
Qed.

Lemma Schematic_unparse_components cs cs' res' :
  unparser (seq Component.codec (S 8)) cs = unparser (seq Component.codec (S 8)) cs' →
  Schematic.unparse (Schematic.set_components cs (Schematic_refresh res'))
  = Schematic.unparse (Schematic.set_components cs' res').
Proof.
  intros H. unfold Schematic.unparse.
  cbn [Schematic.set_components Schematic_refresh Schematic.custom_id
       Schematic.hub_id Schematic.gate Schematic.delay Schematic.menu_visible
       Schematic.clock_speed Schematic.dependencies Schematic.description
       Schematic.camera_position Schematic.synced Schematic._dummy
       Schematic.player_data Schematic.hub_description Schematic.components
       Schematic.wires].
  change (get_unparser Point.codec (Point_refresh ?p)) with (get_unparser Point.codec p).
  unfold get_unparser. by rewrite H.
Qed.

Lemma filter_fmap_same {A} (P : A → Prop) `{!∀ x, Decision (P x)} (n : A → A) (l : list A) :
  (∀ x, P (n x) ↔ P x) → filter P (n <$> l) = n <$> filter P l.
Proof.
  intros Hn. induction l as [|a l IH]; [done|]. cbn [fmap list_fmap].
  rewrite !filter_cons.
  destruct (decide (P (n a))) as [Hna|Hna], (decide (P a)) as [Ha|Ha].
  - cbn [fmap list_fmap]. f_equal. exact IH.
  - exfalso. apply Ha. by apply Hn.
  - exfalso. apply Hna. by apply Hn.
  - exact IH.
Qed.

(** A written file is not longer than [snappy_encode] can describe. *)
Lemma load_written res b enc :
  Schematic.unparse res = OK b → snappy_encode b = OK enc →
  decompress (x0a :: enc) = OK b ∧ load (x0a :: enc) = OK (Schematic_refresh res).
Proof.
  intros Hb Henc. destruct (Schematic_read_back res b Hb) as [L Hparse].
  assert (b ≠ []) by (intros ->; change (len []) with 0 in L; lia).
  assert (len b <= 2 ^ 32).
  { destruct (Z.le_gt_cases (len b) (2 ^ 32)); [done|].
    rewrite snappy_encode_overflow in Henc by lia. done. }
  destruct (snappy_encode_read_back_aux b) as (enc' & He & Hd & _); [done..|].
  assert (enc' = enc) as -> by congruence.
  split; [done|]. unfold load. by rewrite Hd, bind_OK, Hparse.
Qed.

Lemma second_patch res res' :
  patch res = OK res' →
  ∃ res2, patch (Schematic_refresh res') = OK res2 ∧
          Schematic.unparse res2 = Schematic.unparse res'.
Proof.
  intros H. destruct (patched_shape res res' H)
    as (r' & p' & (Hram & Hr & Hp) & H16 & H32 & Hcs & Hset).
  assert (ram_components res' = [r'; p']) as Hram'.
  { destruct Hram as [E|E]; [done|]. exfalso.
    assert (filter is_ram (other_components res' ++ [r'; p']) = [p'; r']) as F
      by (by rewrite <- Hcs).
    rewrite filter_app in F. unfold other_components in F.
    rewrite filter_filter_neg in F. cbn [app] in F.
    assert (is_ram r' ∧ is_ram p') as [Kr Kp].
    { assert (r' ∈ ram_components res' ∧ p' ∈ ram_components res') as [H1 H2]
        by (rewrite E; split; set_solver).
      unfold ram_components in H1, H2.
      apply list_elem_of_filter in H1 as [? _], H2 as [? _]. done. }
    rewrite !filter_cons, filter_nil in F.
    destruct (decide (is_ram r')); [|done]. destruct (decide (is_ram p')); [|done].
    injection F as F1 F2. rewrite F1 in Hr. lia. }
  assert (two_rams (Schematic_refresh res') (Component_refresh r') (Component_refresh p'))
    as Hram2.
  { split; [|done]. left. unfold ram_components.
    cbn [Schematic_refresh Schematic.components].
    rewrite (filter_fmap_same is_ram Component_refresh) by done.
    fold (ram_components res'). by rewrite Hram'. }
  eexists. split; [by apply patch_two_rams|].
  transitivity (Schematic.unparse
                  (Schematic.set_components (other_components res' ++ [r'; p']) res'));
    [|by rewrite <- Hcs, Hset].
  apply Schematic_unparse_components. apply seq_unparser_Forall2.
  apply Forall2_app.
  - unfold other_components at 1. cbn [Schematic_refresh Schematic.components].
    rewrite (filter_fmap_same (fun c => ¬ is_ram c) Component_refresh) by done.
    fold (other_components res'). apply Forall2_fmap_same.
    intros x. apply Component_unparse_refresh.
  - repeat constructor; cbn [unparser Component.codec];
      rewrite Component_unparse_set_refresh; congruence.
Qed.

End second_run.

(** X20.  What the patcher writes, it reads back.  When
    [Schematic.unparse] returns bytes for a tree, [Schematic.parse] of
    these bytes returns the tree again, with every [raw] brought up to
    date and a [custom_data] that its ['if'] leaves out dropped, and
    consumes all of them; and when [snappy_encode] accepts these bytes,
    the file made of the version byte and its result decompresses to
    them and loads as that tree. *)
Theorem written_schematic_loads_back (res : Patcher.Schematic.t) (b : bytes) :
  Patcher.Schematic.unparse res = OK b →
  Patcher.Schematic.parse b 0 = OK (Schematic_refresh res, len b) ∧
  ∀ enc, Patcher.snappy_encode b = OK enc →
         Patcher.decompress (x0a :: enc) = OK b ∧
         Patcher.load (x0a :: enc) = OK (Schematic_refresh res).
Proof.
  intros Hb. split; [by apply Schematic_read_back|].
  intros enc Henc. by apply load_written.
Qed.

Lemma written_schematic_loads_back_witness :
  ∃ res j b,
    Patcher.Schematic.parse two_ram_schematic 0 = OK (res, j) ∧
    Patcher.Schematic.unparse res = OK b ∧
    Patcher.Schematic.parse b 0 = OK (Schematic_refresh res, len b) ∧
    ∀ enc, Patcher.snappy_encode b = OK enc →
           Patcher.decompress (x0a :: enc) = OK b ∧
           Patcher.load (x0a :: enc) = OK (Schematic_refresh res).
Proof.
  eexists _, _, _. split; [vm_compute; reflexivity|].
  assert (∀ P Q : Prop, P → (P → Q) → P ∧ Q) as both by tauto.
  apply both; [vm_compute; reflexivity|].
  apply written_schematic_loads_back.
Defined.

(** X21.  A second run repeats the first.  When [main] has returned
    normally, running it again on the files it left returns normally too
    and writes the same bytes to the circuit file; the file under the path
    with [.bak] appended is then the patched file ([shutil.move] replacing
    the file that was there), so the original is no longer kept. *)
Theorem main_again_writes_the_same
    (circuit_file : String.string) (fs fs1 : gmap String.string bytes) :
  Patcher.main circuit_file fs = (OK tt, fs1) →
  ∃ patched,
    fs1 !! circuit_file = Some patched ∧
    Patcher.main circuit_file fs1
    = (OK tt, <[(circuit_file +:+ ".bak")%string := patched]> fs1).
Proof.
  intros H. unfold Patcher.main in H.
  assert ((circuit_file +:+ ".bak")%string ≠ circuit_file) as Hbak by (by apply append_neq).
  destruct (fs !! circuit_file) as [content|] eqn:Hfs; [|done].
  destruct (res ← Patcher.load content; Patcher.patch res) as [res'|e] eqn:Hpatch; [|done].
  apply bind_OK_inv in Hpatch as (res & Hload & Hpatch).
  destruct (b ← Patcher.Schematic.unparse res'; Patcher.snappy_encode b)
    as [out|e] eqn:Hout; [|done].
  injection H as <-.
  apply bind_OK_inv in Hout as (b & Hb & Henc).
  destruct (load_written res' b out Hb Henc) as [_ Hload2].
  destruct (second_patch res res' Hpatch) as (res2 & Hpatch2 & Hun2).
  exists (x0a :: out). split; [by rewrite lookup_insert_eq|].
  unfold Patcher.main. rewrite lookup_insert_eq.
  change ([x0a] ++ out) with (x0a :: out).
  rewrite Hload2, bind_OK, Hpatch2, Hun2, Hb, bind_OK, Henc.
  f_equal. apply map_eq. intros p.
  destruct (decide (p = circuit_file)) as [->|Hp].
  { by rewrite lookup_insert_eq, lookup_insert_ne, lookup_insert_eq by done. }
  rewrite !(lookup_insert_ne _ circuit_file) by done.
  destruct (decide (p = (circuit_file +:+ ".bak")%string)) as [->|Hp'].
  { by rewrite !lookup_insert_eq. }
  repeat first [rewrite lookup_insert_ne by done | rewrite lookup_delete_ne by done].
  done.
Qed.

Lemma main_again_writes_the_same_witness :
  let fs : gmap String.string bytes := {[ "circuit.data"%string := two_ram_file ]} in
  ∃ fs1,
    Patcher.main "circuit.data" fs = (OK tt, fs1) ∧
    ∃ patched,
      fs1 !! "circuit.data"%string = Some patched ∧
      Patcher.main "circuit.data" fs1
      = (OK tt, <[("circuit.data" +:+ ".bak")%string := patched]> fs1).
Proof.
  intros fs. eexists.
  assert (∀ P Q : Prop, P → (P → Q) → P ∧ Q) as both by tauto.
  apply both; [vm_compute; reflexivity|].
  apply main_again_writes_the_same.
Defined.
